(** * Marketplace resolution, normalisation, aggregation and cache

    A shallow embedding of [src/features/marketplace.ts] and
    [src/features/cache.ts] of the agent-plugins browser extension, with
    the properties of the resolution and caching pipeline proved about it.
    The second part of the definitions adds the descriptor summaries, the
    fetching and hydration of a marketplace, the names of install
    directories, and what the callers in [config.ts], [webview.ts] and
    [utils.ts] do with the results.

    Conventions of the embedding.
    - A JavaScript string is the [string] of the UTF-8 bytes of its text
      (a text with a lone surrogate has none, and is outside the
      embedding). White space is that of the language: [trim] and [\s]
      take its characters of one, two and three bytes alike. Strings are
      ordered by their UTF-16 code units.
    - The case-insensitive regular expressions of the source have ASCII
      patterns and no [u] flag: they fold the letters A to Z only, and so
      does the embedding. [toLowerCase] on the name of an item, which may
      hold any letter, is the host's and a parameter ([Host]); on a host
      name, a path segment and the name of an install directory it is
      taken as the folding of the letters A to Z.
    - A JavaScript number that counts milliseconds is a [Z].
    - An [unknown] value that came out of [JSON.parse] is a [JSON]; a
      property that is not there reads as [None] ([undefined]).
    - A [Map] whose iteration order is observed is an association list in
      insertion order; the cache, which is only read by key, is a [gmap].
    - An [async] function is cut at its [await]: the part before it runs
      when the function is called, the continuation runs when the awaited
      promise settles, each atomically on the single control thread. *)

From Stdlib Require Import ZArith Ascii String Sorting.Sorted Sorting.Permutation.
From Stdlib Require OrderedTypeEx.
From stdpp Require Import gmap strings list fin_maps pretty.

Local Open Scope string_scope.
Local Open Scope Z_scope.
Local Open Scope list_scope.

Set Warnings "-register-all,-clear-no-such-hyp".

(** ** Strings as the source uses them *)

Module Str.

Definition chars (s : string) : list ascii := list_ascii_of_string s.
Definition ofChars (cs : list ascii) : string := string_of_list_ascii cs.

Definition isUpper (c : ascii) : bool :=
  let n := nat_of_ascii c in (65 <=? n)%nat && (n <=? 90)%nat.
Definition isLower (c : ascii) : bool :=
  let n := nat_of_ascii c in (97 <=? n)%nat && (n <=? 122)%nat.
Definition isDigit (c : ascii) : bool :=
  let n := nat_of_ascii c in (48 <=? n)%nat && (n <=? 57)%nat.
Definition isAlpha (c : ascii) : bool := isUpper c || isLower c.
Definition isAlnum (c : ascii) : bool := isAlpha c || isDigit c.

(** The white space of one byte: tab, line feed, vertical tab, form feed,
    carriage return and space. *)
Definition isSpace (c : ascii) : bool :=
  let n := nat_of_ascii c in ((9 <=? n)%nat && (n <=? 13)%nat) || (n =? 32)%nat.

Definition lowerChar (c : ascii) : ascii :=
  if isUpper c then ascii_of_nat (nat_of_ascii c + 32) else c.

(** The letters A to Z folded to a to z: what the case-insensitive
    patterns of the source match, and what [s.toLowerCase()] does to a
    text without other letters. *)
Definition toLowerCase (s : string) : string :=
  ofChars (List.map lowerChar (chars s)).

Fixpoint startsWithChars (p cs : list ascii) : bool :=
  match p, cs with
  | [], _ => true
  | _ :: _, [] => false
  | a :: p', c :: cs' => Ascii.eqb a c && startsWithChars p' cs'
  end.

(** [s.startsWith(p)] *)
Definition startsWith (p s : string) : bool :=
  startsWithChars (chars p) (chars s).

(** [s.endsWith(p)] *)
Definition endsWith (p s : string) : bool :=
  startsWithChars (rev (chars p)) (rev (chars s)).

(** [s.length] *)
Definition len (s : string) : nat := String.length s.

(** Drop [n] characters from the front, or from the back. *)
Definition dropFront (n : nat) (s : string) : string :=
  ofChars (drop n (chars s)).
Definition dropBack (n : nat) (s : string) : string :=
  ofChars (rev (drop n (rev (chars s)))).

(** [s.split(sep)] for a one-character separator: always at least one
    piece, empty pieces kept. *)
Fixpoint splitChars (sep : ascii) (cur : list ascii) (cs : list ascii)
  : list string :=
  match cs with
  | [] => [ofChars (rev cur)]
  | c :: cs' =>
      if Ascii.eqb c sep
      then ofChars (rev cur) :: splitChars sep [] cs'
      else splitChars sep (c :: cur) cs'
  end.

Definition split (sep : ascii) (s : string) : list string :=
  splitChars sep [] (chars s).

(** [xs.join(sep)] *)
Fixpoint join (sep : string) (xs : list string) : string :=
  match xs with
  | [] => ""
  | [x] => x
  | x :: rest => x +:+ sep +:+ join sep rest
  end.

(** [Boolean(s)] on a string: the empty string is the only falsy one. *)
Definition truthy (s : string) : bool := negb (String.eqb s "").

Fixpoint dropWhile (p : ascii -> bool) (cs : list ascii) : list ascii :=
  match cs with
  | [] => []
  | c :: cs' => if p c then dropWhile p cs' else cs
  end.

Fixpoint takeWhile (p : ascii -> bool) (cs : list ascii) : list ascii :=
  match cs with
  | [] => []
  | c :: cs' => if p c then c :: takeWhile p cs' else []
  end.

(** The white space of the language ([WhiteSpace] and [LineTerminator]:
    what [trim] removes and [\s] matches) that is not ASCII, by its UTF-8
    bytes: U+00A0 in two bytes; U+1680, U+2000 to U+200A, U+2028, U+2029,
    U+202F, U+205F, U+3000 and U+FEFF in three. *)
Definition isSpace2 (a b : ascii) : bool :=
  (nat_of_ascii a =? 194)%nat && (nat_of_ascii b =? 160)%nat.

Definition isSpace3 (a b c : ascii) : bool :=
  let x := nat_of_ascii a in
  let y := nat_of_ascii b in
  let z := nat_of_ascii c in
  ((x =? 225) && (y =? 154) && (z =? 128))%nat
  || ((x =? 226) && (y =? 128)
      && (((128 <=? z) && (z <=? 138)) || (z =? 168) || (z =? 169) || (z =? 175)))%nat
  || ((x =? 226) && (y =? 129) && (z =? 159))%nat
  || ((x =? 227) && (y =? 128) && (z =? 128))%nat
  || ((x =? 239) && (y =? 187) && (z =? 191))%nat.

(** How many bytes the white space character at the head of [cs] takes,
    0 when [cs] does not start with white space. [two] and [three] tell
    the characters of two and of three bytes. *)
Definition spaceWidth (two : ascii -> ascii -> bool)
    (three : ascii -> ascii -> ascii -> bool) (cs : list ascii) : nat :=
  match cs with
  | a :: r1 =>
      if isSpace a then 1%nat
      else
        match r1 with
        | b :: r2 =>
            if two a b then 2%nat
            else
              match r2 with
              | c :: _ => if three a b c then 3%nat else 0%nat
              | [] => 0%nat
              end
        | [] => 0%nat
        end
  | [] => 0%nat
  end.

(** [cs] without the white space it starts with. *)
Fixpoint dropSpaces (two : ascii -> ascii -> bool)
    (three : ascii -> ascii -> ascii -> bool) (cs : list ascii) : list ascii :=
  match cs with
  | a :: r1 =>
      if isSpace a then dropSpaces two three r1
      else
        match r1 with
        | b :: r2 =>
            if two a b then dropSpaces two three r2
            else
              match r2 with
              | c :: r3 => if three a b c then dropSpaces two three r3 else cs
              | [] => cs
              end
        | [] => cs
        end
  | [] => []
  end.

(** The same read from the last byte backwards. *)
Definition isSpace2Rev (b a : ascii) : bool := isSpace2 a b.
Definition isSpace3Rev (c b a : ascii) : bool := isSpace3 a b c.

Definition trimStartChars (cs : list ascii) : list ascii :=
  dropSpaces isSpace2 isSpace3 cs.

Definition trimEndChars (cs : list ascii) : list ascii :=
  rev (dropSpaces isSpace2Rev isSpace3Rev (rev cs)).

(** [s.trim()] *)
Definition trim (s : string) : string :=
  ofChars (trimEndChars (trimStartChars (chars s))).

(** [s] occurs inside [t]. *)
Definition occursIn (s t : string) : Prop :=
  exists pre post, t = pre +:+ s +:+ post.

End Str.

(** ** The platform's [URL] class

    [new URL(input)] either throws or yields an object of which the source
    reads [protocol], [hostname], [pathname] and [origin]. *)

Record URL := mkURL {
  protocol : string;
  hostname : string;
  port : string;
  pathname : string;
  origin : string
}.

(** A parser for the URLs the resolver is given: [scheme:] followed, for
    [http] and [https], by slashes, an authority [user@host:port], a path,
    and an optional query and fragment. It lower-cases scheme and host,
    drops a default port and turns an empty path into [/], as the platform
    parser does. Percent-encoding, dot-segment removal, host
    canonicalisation (IDNA, IP literals), the range of a port and the
    stripping of control characters are outside it. It is run on
    concrete inputs only, which it reads as the platform parser does;
    the properties of the resolver are about any parser. *)
Module Url.
Import Str.

Definition isSchemeChar (c : ascii) : bool :=
  isAlnum c || Ascii.eqb c "+" || Ascii.eqb c "-" || Ascii.eqb c ".".

Fixpoint schemeTail (acc cs : list ascii) : option (list ascii * list ascii) :=
  match cs with
  | [] => None
  | c :: cs' =>
      if Ascii.eqb c ":" then Some (rev acc, cs')
      else if isSchemeChar c then schemeTail (lowerChar c :: acc) cs'
      else None
  end.

Definition parseScheme (cs : list ascii) : option (list ascii * list ascii) :=
  match cs with
  | c :: cs' => if isAlpha c then schemeTail [lowerChar c] cs' else None
  | [] => None
  end.

Definition isSlash (c : ascii) : bool := Ascii.eqb c "/" || Ascii.eqb c "\".
Definition endsAuthority (c : ascii) : bool :=
  isSlash c || Ascii.eqb c "?" || Ascii.eqb c "#".
Definition endsPath (c : ascii) : bool := Ascii.eqb c "?" || Ascii.eqb c "#".

(** The part after the last [sep], and the part before it, if [sep] occurs. *)
Definition splitLast (sep : ascii) (cs : list ascii)
  : option (list ascii * list ascii) :=
  let r := rev cs in
  let after := takeWhile (fun c => negb (Ascii.eqb c sep)) r in
  match dropWhile (fun c => negb (Ascii.eqb c sep)) r with
  | [] => None
  | _ :: before => Some (rev before, rev after)
  end.

Definition defaultPort (scheme : string) : string :=
  if String.eqb scheme "http" then "80"
  else if String.eqb scheme "https" then "443" else "".

Definition parseSpecial (scheme : string) (rest : list ascii) : option URL :=
  let afterSlashes := dropWhile isSlash rest in
  let authority := takeWhile (fun c => negb (endsAuthority c)) afterSlashes in
  let tail := dropWhile (fun c => negb (endsAuthority c)) afterSlashes in
  let hostport :=
    match splitLast "@" authority with
    | Some (_, hp) => hp
    | None => authority
    end in
  let '(host, prt) :=
    match splitLast ":" hostport with
    | Some (h, p) => (h, p)
    | None => (hostport, [])
    end in
  if negb (forallb isDigit prt) then None
  else
    match host with
    | [] => None
    | _ =>
        let h := toLowerCase (ofChars host) in
        let p := if String.eqb (ofChars prt) (defaultPort scheme)
                 then "" else ofChars prt in
        let rawPath := takeWhile (fun c => negb (endsPath c)) tail in
        let path :=
          match rawPath with
          | [] => "/"
          | _ => ofChars (List.map (fun c => if isSlash c then "/"%char else c) rawPath)
          end in
        Some {| protocol := scheme +:+ ":";
                hostname := h;
                port := p;
                pathname := path;
                origin := scheme +:+ "://" +:+ h +:+
                          (if String.eqb p "" then "" else ":" +:+ p) |}
    end.

Definition parse (input : string) : option URL :=
  match parseScheme (chars input) with
  | None => None
  | Some (sch, rest) =>
      let scheme := ofChars sch in
      if String.eqb scheme "http" || String.eqb scheme "https"
      then parseSpecial scheme rest
      else Some {| protocol := scheme +:+ ":";
                   hostname := "";
                   port := "";
                   pathname := ofChars (takeWhile (fun c => negb (endsPath c)) rest);
                   origin := "null" |}
  end.

End Url.

(** ** URL candidate resolver ([marketplace.ts]) *)

(** A [Set<string>] read back with [Array.from]: insertion order, a value
    already present is not added again. *)
Definition Set_add (x : string) (s : list string) : list string :=
  if bool_decide (x ∈ s) then s else s ++ [x].

(** [/^https?:$/i.test(p)] *)
Definition isHttpProtocol (p : string) : bool :=
  let l := Str.toLowerCase p in
  String.eqb l "http:" || String.eqb l "https:".

(** [/^https?:\/\//i.test(value)] *)
Definition isHttpUrl (value : string) : bool :=
  let l := Str.toLowerCase value in
  Str.startsWith "http://" l || Str.startsWith "https://" l.

(** [s.replace(/\.git$/i, '')] *)
Definition stripDotGit (s : string) : string :=
  if Str.endsWith ".git" (Str.toLowerCase s) then Str.dropBack 4 s else s.

(** [/\.[a-z0-9]+$/i.test(s)]: the longest run of letters and digits at the
    end of [s] is not empty and a dot stands before it. *)
Definition hasFileExtension (s : string) : bool :=
  let r := rev (Str.chars s) in
  match Str.takeWhile Str.isAlnum r, Str.dropWhile Str.isAlnum r with
  | _ :: _, c :: _ => Ascii.eqb c "."
  | _, _ => false
  end.

(** [/\.md$/i.test(s)] *)
Definition isMarkdownPath (s : string) : bool :=
  Str.endsWith ".md" (Str.toLowerCase s).

Section Resolver.

(** [new URL(input)]; [None] when the constructor throws. *)
Variable newURL : string -> option URL.

Definition candidateMarketplaceUrls (inputUrl : string) : list string :=
  let candidates : list string := [] in
  match newURL inputUrl with
  | None => Set_add inputUrl candidates
  | Some parsed =>
      let hostname := Str.toLowerCase (hostname parsed) in
      if negb (isHttpProtocol (protocol parsed)) then
        Set_add inputUrl candidates
      else
        let parts := List.filter Str.truthy (Str.split "/" (pathname parsed)) in
        let generic :=
          let hasFileName := hasFileExtension (pathname parsed) in
          let candidates := Set_add inputUrl candidates in
          if negb hasFileName
             && negb (Str.endsWith "/marketplace.json" (pathname parsed))
          then
            let pathname :=
              if Str.endsWith "/" (pathname parsed) then pathname parsed
              else pathname parsed +:+ "/" in
            let candidates :=
              Set_add (origin parsed +:+ pathname +:+ ".claude-plugin/marketplace.json")
                      candidates in
            Set_add (origin parsed +:+ pathname +:+ ".github/plugin/marketplace.json")
                    candidates
          else candidates in
        if String.eqb hostname "github.com" || String.eqb hostname "www.github.com"
        then
          match parts with
          | owner :: repo0 :: more =>
              let repo := stripDotGit repo0 in
              let raw := "https://raw.githubusercontent.com/" +:+ owner +:+ "/" +:+ repo in
              let conventions :=
                Set_add (raw +:+ "/master/.github/plugin/marketplace.json")
                  (Set_add (raw +:+ "/main/.github/plugin/marketplace.json")
                    (Set_add (raw +:+ "/master/.claude-plugin/marketplace.json")
                      (Set_add (raw +:+ "/main/.claude-plugin/marketplace.json")
                         candidates))) in
              match more with
              | p2 :: branch :: rem1 :: rems =>
                  if String.eqb p2 "blob" then
                    let remainder := Str.join "/" (rem1 :: rems) in
                    Set_add (raw +:+ "/" +:+ branch +:+ "/" +:+ remainder) candidates
                  else conventions
              | _ => conventions
              end
          | _ => generic
          end
        else generic
  end.

End Resolver.

(** ** Probing the candidates ([resolveMarketplaceUrl]) *)

(** What [await authenticatedFetch(url, ...)] comes back with: a response,
    of which the source reads [status] (and [ok]), or an exception, of which
    it reads the message. *)
Inductive FetchOutcome :=
| Responded (status : Z) (statusText : string)
| Threw (message : string).

(** [response.ok]: the status is in the range 200-299. *)
Definition response_ok (status : Z) : bool :=
  (200 <=? status) && (status <=? 299).

Definition outcome_ok (o : FetchOutcome) : bool :=
  match o with
  | Responded status _ => response_ok status
  | Threw _ => false
  end.

Record Resolution := mkResolution {
  documentUrl : option string;
  res_warnings : list string;
  res_errors : list string
}.

(** The warning pushed for a candidate that did not answer with a 2xx. *)
Definition candidateWarning (candidate : string) (o : FetchOutcome) : string :=
  match o with
  | Responded status _ =>
      "Marketplace candidate failed (" +:+ pretty status +:+ "): " +:+ candidate
  | Threw message =>
      "Marketplace candidate unreachable: " +:+ candidate +:+ " (" +:+ message +:+ ")"
  end.

Definition unresolvedError (inputUrl : string) : string :=
  "Could not resolve marketplace document from '" +:+ inputUrl +:+ "'.".

Section Probing.

Variable newURL : string -> option URL.

(** The network: a request is answered from the current state of the
    world and may change it. *)
Variable World : Type.
Variable authenticatedFetch : string -> World -> FetchOutcome * World.

(** The world together with the requests made so far and their outcomes,
    oldest first. *)
Record Net := mkNet {
  world : World;
  exchanges : list (string * FetchOutcome)
}.

Definition request (url : string) (n : Net) : FetchOutcome * Net :=
  let '(o, w) := authenticatedFetch url (world n) in
  (o, {| world := w; exchanges := exchanges n ++ [(url, o)] |}).

(** The [for ... of candidates] loop with its accumulated [warnings]:
    [return] on a response that is [ok], a warning and the next candidate
    on any other response and on an exception. *)
Fixpoint probeCandidates (inputUrl : string) (candidates warnings : list string)
    (n : Net) : Resolution * Net :=
  match candidates with
  | [] =>
      ({| documentUrl := None;
          res_warnings := warnings;
          res_errors := [unresolvedError inputUrl] |}, n)
  | candidate :: rest =>
      let '(o, n') := request candidate n in
      match o with
      | Responded status _ =>
          if response_ok status then
            ({| documentUrl := Some candidate;
                res_warnings := [];
                res_errors := [] |}, n')
          else
            probeCandidates inputUrl rest
              (warnings ++ ["Marketplace candidate failed (" +:+ pretty status
                            +:+ "): " +:+ candidate]) n'
      | Threw message =>
          probeCandidates inputUrl rest
            (warnings ++ ["Marketplace candidate unreachable: " +:+ candidate
                          +:+ " (" +:+ message +:+ ")"]) n'
      end
  end.

Definition resolveMarketplaceUrl (inputUrl : string) (n : Net) : Resolution * Net :=
  probeCandidates inputUrl (candidateMarketplaceUrls newURL inputUrl) [] n.

End Probing.

Arguments mkNet {World}.
Arguments world {World}.
Arguments exchanges {World}.

(** ** Manifest normaliser ([marketplace.ts]) *)

(** A decoded JSON value. An object is the list of its own properties in
    enumeration order, each key once. *)
Inductive JSON :=
| JNull
| JBool (b : bool)
| JNumber (n : Z)
| JString (s : string)
| JArray (items : list JSON)
| JObject (props : list (string * JSON)).

(** [unknown]: a JSON value or [undefined]. *)
Definition unknown := option JSON.
Definition UnknownRecord := list (string * JSON).

(** [record[key]] *)
Fixpoint getProp (key : string) (record : UnknownRecord) : unknown :=
  match record with
  | [] => None
  | (k, v) :: rest => if String.eqb k key then Some v else getProp key rest
  end.

(** [record?.[key]] *)
Definition getPropOpt (key : string) (record : option UnknownRecord) : unknown :=
  match record with
  | Some r => getProp key r
  | None => None
  end.

(** [a ?? b] *)
Definition orElse {A} (a b : option A) : option A :=
  match a with
  | Some x => Some x
  | None => b
  end.
Infix "??" := orElse (at level 61, left associativity).

Definition asRecord (value : unknown) : option UnknownRecord :=
  match value with
  | Some (JObject props) => Some props
  | _ => None
  end.

Definition asString (value : unknown) : option string :=
  match value with
  | Some (JString s) =>
      let normalized := Str.trim s in
      if (0 <? Str.len normalized)%nat then Some normalized else None
  | _ => None
  end.

(** [value.replace(/^\.\//, '').replace(/^\//, '')] *)
Definition normalizeRelativePath (value : string) : string :=
  let v1 := if Str.startsWith "./" value then Str.dropFront 2 value else value in
  if Str.startsWith "/" v1 then Str.dropFront 1 v1 else v1.

Record RepoContext := mkRepoContext {
  owner : string;
  repo : string;
  branch : string;
  rawBaseUrl : string;
  blobBaseUrl : string
}.

Record MarketplaceGroupItem := mkItem {
  item_name : string;
  item_path : option string;
  metadataUrl : option string;
  metadataFallbackUrls : list string;
  docUrl : option string;
  item_description : option string
}.

Record MarketplacePluginGroup := mkGroup {
  group_name : string;
  group_key : string;
  group_items : list MarketplaceGroupItem
}.

Record MarketplacePlugin := mkPlugin {
  id : string;
  name : string;
  description : option string;
  version : option string;
  downloadUrl : option string;
  groups : list MarketplacePluginGroup;
  sourceUrl : string;
  marketplaceDocumentUrl : string;
  raw : UnknownRecord
}.

Record MarketplaceFetchResult := mkResult {
  plugins : list MarketplacePlugin;
  warnings : list string;
  errors : list string
}.

Definition summaryFromRecord (record : UnknownRecord) : option string :=
  asString (getProp "name" record) ?? asString (getProp "id" record)
    ?? asString (getProp "slug" record) ?? asString (getProp "title" record).

Definition descriptorDefaultsForGroup (groupKey : string) : list string :=
  if String.eqb groupKey "skills" then ["SKILL.md"; "README.md"]
  else if String.eqb groupKey "agents" then ["AGENT.md"; "AGENTS.md"; "README.md"]
  else ["README.md"].

Definition buildItemFromPath (pathValue groupKey : string)
    (repoContext : option RepoContext) : MarketplaceGroupItem :=
  let cleanedPath := normalizeRelativePath pathValue in
  let descriptorFiles := descriptorDefaultsForGroup groupKey in
  let external :=
    {| item_name := cleanedPath;
       item_path := Some cleanedPath;
       metadataUrl := if isHttpUrl cleanedPath then Some cleanedPath else None;
       metadataFallbackUrls := [];
       docUrl := if isHttpUrl cleanedPath then Some cleanedPath else None;
       item_description := None |} in
  match repoContext with
  | None => external
  | Some rc =>
      if isHttpUrl cleanedPath then external
      else if isMarkdownPath cleanedPath then
        {| item_name := cleanedPath;
           item_path := Some cleanedPath;
           metadataUrl := Some (rawBaseUrl rc +:+ "/" +:+ cleanedPath);
           metadataFallbackUrls := [];
           docUrl := Some (blobBaseUrl rc +:+ "/" +:+ cleanedPath);
           item_description := None |}
      else
        let metadataCandidates :=
          List.map (fun fileName => rawBaseUrl rc +:+ "/" +:+ cleanedPath +:+ "/" +:+ fileName)
                   descriptorFiles in
        let docCandidate :=
          blobBaseUrl rc +:+ "/" +:+ cleanedPath +:+ "/"
            +:+ List.nth 0 descriptorFiles "undefined" in
        {| item_name := cleanedPath;
           item_path := Some cleanedPath;
           metadataUrl := List.head metadataCandidates;
           metadataFallbackUrls := List.tl metadataCandidates;
           docUrl := Some docCandidate;
           item_description := None |}
  end.

Definition buildGroupItem (entry : unknown) (groupKey : string)
    (repoContext : option RepoContext) : option MarketplaceGroupItem :=
  match entry with
  | Some (JString s) => Some (buildItemFromPath s groupKey repoContext)
  | _ =>
      match asRecord entry with
      | None => None
      | Some record =>
          match asString (getProp "path" record) ?? asString (getProp "source" record)
                  ?? asString (getProp "url" record) with
          | Some pathValue =>
              let base := buildItemFromPath pathValue groupKey repoContext in
              Some {| item_name := default (item_name base) (summaryFromRecord record);
                      item_path := item_path base;
                      metadataUrl := metadataUrl base;
                      metadataFallbackUrls := metadataFallbackUrls base;
                      docUrl := docUrl base;
                      item_description :=
                        asString (getProp "description" record) ?? item_description base |}
          | None =>
              match summaryFromRecord record with
              | None => None
              | Some name =>
                  Some {| item_name := name;
                          item_path := None;
                          metadataUrl := None;
                          metadataFallbackUrls := [];
                          docUrl := None;
                          item_description := asString (getProp "description" record) |}
              end
          end
      end
  end.

Definition toGroupItems (value : unknown) (groupKey : string)
    (repoContext : option RepoContext) : list MarketplaceGroupItem :=
  match value with
  | Some (JArray entries) =>
      omap (fun entry => buildGroupItem (Some entry) groupKey repoContext) entries
  | _ =>
      match asRecord value with
      | None => []
      | Some record =>
          List.map (fun '(key, entryValue) =>
                      match buildGroupItem (Some entryValue) groupKey repoContext with
                      | Some item => item
                      | None => {| item_name := key;
                                   item_path := None;
                                   metadataUrl := None;
                                   metadataFallbackUrls := [];
                                   docUrl := None;
                                   item_description := None |}
                      end) record
      end
  end.

(** A [Map<string, V>] filled with [if (!m.has(k)) m.set(k, v)] and read
    with [m.values()]: insertion order, the first value of a key stays. *)
Section KeepFirst.
Context {V : Type}.

Definition Map_has (k : string) (m : list (string * V)) : bool :=
  existsb (fun kv => String.eqb kv.1 k) m.

Definition Map_setIfAbsent (k : string) (v : V) (m : list (string * V))
  : list (string * V) :=
  if Map_has k m then m else m ++ [(k, v)].

Definition Map_values (m : list (string * V)) : list V := m.*2.

Definition keepFirstBy (keyOf : V -> string) (xs : list V) : list V :=
  Map_values (fold_left (fun m x => Map_setIfAbsent (keyOf x) x m) xs []).
End KeepFirst.

(** The host's [String.prototype.toLowerCase] on a text that may hold any
    character: the case mapping of Unicode, which the embedding takes as
    it is given. *)
Class Host := { toLowerCase : string -> string }.

(** A host that folds the ASCII letters, for the runs on concrete texts
    without other letters. *)
Definition asciiHost : Host := {| toLowerCase := Str.toLowerCase |}.

Section Normaliser.

Context {host : Host}.

Definition mergeGroupItems (primary secondary : list MarketplaceGroupItem)
  : list MarketplaceGroupItem :=
  keepFirstBy (fun item => toLowerCase (item_name item)) (primary ++ secondary).

Definition collectGroupValues (record : UnknownRecord) (key : string)
    (repoContext : option RepoContext) : list MarketplaceGroupItem :=
  let manifest := asRecord (getProp "manifest" record) in
  let primary := toGroupItems (getProp key record) key repoContext in
  let secondary := toGroupItems (getPropOpt key manifest) key repoContext in
  mergeGroupItems primary secondary.

Definition groupDefinitions : list (string * string) :=
  [("skills", "Skills"); ("agents", "Agents"); ("commands", "Commands");
   ("tools", "Tools"); ("prompts", "Prompts"); ("workflows", "Workflows")].

Definition extractPluginGroups (record : UnknownRecord)
    (repoContext : option RepoContext) : list MarketplacePluginGroup :=
  fold_left
    (fun (groups : list MarketplacePluginGroup) '(key, name) =>
       let items := collectGroupValues record key repoContext in
       if (0 <? length items)%nat
       then groups ++ [{| group_name := name; group_key := key; group_items := items |}]
       else groups)
    groupDefinitions [].

Definition getPluginList (document : unknown) : list JSON :=
  match document with
  | Some (JArray entries) => entries
  | _ =>
      match asRecord document with
      | None => []
      | Some record =>
          let isArray (key : string) :=
            match getProp key record with
            | Some (JArray value) => Some value
            | _ => None
            end in
          default [] (isArray "plugins" ?? isArray "items" ?? isArray "extensions")
      end
  end.

(** The object [normalizePlugin] returns: a plugin or a warning. *)
Record Normalized := mkNormalized {
  plugin : option MarketplacePlugin;
  warning : option string
}.

Definition normalizePlugin (entry : JSON) (sourceUrl marketplaceDocumentUrl : string)
    (repoContext : option RepoContext) : Normalized :=
  match asRecord (Some entry) with
  | None =>
      {| plugin := None;
         warning := Some ("Skipped non-object plugin entry from " +:+ sourceUrl +:+ ".") |}
  | Some record =>
      match asString (getProp "id" record) ?? asString (getProp "slug" record)
              ?? asString (getProp "name" record) with
      | None =>
          {| plugin := None;
             warning := Some ("Skipped plugin entry without id/name in " +:+ sourceUrl +:+ ".") |}
      | Some id =>
          let name := default id (asString (getProp "name" record)) in
          let description := asString (getProp "description" record) in
          let version :=
            default "unknown"
              (asString (getProp "version" record)
               ?? asString (getProp "latestVersion" record)
               ?? asString (getPropOpt "version" (asRecord (getProp "manifest" record)))) in
          let downloadUrl :=
            asString (getProp "downloadUrl" record) ?? asString (getProp "url" record)
            ?? asString (getPropOpt "url" (asRecord (getProp "package" record))) in
          let groups := extractPluginGroups record repoContext in
          {| plugin := Some {| id := id;
                               name := name;
                               description := description;
                               version := Some version;
                               downloadUrl := downloadUrl;
                               groups := groups;
                               sourceUrl := sourceUrl;
                               marketplaceDocumentUrl := marketplaceDocumentUrl;
                               raw := record |};
             warning := None |}
      end
  end.

(** The [for ... of entries] loop: a warning, when there is one, goes to
    [warnings]; a plugin, when there is one, goes to [plugins]. *)
Fixpoint normalizeEntries (entries : list JSON) (sourceUrl marketplaceDocumentUrl : string)
    (repoContext : option RepoContext)
    (plugins : list MarketplacePlugin) (warnings : list string)
  : list MarketplacePlugin * list string :=
  match entries with
  | [] => (plugins, warnings)
  | entry :: rest =>
      let normalized := normalizePlugin entry sourceUrl marketplaceDocumentUrl repoContext in
      let warnings :=
        match warning normalized with
        | Some w => if Str.truthy w then warnings ++ [w] else warnings
        | None => warnings
        end in
      let plugins :=
        match plugin normalized with
        | Some p => plugins ++ [p]
        | None => plugins
        end in
      normalizeEntries rest sourceUrl marketplaceDocumentUrl repoContext plugins warnings
  end.

(** [marketplaceDocumentUrl] defaults to [sourceUrl] when it is not given. *)
Definition normalizeMarketplaceDocument (document : unknown) (sourceUrl : string)
    (marketplaceDocumentUrl : option string) (repoContext : option RepoContext)
  : MarketplaceFetchResult :=
  let marketplaceDocumentUrl := default sourceUrl marketplaceDocumentUrl in
  let entries := getPluginList document in
  let warnings :=
    if (length entries =? 0)%nat
    then ["No plugin entries found in " +:+ sourceUrl +:+ "."]
    else [] in
  let '(plugins, warnings) :=
    normalizeEntries entries sourceUrl marketplaceDocumentUrl repoContext [] warnings in
  {| plugins := plugins; warnings := warnings; errors := [] |}.

End Normaliser.

(** ** Aggregator ([fetchAllMarketplaces]) *)

(** An element of what [Promise.allSettled] resolves to. *)
Inductive SettledResult :=
| fulfilled (value : MarketplaceFetchResult)
| rejected (reason : string).

Section Aggregator.

(** The collation of the host's locale: [a.localeCompare(b)] compares the
    sort keys of [a] and [b] byte by byte. *)
Variable collationKey : string -> string.

Definition localeCompare (a b : string) : comparison :=
  String.compare (collationKey a) (collationKey b).

(** [left.name.localeCompare(right.name) <= 0] *)
Definition nameLe (left right : MarketplacePlugin) : bool :=
  match localeCompare (name left) (name right) with
  | Gt => false
  | _ => true
  end.

(** [Array.prototype.sort] is a stable sort: of two elements that compare
    equal the one that came first stays first. *)
Fixpoint insertSorted (p : MarketplacePlugin) (sorted : list MarketplacePlugin)
  : list MarketplacePlugin :=
  match sorted with
  | [] => [p]
  | q :: rest => if nameLe p q then p :: q :: rest else q :: insertSorted p rest
  end.

Definition sortByName (ps : list MarketplacePlugin) : list MarketplacePlugin :=
  foldr insertSorted [] ps.

(** The loop over the settled results. *)
Definition collect (results : list SettledResult) : MarketplaceFetchResult :=
  fold_left
    (fun aggregate result =>
       match result with
       | fulfilled value =>
           {| plugins := plugins aggregate ++ plugins value;
              warnings := warnings aggregate ++ warnings value;
              errors := errors aggregate ++ errors value |}
       | rejected reason =>
           {| plugins := plugins aggregate;
              warnings := warnings aggregate;
              errors := errors aggregate ++ ["Marketplace fetch failed: " +:+ reason] |}
       end)
    results {| plugins := []; warnings := []; errors := [] |}.

Definition dedupKey (p : MarketplacePlugin) : string :=
  id p +:+ "::" +:+ sourceUrl p.

(** [fetchAllMarketplaces] from the point where every fetch has settled. *)
Definition fetchAllMarketplaces (results : list SettledResult) : MarketplaceFetchResult :=
  let aggregate := collect results in
  let deduped := keepFirstBy dedupKey (plugins aggregate) in
  {| plugins := sortByName deduped;
     warnings := warnings aggregate;
     errors := errors aggregate |}.

End Aggregator.

(** ** Cache layer ([cache.ts]) *)

(** What a promise settles to. *)
Inductive Settled (E A : Type) :=
| Fulfilled (value : A)
| Rejected (error : E).
Arguments Fulfilled {E A}.
Arguments Rejected {E A}.

(** [p.then(f)], [p.catch(h)] for handlers that do not throw. *)
Definition then_ {E A B} (f : A -> B) (p : Settled E A) : Settled E B :=
  match p with
  | Fulfilled v => Fulfilled (f v)
  | Rejected e => Rejected e
  end.

Definition catch_ {E A} (h : E -> A) (p : Settled E A) : Settled E A :=
  match p with
  | Fulfilled v => Fulfilled v
  | Rejected e => Fulfilled (h e)
  end.

Section Cache.

(** The cached payload and the errors a fetcher rejects with. The payload
    is what the persistent store hands back for what it was given. *)
Variables Data Err : Type.

Record CacheEntry := mkEntry {
  data : Data;
  timestamp : Z;
  etag : option string
}.

Record CacheConfig := mkConfig {
  freshTTL : Z;
  staleTTL : Z
}.

(** [Partial<CacheConfig>] *)
Record PartialConfig := mkPartial {
  freshTTL_opt : option Z;
  staleTTL_opt : option Z
}.

Definition DEFAULT_CONFIG : CacheConfig :=
  {| freshTTL := 5 * 60 * 1000; staleTTL := 60 * 60 * 1000 |}.

(** The [Memento]: the value stored under ['marketplaceCache'], if any. *)
Definition Memento := option (gmap string CacheEntry).

(** The object: [pendingRefreshes] keeps the keys of the promises in it. *)
Record MarketplaceCache := mkCache {
  memoryCache : gmap string CacheEntry;
  pendingRefreshes : gset string;
  config : CacheConfig;
  globalState : Memento
}.

Definition age (now : Z) (entry : CacheEntry) : Z := now - timestamp entry.

(** The own properties of the object that [persistToStorage] fills with
    [data[key] = entry], starting from [{}]: every key of the map becomes
    an own property but [__proto__], whose assignment sets the prototype
    of [data] and stores nothing. *)
Definition ownProperties (m : gmap string CacheEntry) : gmap string CacheEntry :=
  delete "__proto__" m.

Definition persistToStorage (c : MarketplaceCache) : MarketplaceCache :=
  {| memoryCache := memoryCache c;
     pendingRefreshes := pendingRefreshes c;
     config := config c;
     globalState := Some (ownProperties (memoryCache c)) |}.

Definition withMemory (m : gmap string CacheEntry) (c : MarketplaceCache)
  : MarketplaceCache :=
  {| memoryCache := m;
     pendingRefreshes := pendingRefreshes c;
     config := config c;
     globalState := globalState c |}.

Definition withPending (p : gset string) (c : MarketplaceCache) : MarketplaceCache :=
  {| memoryCache := memoryCache c;
     pendingRefreshes := p;
     config := config c;
     globalState := globalState c |}.

(** [loadFromStorage]: every stored entry that is not older than
    [staleTTL] is [set] into the map. *)
Definition loadFromStorage (now : Z) (c : MarketplaceCache) : MarketplaceCache :=
  match globalState c with
  | Some stored =>
      withMemory
        (filter (fun kv => age now kv.2 <= staleTTL (config c)) stored ∪ memoryCache c) c
  | None => c
  end.

(** [new MarketplaceCache(globalState, config)] at time [now]. *)
Definition newCache (globalState : Memento) (config : PartialConfig) (now : Z)
  : MarketplaceCache :=
  loadFromStorage now
    {| memoryCache := ∅;
       pendingRefreshes := ∅;
       config := {| freshTTL := default (freshTTL DEFAULT_CONFIG) (freshTTL_opt config);
                    staleTTL := default (staleTTL DEFAULT_CONFIG) (staleTTL_opt config) |};
       globalState := globalState |}.

(** What [get] returns when it does not return [undefined]. *)
Record Cached := mkCached {
  cached_data : Data;
  isFresh : bool
}.

(** [get(key)] at time [now]. *)
Definition get (key : string) (now : Z) (c : MarketplaceCache)
  : option Cached * MarketplaceCache :=
  match memoryCache c !! key with
  | None => (None, c)
  | Some entry =>
      if bool_decide (age now entry > staleTTL (config c)) then
        (None, persistToStorage (withMemory (delete key (memoryCache c)) c))
      else
        (Some {| cached_data := data entry;
                 isFresh := bool_decide (age now entry <= freshTTL (config c)) |}, c)
  end.

(** [set(key, data, etag)] at time [now]. *)
Definition set (key : string) (d : Data) (tag : option string) (now : Z)
    (c : MarketplaceCache) : MarketplaceCache :=
  persistToStorage
    (withMemory (<[key := {| data := d; timestamp := now; etag := tag |}]> (memoryCache c)) c).

Definition clear (key : string) (c : MarketplaceCache) : MarketplaceCache :=
  persistToStorage (withMemory (delete key (memoryCache c)) c).

Definition clearAll (c : MarketplaceCache) : MarketplaceCache :=
  persistToStorage (withMemory ∅ c).

Definition isRefreshing (key : string) (c : MarketplaceCache) : bool :=
  bool_decide (key ∈ pendingRefreshes c).

(** [fetchAndCache] calls the fetcher and awaits it. This is the rest of
    it, run at time [now] when the fetcher's promise has settled. *)
Definition fetchAndCache_settled (key : string) (outcome : Settled Err Data)
    (now : Z) (c : MarketplaceCache) : Settled Err Data * MarketplaceCache :=
  match outcome with
  | Fulfilled d => (Fulfilled d, set key d None now c)
  | Rejected e => (Rejected e, c)
  end.

(** [refreshInBackground(key, fetcher)]. The flag tells whether the
    fetcher was called, that is, whether a refresh was started. *)
Definition refreshInBackground (key : string) (c : MarketplaceCache)
  : bool * MarketplaceCache :=
  if bool_decide (key ∈ pendingRefreshes c) then (false, c)
  else (true, withPending ({[key]} ∪ pendingRefreshes c) c).

(** What [refreshPromise] settles to once [fetchAndCache] has: [.then]
    and [.catch] only log. *)
Definition refreshPromise (fetched : Settled Err Data) : Settled Err unit :=
  catch_ (fun _ => tt) (then_ (fun _ => tt) fetched).

(** The [.finally] callback of the refresh started for [key]. *)
Definition refreshFinally (key : string) (c : MarketplaceCache) : MarketplaceCache :=
  withPending (pendingRefreshes c ∖ {[key]}) c.

(** The value [getWithRefresh] resolves to. *)
Record RefreshResult := mkRefreshResult {
  result_data : Data;
  fromCache : bool;
  refreshing : bool
}.

(** Where [getWithRefresh] stands when it first gives up control: it has
    returned, or it waits for the fetcher it has just called, keeping
    [cached] for the [catch] block. *)
Inductive Progress :=
| Returned (result : RefreshResult)
| AwaitingFetch (cached : option Cached).

(** The outcome of the call: how far it got, how many times it called the
    fetcher, and whether it started a background refresh. *)
Record Started := mkStarted {
  progress : Progress;
  fetcherCalls : nat;
  startedBackground : bool
}.

(** [getWithRefresh(key, fetcher, options)] at time [now], up to its
    [await]. [forceRefresh] is [options?.forceRefresh]. *)
Definition getWithRefresh (key : string) (forceRefresh : option bool) (now : Z)
    (c : MarketplaceCache) : Started * MarketplaceCache :=
  let '(cached, c) := get key now c in
  let forceRefresh := default false forceRefresh in
  match cached with
  | None =>
      ({| progress := AwaitingFetch cached; fetcherCalls := 1;
          startedBackground := false |}, c)
  | Some hit =>
      if forceRefresh then
        ({| progress := AwaitingFetch cached; fetcherCalls := 1;
            startedBackground := false |}, c)
      else if isFresh hit then
        ({| progress := Returned {| result_data := cached_data hit;
                                    fromCache := true;
                                    refreshing := false |};
            fetcherCalls := 0;
            startedBackground := false |}, c)
      else
        let '(started, c) := refreshInBackground key c in
        ({| progress := Returned {| result_data := cached_data hit;
                                    fromCache := true;
                                    refreshing := true |};
            fetcherCalls := if started then 1%nat else 0%nat;
            startedBackground := started |}, c)
  end.

(** The rest of [getWithRefresh] after [await this.fetchAndCache(...)],
    run at time [now] when the fetcher's promise has settled: the [try]
    block's [return], or the [catch] block. *)
Definition getWithRefresh_settled (key : string) (cached : option Cached)
    (outcome : Settled Err Data) (now : Z) (c : MarketplaceCache)
  : Settled Err RefreshResult * MarketplaceCache :=
  match fetchAndCache_settled key outcome now c with
  | (Fulfilled d, c) =>
      (Fulfilled {| result_data := d; fromCache := false; refreshing := false |}, c)
  | (Rejected error, c) =>
      match cached with
      | Some hit =>
          (Fulfilled {| result_data := cached_data hit;
                        fromCache := true;
                        refreshing := false |}, c)
      | None => (Rejected error, c)
      end
  end.

(** *** The cache and its background refreshes as a transition system *)

(** The cache object together with the background refreshes under way:
    those whose fetcher has not settled yet, and those whose fetcher has
    settled and whose [.finally] has not run yet, by key. *)
Record System := mkSystem {
  cache : MarketplaceCache;
  fetching : list string;
  finishing : list string
}.

Fixpoint removeOne (key : string) (keys : list string) : list string :=
  match keys with
  | [] => []
  | k :: rest => if String.eqb k key then rest else k :: removeOne key rest
  end.

Definition withCache (c : MarketplaceCache) (s : System) : System :=
  {| cache := c; fetching := fetching s; finishing := finishing s |}.

Definition launch (key : string) (started : bool) (s : System) : list string :=
  if started then key :: fetching s else fetching s.

(** One atomic piece of execution: a call of a public method, the
    continuation of a synchronous fetch, or a stage of a background
    refresh whose fetcher settles with an arbitrary outcome. *)
Inductive step : System -> System -> Prop :=
| step_get key now s :
    step s (withCache (get key now (cache s)).2 s)
| step_set key d tag now s :
    step s (withCache (set key d tag now (cache s)) s)
| step_clear key s :
    step s (withCache (clear key (cache s)) s)
| step_clearAll s :
    step s (withCache (clearAll (cache s)) s)
| step_getWithRefresh key force now s :
    step s {| cache := (getWithRefresh key force now (cache s)).2;
              fetching := launch key (startedBackground
                                        (getWithRefresh key force now (cache s)).1) s;
              finishing := finishing s |}
| step_getWithRefresh_settled key cached outcome now s :
    step s (withCache (getWithRefresh_settled key cached outcome now (cache s)).2 s)
| step_refreshInBackground key s :
    step s {| cache := (refreshInBackground key (cache s)).2;
              fetching := launch key (refreshInBackground key (cache s)).1 s;
              finishing := finishing s |}
| step_fetched key outcome now s :
    key ∈ fetching s ->
    step s {| cache := (fetchAndCache_settled key outcome now (cache s)).2;
              fetching := removeOne key (fetching s);
              finishing := key :: finishing s |}
| step_finally key s :
    key ∈ finishing s ->
    step s {| cache := refreshFinally key (cache s);
              fetching := fetching s;
              finishing := removeOne key (finishing s) |}.

Inductive reachable (init : System) : System -> Prop :=
| reachable_init : reachable init init
| reachable_step s s' : reachable init s -> step s s' -> reachable init s'.

(** The refreshes under way for [key]. *)
Definition inFlight (key : string) (s : System) : nat :=
  length (List.filter (String.eqb key) (fetching s ++ finishing s)).

(** A cache that has just been constructed. *)
Definition fresh (c : MarketplaceCache) : System :=
  {| cache := c; fetching := []; finishing := [] |}.

End Cache.

Arguments mkEntry {Data}.
Arguments data {Data}.
Arguments timestamp {Data}.
Arguments etag {Data}.
Arguments mkCache {Data}.
Arguments memoryCache {Data}.
Arguments pendingRefreshes {Data}.
Arguments config {Data}.
Arguments globalState {Data}.
Arguments age {Data}.
Arguments persistToStorage {Data}.
Arguments ownProperties {Data}.
Arguments withMemory {Data}.
Arguments withPending {Data}.
Arguments loadFromStorage {Data}.
Arguments newCache {Data}.
Arguments mkCached {Data}.
Arguments cached_data {Data}.
Arguments isFresh {Data}.
Arguments get {Data}.
Arguments set {Data}.
Arguments clear {Data}.
Arguments clearAll {Data}.
Arguments isRefreshing {Data}.
Arguments fetchAndCache_settled {Data Err}.
Arguments refreshInBackground {Data}.
Arguments refreshPromise {Data Err}.
Arguments refreshFinally {Data}.
Arguments mkRefreshResult {Data}.
Arguments result_data {Data}.
Arguments fromCache {Data}.
Arguments refreshing {Data}.
Arguments Returned {Data}.
Arguments AwaitingFetch {Data}.
Arguments mkStarted {Data}.
Arguments progress {Data}.
Arguments fetcherCalls {Data}.
Arguments startedBackground {Data}.
Arguments getWithRefresh {Data}.
Arguments getWithRefresh_settled {Data Err}.
Arguments mkSystem {Data}.
Arguments cache {Data}.
Arguments fetching {Data}.
Arguments finishing {Data}.
Arguments withCache {Data}.
Arguments launch {Data}.
Arguments step {Data}.
Arguments reachable {Data}.
Arguments inFlight {Data}.
Arguments fresh {Data}.

(** * Vocabulary of the properties *)

(** ** Probing *)

Section ProbingVocabulary.

Variable newURL : string -> option URL.
Variable World : Type.
Variable authenticatedFetch : string -> World -> FetchOutcome * World.

Definition failedExchange (e : string * FetchOutcome) : Prop :=
  outcome_ok e.2 = false.

(** That a candidate which failed before the one that answered is
    reported by a warning of the result. *)
Definition reportsEarlierFailures (inputUrl : string) (n : Net World) : Prop :=
  let r := resolveMarketplaceUrl newURL World authenticatedFetch inputUrl n in
  forall url o,
    (url, o) ∈ drop (length (exchanges n)) (exchanges r.2) ->
    outcome_ok o = false ->
    exists w, w ∈ res_warnings r.1 /\ Str.occursIn url w.

End ProbingVocabulary.

(** A network in which only the primary manifest location on [master]
    exists. *)
Definition onlyMasterAnswers (url : string) (w : unit) : FetchOutcome * unit :=
  if String.eqb url
       "https://raw.githubusercontent.com/acme/skills/master/.claude-plugin/marketplace.json"
  then (Responded 200 "OK", w)
  else (Responded 404 "Not Found", w).

(** ** Manifest normaliser *)

(** An entry that normalises to a plugin: an object with a non-empty [id],
    [slug] or [name]. *)
Definition isPluginEntry (entry : JSON) : bool :=
  match entry with
  | JObject record =>
      match asString (getProp "id" record) ?? asString (getProp "slug" record)
              ?? asString (getProp "name" record) with
      | Some _ => true
      | None => false
      end
  | _ => false
  end.

(** That the result has one warning for each entry that is not a plugin,
    and no other. *)
Definition warnsOncePerInvalidEntry {host : Host} (document : unknown)
    (sourceUrl : string) : Prop :=
  length (warnings (normalizeMarketplaceDocument document sourceUrl None None)) =
  length (List.filter (fun e => negb (isPluginEntry e)) (getPluginList document)).

(** ** Aggregator *)

Section KeepFirstVocabulary.
Context {V : Type} (keyOf : V -> string).

(** The values whose key is neither in [seen] nor carried by an earlier
    value of the list. *)
Fixpoint firstsFrom (seen : list string) (xs : list V) : list V :=
  match xs with
  | [] => []
  | x :: rest =>
      if bool_decide (keyOf x ∈ seen) then firstsFrom seen rest
      else x :: firstsFrom (seen ++ [keyOf x]) rest
  end.

End KeepFirstVocabulary.

Definition pluginsOf (result : SettledResult) : list MarketplacePlugin :=
  match result with
  | fulfilled value => plugins value
  | rejected _ => []
  end.

Definition warningsOf (result : SettledResult) : list string :=
  match result with
  | fulfilled value => warnings value
  | rejected _ => []
  end.

Definition errorsOf (result : SettledResult) : list string :=
  match result with
  | fulfilled value => errors value
  | rejected reason => ["Marketplace fetch failed: " +:+ reason]
  end.

(** The identity of a plugin in an aggregated result. *)
Definition identity (p : MarketplacePlugin) : string * string := (id p, sourceUrl p).

(** Two plugins from two marketplaces: the pairs of [id] and [sourceUrl]
    differ, the dedup keys are both [a::b::c]. *)
Definition pluginAB_C : MarketplacePlugin :=
  {| id := "a::b"; name := "first"; description := None; version := Some "unknown";
     downloadUrl := None; groups := []; sourceUrl := "c";
     marketplaceDocumentUrl := "c"; raw := [("id", JString "a::b"); ("name", JString "first")] |}.

Definition pluginA_BC : MarketplacePlugin :=
  {| id := "a"; name := "second"; description := None; version := Some "unknown";
     downloadUrl := None; groups := []; sourceUrl := "b::c";
     marketplaceDocumentUrl := "b::c"; raw := [("id", JString "a"); ("name", JString "second")] |}.

(** ** Cache layer *)

Section BackgroundVocabulary.

Variables Data Err : Type.
Implicit Types (c : MarketplaceCache Data) (s : System Data).

(** The marker of a key is there exactly when one refresh of the key is
    under way, and there is never more than one. *)
Definition markersMatch s : Prop :=
  forall key,
    inFlight key s = if isRefreshing key (cache s) then 1%nat else 0%nat.

(** A call either starts nothing and leaves the markers, or starts a
    refresh for a key that had no marker and sets it. *)
Definition startsAtMostOne (key : string) (started : bool) c c' : Prop :=
  (started = false /\ pendingRefreshes c' = pendingRefreshes c) \/
  (started = true /\ isRefreshing key c = false /\
   pendingRefreshes c' = {[key]} ∪ pendingRefreshes c).

(** The two stages by which the refresh of [key] completes when its
    fetcher settles with [outcome] at [now]. *)
Definition afterFetched (key : string) (outcome : Settled Err Data) (now : Z) s
  : System Data :=
  {| cache := (fetchAndCache_settled key outcome now (cache s)).2;
     fetching := removeOne key (fetching s);
     finishing := key :: finishing s |}.

Definition afterFinally (key : string) s : System Data :=
  {| cache := refreshFinally key (cache s);
     fetching := fetching s;
     finishing := removeOne key (finishing s) |}.

End BackgroundVocabulary.

Arguments markersMatch {Data}.
Arguments startsAtMostOne {Data}.
Arguments afterFetched {Data Err}.
Arguments afterFinally {Data}.

(** A cache of numbers with [freshTTL = 10] and [staleTTL = 100], built at
    time 0 over an empty store, in which [k] is set to 7 at time 1000. *)
Definition demoConfig : PartialConfig :=
  {| freshTTL_opt := Some 10; staleTTL_opt := Some 100 |}.

Definition demoEntry : CacheEntry nat :=
  {| data := 7%nat; timestamp := 1000; etag := None |}.

Definition demoEmpty : MarketplaceCache nat := newCache None demoConfig 0.

Definition demoCache : MarketplaceCache nat := set "k" 7%nat None 1000 demoEmpty.

(** The same cache after [refreshInBackground] for [k]. *)
Definition demoRefreshing : System nat :=
  {| cache := (refreshInBackground "k" demoEmpty).2;
     fetching := launch "k" (refreshInBackground "k" demoEmpty).1 (fresh demoEmpty);
     finishing := finishing (fresh demoEmpty) |}.

(** * More of the code *)

(** ** Cache keys ([cache.ts]) *)

(** The UTF-16 code units of a text, from its UTF-8 bytes: a character
    of one, two or three bytes is one unit, a character of four bytes is
    the two units of its surrogate pair. A byte that starts no sequence
    of that form stands for itself. *)
Definition isContinuation (x : N) : bool := ((128 <=? x) && (x <=? 191))%N.

Fixpoint codeUnits (cs : list ascii) : list N :=
  match cs with
  | [] => []
  | a :: r1 =>
      let x := N_of_ascii a in
      if (x <? 128)%N then x :: codeUnits r1
      else
        match r1 with
        | [] => [x]
        | b :: r2 =>
            let y := N_of_ascii b in
            if ((194 <=? x) && (x <=? 223))%N && isContinuation y
            then ((x - 192) * 64 + (y - 128))%N :: codeUnits r2
            else
              match r2 with
              | [] => x :: codeUnits r1
              | c :: r3 =>
                  let z := N_of_ascii c in
                  if ((224 <=? x) && (x <=? 239))%N && isContinuation y && isContinuation z
                  then ((x - 224) * 4096 + (y - 128) * 64 + (z - 128))%N :: codeUnits r3
                  else
                    match r3 with
                    | [] => x :: codeUnits r1
                    | d :: r4 =>
                        let w := N_of_ascii d in
                        if ((240 <=? x) && (x <=? 244))%N && isContinuation y
                           && isContinuation z && isContinuation w
                        then
                          let point := ((x - 240) * 262144 + (y - 128) * 4096
                                        + (z - 128) * 64 + (w - 128))%N in
                          (55296 + (point - 65536) / 1024)%N
                          :: (56320 + (point - 65536) mod 1024)%N
                          :: codeUnits r4
                        else x :: codeUnits r1
                    end
              end
        end
  end.

(** The order of two sequences of code units: at the first unit in which
    they differ, and the shorter first when one starts the other. *)
Fixpoint compareUnits (a b : list N) : comparison :=
  match a, b with
  | [], [] => Eq
  | [], _ :: _ => Lt
  | _ :: _, [] => Gt
  | x :: a', y :: b' =>
      match (x ?= y)%N with
      | Eq => compareUnits a' b'
      | c => c
      end
  end.

(** The order [x < y] of two strings: that of their code units. Two
    texts with the same code units are the same text when they are well
    formed; the bytes order the others. *)
Definition compareStrings (a b : string) : comparison :=
  match compareUnits (codeUnits (Str.chars a)) (codeUnits (Str.chars b)) with
  | Eq => String.compare a b
  | c => c
  end.

(** [array.sort()] without a comparator: the strings in ascending order of
    their code units. The array is sorted in place. *)
Fixpoint Array_insert (x : string) (sorted : list string) : list string :=
  match sorted with
  | [] => [x]
  | y :: rest =>
      match compareStrings x y with
      | Gt => y :: Array_insert x rest
      | _ => x :: y :: rest
      end
  end.

Definition Array_sort (xs : list string) : list string :=
  foldr Array_insert [] xs.

Module CacheKeys.

Definition marketplace (url : string) : string := "marketplace:" +:+ url.

(** The key, and the caller's array as the call leaves it. *)
Definition allMarketplaces (urls : list string) : string * list string :=
  let sorted := Array_sort urls in
  ("marketplaces:" +:+ Str.join "|" sorted, sorted).

Definition repoDirectory (owner repo branch path : string) : string :=
  "dir:" +:+ owner +:+ "/" +:+ repo +:+ "/" +:+ branch +:+ ":" +:+ path.

Definition pluginConfig (owner repo branch source : string) : string :=
  "config:" +:+ owner +:+ "/" +:+ repo +:+ "/" +:+ branch +:+ ":" +:+ source.

End CacheKeys.

(** ** Vocabulary for the further properties *)


(** Ascending order of code units. *)
Definition codeUnitLe (a b : string) : Prop := compareStrings a b <> Gt.

(** ** Repository context ([marketplace.ts]) *)

(** One [([^/]+)\/] of the pattern: a non-empty run of characters other
    than [/], and the [/] after it. *)
Definition takeSegment (cs : list ascii) : option (string * list ascii) :=
  let notSlash := fun c => negb (Ascii.eqb c "/") in
  match Str.takeWhile notSlash cs, Str.dropWhile notSlash cs with
  | (_ :: _) as seg, _ :: rest => Some (Str.ofChars seg, rest)
  | _, _ => None
  end.

(** [/^https:\/\/raw\.githubusercontent\.com\/([^/]+)\/([^/]+)\/([^/]+)\//i.exec(documentUrl)]
    and the context built from its groups. *)
Definition repoContextFromDocumentUrl (documentUrl : string) : option RepoContext :=
  let cs := Str.chars documentUrl in
  let prefix := Str.chars "https://raw.githubusercontent.com/" in
  if Str.startsWithChars prefix (List.map Str.lowerChar cs) then
    match takeSegment (drop (length prefix) cs) with
    | None => None
    | Some (owner, afterOwner) =>
        match takeSegment afterOwner with
        | None => None
        | Some (repo, afterRepo) =>
            match takeSegment afterRepo with
            | None => None
            | Some (branch, _) =>
                Some {| owner := owner;
                        repo := repo;
                        branch := branch;
                        rawBaseUrl := "https://raw.githubusercontent.com/" +:+ owner
                                      +:+ "/" +:+ repo +:+ "/" +:+ branch;
                        blobBaseUrl := "https://github.com/" +:+ owner +:+ "/" +:+ repo
                                       +:+ "/blob/" +:+ branch |}
            end
        end
    end
  else None.

(** A path segment: not empty, and without [/]. *)
Definition isSegment (s : string) : Prop :=
  s <> "" /\ Forall (fun c => c <> "/"%char) (Str.chars s).

(** The four manifest locations probed under a raw-content base. *)
Definition conventionCandidates (raw : string) : list string :=
  [ raw +:+ "/main/.claude-plugin/marketplace.json";
    raw +:+ "/master/.claude-plugin/marketplace.json";
    raw +:+ "/main/.github/plugin/marketplace.json";
    raw +:+ "/master/.github/plugin/marketplace.json" ].

(** What [new URL] reads as an http(s) URL of the repository host. *)
Definition isRepositoryHostUrl (u : URL) : Prop :=
  isHttpProtocol (protocol u) = true /\
  (Str.toLowerCase (hostname u) = "github.com" \/
   Str.toLowerCase (hostname u) = "www.github.com").

(** A string that is not empty and has no white space at either end. *)
Definition isTrimmed (s : string) : Prop := s <> "" /\ Str.trim s = s.

(** The key under which [mergeGroupItems] files an item. *)
Definition itemKey {host : Host} (item : MarketplaceGroupItem) : string :=
  toLowerCase (item_name item).

(** The URLs an item's descriptor is fetched from, in the order tried. *)
Definition descriptorUrls (item : MarketplaceGroupItem) : list string :=
  match metadataUrl item with
  | Some url => url :: metadataFallbackUrls item
  | None => metadataFallbackUrls item
  end.

(** What holds of every item the normaliser builds: it has a link to read
    exactly when it has a descriptor to fetch; it has fall-back URLs only
    beside a first URL, and at most two; and without a repository context
    its only possible descriptor is its own path, an absolute URL. *)
Definition itemShape (rc : option RepoContext) (item : MarketplaceGroupItem) : Prop :=
  (is_Some (docUrl item) <-> is_Some (metadataUrl item)) /\
  (metadataUrl item = None -> metadataFallbackUrls item = []) /\
  (length (metadataFallbackUrls item) <= 2)%nat /\
  (rc = None ->
   metadataFallbackUrls item = [] /\
   forall url, metadataUrl item = Some url ->
               item_path item = Some url /\ isHttpUrl url = true).

(** ** Names of install directories (the install half of the sources) *)

(** [[a-z0-9._-]] *)
Definition isSegmentChar (c : ascii) : bool :=
  Str.isLower c || Str.isDigit c || Ascii.eqb c "." || Ascii.eqb c "_" || Ascii.eqb c "-".

Definition isDash (c : ascii) : bool := Ascii.eqb c "-".

(** [.replace(/[^a-z0-9._-]+/g, '-')]: every maximal run of other
    characters becomes one dash. [inRun] tells that the dash of the current
    run is already out. *)
Fixpoint replaceRuns (inRun : bool) (cs : list ascii) : list ascii :=
  match cs with
  | [] => []
  | c :: rest =>
      if isSegmentChar c then c :: replaceRuns false rest
      else if inRun then replaceRuns true rest
      else "-"%char :: replaceRuns true rest
  end.

(** [.replace(/^-+|-+$/g, '')] *)
Definition stripDashes (cs : list ascii) : list ascii :=
  rev (Str.dropWhile isDash (rev (Str.dropWhile isDash cs))).

Definition sanitizePathSegment (value : string) : string :=
  let sanitized :=
    Str.ofChars (stripDashes (replaceRuns false (Str.chars (Str.toLowerCase value)))) in
  if (0 <? Str.len sanitized)%nat then sanitized else "unknown".

(** [s.includes(t)] *)
Fixpoint includesChars (t cs : list ascii) : bool :=
  Str.startsWithChars t cs ||
  match cs with
  | [] => false
  | _ :: rest => includesChars t rest
  end.

Definition includes (t s : string) : bool := includesChars (Str.chars t) (Str.chars s).

(** [s.replace(/\.json$/i, '')] *)
Definition stripDotJson (s : string) : string :=
  if Str.endsWith ".json" (Str.toLowerCase s) then Str.dropBack 5 s else s.

Section InstallNames.

Variable newURL : string -> option URL.

(** The loop over the reversed segments: the first that is not
    [marketplace.json] names the marketplace. *)
Fixpoint firstNamingSegment (segments : list string) : option string :=
  match segments with
  | [] => None
  | segment :: rest =>
      if negb (String.eqb (Str.toLowerCase segment) "marketplace.json")
      then Some (sanitizePathSegment (stripDotJson segment))
      else firstNamingSegment rest
  end.

Definition getMarketplaceName (sourceUrl : string) : string :=
  match newURL sourceUrl with
  | None => sanitizePathSegment sourceUrl
  | Some parsed =>
      let segments := List.filter Str.truthy (Str.split "/" (pathname parsed)) in
      let byPath :=
        default "marketplace" (firstNamingSegment (rev segments)) in
      if includes "github.com" (hostname parsed) then
        match segments with
        | _ :: second :: _ => sanitizePathSegment (stripDotGit second)
        | _ => byPath
        end
      else byPath
  end.

End InstallNames.

(** [plugin.name || plugin.id] *)
Definition getPluginName (plugin : MarketplacePlugin) : string :=
  sanitizePathSegment (if Str.truthy (name plugin) then name plugin else id plugin).

(** A directory name the installer can use: not empty, made of
    [[a-z0-9._-]] only, with no dash at either end. *)
Definition isSafeSegment (s : string) : Prop :=
  s <> "" /\
  Forall (fun c => isSegmentChar c = true) (Str.chars s) /\
  stripDashes (Str.chars s) = Str.chars s.

(** ** Descriptor summaries ([marketplace.ts]) *)

Definition LF : ascii := "010"%char.
Definition CR : ascii := "013"%char.

(** [markdown.split(/\r?\n/)]: cut at every line feed, a carriage return
    right before it belonging to the cut. [cur] is the current piece,
    last character first. *)
Fixpoint splitLinesChars (cur cs : list ascii) : list string :=
  match cs with
  | [] => [Str.ofChars (rev cur)]
  | c :: rest =>
      if Ascii.eqb c LF then
        Str.ofChars (rev match cur with
                         | x :: cur' => if Ascii.eqb x CR then cur' else cur
                         | [] => cur
                         end)
        :: splitLinesChars [] rest
      else splitLinesChars (c :: cur) rest
  end.

Definition splitLines (markdown : string) : list string :=
  splitLinesChars [] (Str.chars markdown).

(** A line terminator at the head of [cs]: LF, CR, or the three bytes of
    U+2028 or U+2029. *)
Definition lineTerminatorAt (cs : list ascii) : bool :=
  match cs with
  | a :: rest =>
      Ascii.eqb a LF || Ascii.eqb a CR ||
      match rest with
      | b :: c :: _ =>
          ((nat_of_ascii a =? 226) && (nat_of_ascii b =? 128)
           && ((nat_of_ascii c =? 168) || (nat_of_ascii c =? 169)))%nat
      | _ => false
      end
  | [] => false
  end.

(** [.+] can match all of [cs]: there is no line terminator in it. *)
Fixpoint allDots (cs : list ascii) : bool :=
  match cs with
  | [] => true
  | _ :: rest => negb (lineTerminatorAt cs) && allDots rest
  end.

(** [/^key\s*:\s*(.+)$/i.exec(line)[1]], for a lower-case [key]. *)
Definition matchField (key line : string) : option string :=
  let cs := Str.chars line in
  if Str.startsWithChars (Str.chars key) (List.map Str.lowerChar cs) then
    match Str.trimStartChars (drop (length (Str.chars key)) cs) with
    | colon :: afterColon =>
        if Ascii.eqb colon ":" then
          match Str.trimStartChars afterColon with
          | [] =>
              (* only white space is left: [\s*] gives its last character back *)
              let backwards := rev afterColon in
              let width := Str.spaceWidth Str.isSpace2Rev Str.isSpace3Rev backwards in
              let last := rev (take width backwards) in
              if (0 <? width)%nat && allDots last then Some (Str.ofChars last) else None
          | captured => if allDots captured then Some (Str.ofChars captured) else None
          end
        else None
    | [] => None
    end
  else None.

Definition isQuote (c : ascii) : bool := Ascii.eqb c "'" || Ascii.eqb c "034".

(** [s.replace(/^['"]|['"]$/g, '')] *)
Definition unquote (s : string) : string :=
  let cs := Str.chars s in
  let cs1 := match cs with
             | c :: rest => if isQuote c then rest else cs
             | [] => cs
             end in
  let cs2 := match rev cs1 with
             | c :: rest => if isQuote c then rev rest else cs1
             | [] => cs1
             end in
  Str.ofChars cs2.

(** The loop over the lines after the opening [---]: [Some] what it
    returns, [None] when it ends or breaks without returning. *)
Fixpoint frontMatterSummary (lines : list string) : option string :=
  match lines with
  | [] => None
  | raw :: rest =>
      let line := Str.trim raw in
      if String.eqb line "---" then None
      else
        match matchField "description" line with
        | Some value => Some (unquote (Str.trim value))
        | None =>
            match matchField "summary" line with
            | Some value => Some (unquote (Str.trim value))
            | None => frontMatterSummary rest
            end
        end
  end.

(** The loop over all the lines, with its [inCodeBlock] flag. *)
Fixpoint bodySummary (inCodeBlock : bool) (lines : list string) : option string :=
  match lines with
  | [] => None
  | rawLine :: rest =>
      let line := Str.trim rawLine in
      if Str.startsWith "```" line then bodySummary (negb inCodeBlock) rest
      else if inCodeBlock
              || (Str.len line =? 0)%nat
              || Str.startsWith "#" line
              || String.eqb line "---"
              || String.eqb line "***"
      then bodySummary inCodeBlock rest
      else Some line
  end.

(** The lines from the first that is not blank ([findIndex]). *)
Fixpoint fromFirstNonBlank (lines : list string) : list string :=
  match lines with
  | [] => []
  | line :: rest =>
      if (0 <? Str.len (Str.trim line))%nat then lines else fromFirstNonBlank rest
  end.

Definition frontMatterOf (lines : list string) : option string :=
  match fromFirstNonBlank lines with
  | first :: rest =>
      if String.eqb (Str.trim first) "---" then frontMatterSummary rest else None
  | [] => None
  end.

Definition extractDescriptorSummary (markdown : string) : option string :=
  let lines := splitLines markdown in
  match frontMatterOf lines with
  | Some summary => Some summary
  | None => bodySummary false lines
  end.

(** ** Fetching over the network ([marketplace.ts]) *)

(** [encodeURIComponent] on the bytes of a string: the unreserved
    characters stay, every other byte becomes [%XX]. *)
Definition isUnreserved (c : ascii) : bool :=
  Str.isAlnum c
  || existsb (Ascii.eqb c) ["-"; "_"; "."; "!"; "~"; "*"; "'"; "("; ")"]%char.

Definition hexDigit (n : nat) : ascii :=
  if (n <? 10)%nat then ascii_of_nat (48 + n) else ascii_of_nat (55 + n).

Definition percentEncode (c : ascii) : list ascii :=
  if isUnreserved c then [c]
  else ["%"%char; hexDigit (nat_of_ascii c / 16); hexDigit (nat_of_ascii c mod 16)].

Definition encodeURIComponent (s : string) : string :=
  Str.ofChars (concat (List.map percentEncode (Str.chars s))).

Definition encodePath (pathValue : string) : string :=
  Str.join "/" (List.map encodeURIComponent
                  (List.filter Str.truthy (Str.split "/" pathValue))).

(** [s.replace(/\/+$/, '')] *)
Definition stripTrailingSlashes (s : string) : string :=
  Str.ofChars (rev (Str.dropWhile (Ascii.eqb "/") (rev (Str.chars s)))).

(** [a ?? b] on values that may be [null] as well as [undefined]. *)
Definition nullish (v : unknown) : bool :=
  match v with
  | None | Some JNull => true
  | Some _ => false
  end.
Definition coalesce (a b : unknown) : unknown := if nullish a then b else a.

(** A call of [authenticatedFetch(url, options)]. *)
Record Request := mkRequest {
  req_url : string;
  req_method : option string;
  req_headers : list (string * string)
}.

(** What [response.text()] and [response.json()] settle to; they reject
    with an error message. *)
Record Body := mkBody {
  body_text : Settled string string;
  body_json : Settled string JSON
}.

Inductive HttpOutcome :=
| Reply (status : Z) (statusText : string) (body : Body)
| NoReply (message : string).

Definition outcomeOf (o : HttpOutcome) : FetchOutcome :=
  match o with
  | Reply status statusText _ => Responded status statusText
  | NoReply message => Threw message
  end.

(** [{ content?: string; url?: string }] *)
Record ItemContent := mkItemContent {
  content : option string;
  content_url : option string
}.

Definition itemUrls (item : MarketplaceGroupItem) : list string :=
  List.filter Str.truthy
    (match metadataUrl item with Some u => [u] | None => [] end
     ++ metadataFallbackUrls item).

(** [entry.type === kind && typeof entry.name === 'string'] *)
Definition isEntryOf (kind : string) (entry : UnknownRecord) : bool :=
  match getProp "type" entry, getProp "name" entry with
  | Some (JString t), Some (JString _) => String.eqb t kind
  | _, _ => false
  end.

(** The item of a directory entry whose [name] is a string. *)
Definition entryItem (cleanedPath groupKey : string) (repoContext : RepoContext)
    (entry : UnknownRecord) : MarketplaceGroupItem :=
  let name := match getProp "name" entry with
              | Some (JString s) => Some s
              | _ => None
              end in
  let item := buildItemFromPath (cleanedPath +:+ "/" +:+ default "" name) groupKey
                (Some repoContext) in
  {| item_name := default (item_name item) name;
     item_path := item_path item;
     metadataUrl := metadataUrl item;
     metadataFallbackUrls := metadataFallbackUrls item;
     docUrl := docUrl item;
     item_description := item_description item |}.

Definition entryHasMarkdownName (entry : UnknownRecord) : bool :=
  match getProp "name" entry with
  | Some (JString s) => isMarkdownPath s
  | _ => false
  end.

(** What [expandGroupDirectoryReference] makes of a listing. *)
Definition itemsOfListing (cleanedPath groupKey : string) (repoContext : RepoContext)
    (entries : option (list UnknownRecord)) : option (list MarketplaceGroupItem) :=
  match entries with
  | None | Some [] => None
  | Some entries =>
      match List.filter (isEntryOf "dir") entries with
      | (_ :: _) as directoryEntries =>
          Some (List.map (entryItem cleanedPath groupKey repoContext) directoryEntries)
      | [] =>
          match List.filter (fun e => isEntryOf "file" e && entryHasMarkdownName e) entries with
          | (_ :: _) as markdownFiles =>
              Some (List.map (entryItem cleanedPath groupKey repoContext) markdownFiles)
          | [] => None
          end
      end
  end.

(** [resolvePath] of [resolveGroupItemsFromConfig]. *)
Definition resolvePath (sourceBasePath pathValue : string) : string :=
  if isHttpUrl pathValue || negb (Str.truthy sourceBasePath) then pathValue
  else
    let normalizedPath := normalizeRelativePath pathValue in
    let normalizedBase := stripTrailingSlashes (normalizeRelativePath sourceBasePath) in
    if Str.truthy normalizedBase then normalizedBase +:+ "/" +:+ normalizedPath
    else normalizedPath.

Definition nonEmptyItems (expanded : option (list MarketplaceGroupItem)) : bool :=
  match expanded with
  | Some (_ :: _) => true
  | _ => false
  end.

Section Fetching.

Variable newURL : string -> option URL.
Variable World : Type.

(** [authenticatedFetch(url, options)]: the answer depends on the state
    of the world (the network and the session) and may change it. *)
Variable authenticatedFetch : Request -> World -> HttpOutcome * World.

Context {host : Host}.

(** A computation that makes requests. *)
Definition M (A : Type) : Type := Net World -> A * Net World.
Definition ret {A} (a : A) : M A := fun n => (a, n).
Definition bind {A B} (m : M A) (k : A -> M B) : M B :=
  fun n => let '(a, n') := m n in k a n'.

Notation "'let*' x ':=' m 'in' k" := (bind m (fun x => k))
  (at level 10, x pattern, k at level 200).

Definition send (r : Request) : M HttpOutcome :=
  fun n =>
    let '(o, w) := authenticatedFetch r (world n) in
    (o, {| world := w; exchanges := exchanges n ++ [(req_url r, outcomeOf o)] |}).

Definition plain (url : string) : Request :=
  {| req_url := url; req_method := None; req_headers := [] |}.

(** The request [resolveMarketplaceUrl] makes for a candidate. *)
Definition probe (url : string) (w : World) : FetchOutcome * World :=
  let '(o, w') :=
    authenticatedFetch {| req_url := url; req_method := Some "GET"; req_headers := [] |} w in
  (outcomeOf o, w').

(** The loop of [fetchGroupItemDescription] over the remaining urls. *)
Fixpoint descriptionFrom (urls : list string) : M (option string) :=
  match urls with
  | [] => ret None
  | url :: rest =>
      let* o := send (plain url) in
      match o with
      | Reply status _ body =>
          if response_ok status then
            match body_text body with
            | Fulfilled text =>
                match extractDescriptorSummary text with
                | Some summary =>
                    if Str.truthy summary then ret (Some summary)
                    else descriptionFrom rest
                | None => descriptionFrom rest
                end
            | Rejected _ => descriptionFrom rest
            end
          else descriptionFrom rest
      | NoReply _ => descriptionFrom rest
      end
  end.

Definition fetchGroupItemDescription (item : MarketplaceGroupItem) : M (option string) :=
  descriptionFrom (itemUrls item).

(** The loop of [fetchGroupItemContent] over the remaining urls. *)
Fixpoint contentFrom (urls : list string) : M ItemContent :=
  match urls with
  | [] => ret {| content := None; content_url := None |}
  | url :: rest =>
      let* o := send (plain url) in
      match o with
      | Reply status _ body =>
          if response_ok status then
            match body_text body with
            | Fulfilled text => ret {| content := Some text; content_url := Some url |}
            | Rejected _ => contentFrom rest
            end
          else contentFrom rest
      | NoReply _ => contentFrom rest
      end
  end.

Definition fetchGroupItemContent (item : MarketplaceGroupItem) : M ItemContent :=
  contentFrom (itemUrls item).

Definition listRepoDirectory (repoContext : RepoContext) (relativePath : string)
  : M (option (list UnknownRecord)) :=
  let encodedPath := encodePath relativePath in
  let url := "https://api.github.com/repos/" +:+ owner repoContext +:+ "/"
             +:+ repo repoContext +:+ "/contents/" +:+ encodedPath +:+ "?ref="
             +:+ encodeURIComponent (branch repoContext) in
  let* o := send {| req_url := url;
                    req_method := None;
                    req_headers := [("User-Agent", "vscode-agent-plugins");
                                    ("Accept", "application/vnd.github+json")] |} in
  ret match o with
      | Reply status _ body =>
          if response_ok status then
            match body_json body with
            | Fulfilled (JArray payload) =>
                Some (omap (fun entry => asRecord (Some entry)) payload)
            | _ => None
            end
          else None
      | NoReply _ => None
      end.

Definition expandGroupDirectoryReference (referencePath groupKey : string)
    (repoContext : RepoContext) : M (option (list MarketplaceGroupItem)) :=
  let cleanedPath := stripTrailingSlashes (normalizeRelativePath referencePath) in
  if negb (Str.truthy cleanedPath) then ret None
  else
    let* entries := listRepoDirectory repoContext cleanedPath in
    ret (itemsOfListing cleanedPath groupKey repoContext entries).

(** The loop of [fetchPluginSourceConfig] over the remaining candidates. *)
Fixpoint sourceConfigFrom (candidates : list string) : M (option UnknownRecord) :=
  match candidates with
  | [] => ret None
  | candidate :: rest =>
      let* o := send (plain candidate) in
      match o with
      | Reply status _ body =>
          if response_ok status then
            match body_json body with
            | Fulfilled payload =>
                match asRecord (Some payload) with
                | Some record => ret (Some record)
                | None => sourceConfigFrom rest
                end
            | Rejected _ => sourceConfigFrom rest
            end
          else sourceConfigFrom rest
      | NoReply _ => sourceConfigFrom rest
      end
  end.

Definition sourceConfigCandidates (sourcePath : string) (repoContext : RepoContext)
  : list string :=
  let cleanedSource := stripTrailingSlashes (normalizeRelativePath sourcePath) in
  let basePath := if (0 <? Str.len cleanedSource)%nat then cleanedSource else "" in
  let prefix := rawBaseUrl repoContext +:+ "/"
                +:+ (if Str.truthy basePath then basePath +:+ "/" else "") in
  [prefix +:+ ".claude-plugin/plugin.json";
   prefix +:+ ".github/plugin/plugin.json";
   prefix +:+ "plugin.json"].

Definition fetchPluginSourceConfig (sourcePath : string) (repoContext : RepoContext)
  : M (option UnknownRecord) :=
  sourceConfigFrom (sourceConfigCandidates sourcePath repoContext).

(** A path of the plugin's own configuration: the directory it names, or
    the path itself when that lists nothing. *)
Definition itemsOfPath (resolvedPath groupKey : string) (repoContext : RepoContext)
  : M (list MarketplaceGroupItem) :=
  let* expanded := expandGroupDirectoryReference resolvedPath groupKey repoContext in
  ret match expanded with
      | Some ((_ :: _) as items) => items
      | _ => [buildItemFromPath resolvedPath groupKey (Some repoContext)]
      end.

(** What an entry of an array that is not a string adds. *)
Definition itemsOfConfigEntry (entry : JSON) (groupKey : string)
    (repoContext : RepoContext) (sourceBasePath : string) : list MarketplaceGroupItem :=
  match asRecord (Some entry) with
  | Some record =>
      match asString (getProp "path" record) ?? asString (getProp "source" record)
              ?? asString (getProp "url" record) with
      | Some pathValue =>
          let resolvedPath := resolvePath sourceBasePath pathValue in
          let base := buildItemFromPath resolvedPath groupKey (Some repoContext) in
          [{| item_name := default (item_name base) (summaryFromRecord record);
              item_path := item_path base;
              metadataUrl := metadataUrl base;
              metadataFallbackUrls := metadataFallbackUrls base;
              docUrl := docUrl base;
              item_description :=
                asString (getProp "description" record) ?? item_description base |}]
      | None =>
          match summaryFromRecord record with
          | Some name =>
              [{| item_name := name;
                  item_path := None;
                  metadataUrl := None;
                  metadataFallbackUrls := [];
                  docUrl := None;
                  item_description := asString (getProp "description" record) |}]
          | None => []
          end
      end
  | None => []
  end.

(** The loop of [resolveGroupItemsFromConfig] over the entries of an
    array, [items] being what it has pushed so far. *)
Fixpoint itemsOfConfigEntries (entries : list JSON) (groupKey : string)
    (repoContext : RepoContext) (sourceBasePath : string)
    (items : list MarketplaceGroupItem) : M (list MarketplaceGroupItem) :=
  match entries with
  | [] => ret items
  | entry :: rest =>
      match entry with
      | JString s =>
          let* found := itemsOfPath (resolvePath sourceBasePath s) groupKey repoContext in
          itemsOfConfigEntries rest groupKey repoContext sourceBasePath (items ++ found)
      | _ =>
          itemsOfConfigEntries rest groupKey repoContext sourceBasePath
            (items ++ itemsOfConfigEntry entry groupKey repoContext sourceBasePath)
      end
  end.

Definition resolveGroupItemsFromConfig (value : unknown) (groupKey : string)
    (repoContext : RepoContext) (sourceBasePath : string)
  : M (list MarketplaceGroupItem) :=
  match value with
  | Some (JString s) => itemsOfPath (resolvePath sourceBasePath s) groupKey repoContext
  | Some (JArray entries) =>
      itemsOfConfigEntries entries groupKey repoContext sourceBasePath []
  | _ => ret (toGroupItems value groupKey (Some repoContext))
  end.

(** The loop of [hydratePluginGroupsFromSource] over the remaining group
    definitions, [hydratedGroups] being what it has pushed so far. *)
Fixpoint hydrateGroups (definitions : list (string * string))
    (sourceConfig manifest : option UnknownRecord) (sourceBasePath : string)
    (repoContext : RepoContext) (hydratedGroups : list MarketplacePluginGroup)
  : M (list MarketplacePluginGroup) :=
  match definitions with
  | [] => ret hydratedGroups
  | (key, name) :: rest =>
      let groupValue := coalesce (getPropOpt key sourceConfig) (getPropOpt key manifest) in
      match groupValue with
      | None =>
          let conventionPath :=
            if Str.truthy sourceBasePath then sourceBasePath +:+ "/" +:+ key else key in
          let* discovered := expandGroupDirectoryReference conventionPath key repoContext in
          hydrateGroups rest sourceConfig manifest sourceBasePath repoContext
            match discovered with
            | Some ((_ :: _) as items) =>
                hydratedGroups ++ [{| group_name := name; group_key := key;
                                      group_items := items |}]
            | _ => hydratedGroups
            end
      | Some _ =>
          let* items := resolveGroupItemsFromConfig groupValue key repoContext sourceBasePath in
          hydrateGroups rest sourceConfig manifest sourceBasePath repoContext
            (if (0 <? length items)%nat
             then hydratedGroups ++ [{| group_name := name; group_key := key;
                                        group_items := items |}]
             else hydratedGroups)
      end
  end.

Definition withGroups (plugin : MarketplacePlugin)
    (hydratedGroups : list MarketplacePluginGroup) : MarketplacePlugin :=
  {| id := id plugin;
     name := name plugin;
     description := description plugin;
     version := version plugin;
     downloadUrl := downloadUrl plugin;
     groups := hydratedGroups;
     sourceUrl := sourceUrl plugin;
     marketplaceDocumentUrl := marketplaceDocumentUrl plugin;
     raw := raw plugin |}.

Definition hydratePluginGroupsFromSource (plugin : MarketplacePlugin)
    (repoContext : option RepoContext) : M MarketplacePlugin :=
  match repoContext with
  | None => ret plugin
  | Some rc =>
      if (0 <? length (groups plugin))%nat then ret plugin
      else
        let source := default "./" (asString (getProp "source" (raw plugin))) in
        let* sourceConfig := fetchPluginSourceConfig source rc in
        let sourceBasePath := stripTrailingSlashes (normalizeRelativePath source) in
        let manifest :=
          match sourceConfig with
          | Some config => asRecord (getProp "manifest" config)
          | None => None
          end in
        let* hydratedGroups :=
          hydrateGroups groupDefinitions sourceConfig manifest sourceBasePath rc [] in
        ret (if (length hydratedGroups =? 0)%nat then plugin
             else withGroups plugin hydratedGroups)
  end.

(** The loop of [fetchMarketplace] over the normalised plugins. *)
Fixpoint hydrateAll (normalized : list MarketplacePlugin) (repoContext : RepoContext)
    (hydratedPlugins : list MarketplacePlugin) : M (list MarketplacePlugin) :=
  match normalized with
  | [] => ret hydratedPlugins
  | plugin :: rest =>
      let* hydrated := hydratePluginGroupsFromSource plugin (Some repoContext) in
      hydrateAll rest repoContext (hydratedPlugins ++ [hydrated])
  end.

Definition fetchFailure (documentUrl reason : string) (resolution : Resolution)
  : MarketplaceFetchResult :=
  {| plugins := [];
     warnings := res_warnings resolution;
     errors := ["Failed to fetch " +:+ documentUrl +:+ ": " +:+ reason] |}.

Definition fetchMarketplace (sourceUrl : string) : M MarketplaceFetchResult :=
  let* resolution := resolveMarketplaceUrl newURL World probe sourceUrl in
  match documentUrl resolution with
  | None =>
      ret {| plugins := [];
             warnings := res_warnings resolution;
             errors := res_errors resolution |}
  | Some documentUrl =>
      if negb (Str.truthy documentUrl) then
        ret {| plugins := [];
               warnings := res_warnings resolution;
               errors := res_errors resolution |}
      else
        let* o := send (plain documentUrl) in
        match o with
        | NoReply message => ret (fetchFailure documentUrl message resolution)
        | Reply status statusText body =>
            if negb (response_ok status) then
              ret (fetchFailure documentUrl (pretty status +:+ " " +:+ statusText) resolution)
            else
              match body_json body with
              | Rejected message => ret (fetchFailure documentUrl message resolution)
              | Fulfilled json =>
                  let repoContext := repoContextFromDocumentUrl documentUrl in
                  let normalized :=
                    normalizeMarketplaceDocument (Some json) sourceUrl (Some documentUrl)
                      repoContext in
                  let* hydrated :=
                    match repoContext with
                    | Some rc =>
                        if (0 <? length (plugins normalized))%nat
                        then hydrateAll (plugins normalized) rc []
                        else ret (plugins normalized)
                    | None => ret (plugins normalized)
                    end in
                  ret {| plugins := hydrated;
                         warnings := res_warnings resolution ++ warnings normalized;
                         errors := errors normalized |}
              end
        end
  end.

End Fetching.

Arguments ret {World A}.
Arguments bind {World A B}.

(** ** Vocabulary of the fetching properties *)

(** That a computation only adds to the log of requests. *)
Definition grows {World A} (m : M World A) : Prop :=
  forall n, exchanges n `prefix_of` exchanges (m n).2.

(** The network after the urls have been requested one after the other,
    each with no options. *)
Definition afterRequests {World} (authenticatedFetch : Request -> World -> HttpOutcome * World)
    (urls : list string) (n : Net World) : Net World :=
  fold_left (fun n url => (send World authenticatedFetch (plain url) n).2) urls n.

(** ** Configured marketplaces ([config.ts]) *)

(** [Array.from(new Set(xs))] *)
Definition Set_from (xs : list string) : list string :=
  fold_left (fun s x => Set_add x s) xs [].

(** [normalizeUrls]; [None] is [undefined]. *)
Definition normalizeUrls (urls : option (list string)) : list string :=
  match urls with
  | None => []
  | Some urls => Set_from (List.filter Str.truthy (List.map Str.trim urls))
  end.

(** What [inspect] reports of the marketplaces setting. *)
Record Inspection := mkInspection {
  globalValue : option (list string);
  workspaceValue : option (list string)
}.

Inductive ConfigurationTarget :=
| TargetGlobal
| TargetWorkspace
| TargetWorkspaceFolder.

Definition getMarketplaceUrlsForTarget (inspection : option Inspection)
    (target : ConfigurationTarget) : list string :=
  match inspection with
  | None => []
  | Some inspection =>
      match target with
      | TargetGlobal => normalizeUrls (globalValue inspection)
      | TargetWorkspace => normalizeUrls (workspaceValue inspection)
      | TargetWorkspaceFolder => []
      end
  end.

Definition getMarketplaceUrls (inspection : option Inspection) : list string :=
  let globalUrls := getMarketplaceUrlsForTarget inspection TargetGlobal in
  let workspaceUrls := getMarketplaceUrlsForTarget inspection TargetWorkspace in
  Set_from (globalUrls ++ workspaceUrls).

(** The strings the setting holds, user scope first. *)
Definition configuredValues (inspection : option Inspection) : list string :=
  match inspection with
  | None => []
  | Some inspection =>
      default [] (globalValue inspection) ++ default [] (workspaceValue inspection)
  end.

(** ** The plugin key map ([webview.ts]) *)

Definition pluginKey (plugin : MarketplacePlugin) : string :=
  id plugin +:+ "::" +:+ sourceUrl plugin.

(** [new Map(plugins.map((plugin) => [pluginKey(plugin), plugin]))]; the
    map is only read by key. *)
Definition createPluginKeyMap (plugins : list MarketplacePlugin)
  : gmap string MarketplacePlugin :=
  fold_left (fun m plugin => <[pluginKey plugin := plugin]> m) plugins ∅.

(** ** HTML escaping ([utils.ts]) *)

(** [s.replace(/c/g, replacement)] for a pattern of one character. *)
Definition replaceAll (c : ascii) (replacement s : string) : string :=
  Str.ofChars
    (concat (List.map (fun x => if Ascii.eqb x c then Str.chars replacement else [x])
               (Str.chars s))).

Definition escapeHtml (text : string) : string :=
  replaceAll "'" "&#39;"
    (replaceAll "034" "&quot;"
       (replaceAll ">" "&gt;"
          (replaceAll "<" "&lt;"
             (replaceAll "&" "&amp;" text)))).

(** The entity that stands for a character of markup, a character that
    is none standing for itself. *)
Definition escapeChar (c : ascii) : string :=
  if Ascii.eqb c "&" then "&amp;"
  else if Ascii.eqb c "<" then "&lt;"
  else if Ascii.eqb c ">" then "&gt;"
  else if Ascii.eqb c "034" then "&quot;"
  else if Ascii.eqb c "'" then "&#39;"
  else String c "".

Definition isMarkupChar (c : ascii) : bool :=
  existsb (Ascii.eqb c) ["<"; ">"; "034"; "'"]%char.

(** * Properties *)

(** ** Strings *)

Lemma append_nil_r (s : string) : s +:+ "" = s.
Proof.
  induction s as [|a s IH]; [reflexivity|].
  change (String a (s +:+ "") = String a s). rewrite IH. reflexivity.
Qed.

Lemma append_assoc (a b c : string) : (a +:+ b) +:+ c = a +:+ (b +:+ c).
Proof.
  induction a as [|x a IH]; [reflexivity|].
  change (String x ((a +:+ b) +:+ c) = String x (a +:+ (b +:+ c))).
  rewrite IH. reflexivity.
Qed.

Lemma occursIn_suffix (pre s : string) : Str.occursIn s (pre +:+ s).
Proof. exists pre, "". rewrite append_nil_r. reflexivity. Qed.

Lemma occursIn_infix (pre s post : string) : Str.occursIn s (pre +:+ s +:+ post).
Proof. exists pre, post. reflexivity. Qed.

(** ** URL candidate resolver *)

(** [C1] For the input [https://github.com/acme/skills] -- a repository
    host, an owner and a repository, no blob reference -- the resolver
    yields exactly four candidates: the primary manifest location on
    [main], then on [master], then the secondary location on [main], then on
    [master]. *)
Theorem candidateMarketplaceUrls_repository_root :
  candidateMarketplaceUrls Url.parse "https://github.com/acme/skills" =
  [ "https://raw.githubusercontent.com/acme/skills/main/.claude-plugin/marketplace.json";
    "https://raw.githubusercontent.com/acme/skills/master/.claude-plugin/marketplace.json";
    "https://raw.githubusercontent.com/acme/skills/main/.github/plugin/marketplace.json";
    "https://raw.githubusercontent.com/acme/skills/master/.github/plugin/marketplace.json" ].
Proof. vm_compute. reflexivity. Qed.

(** The same holds for whatever parser [new URL] is, as long as it reads the
    input as the platform does. *)
Lemma repository_root_candidates_any_parser newURL :
  newURL "https://github.com/acme/skills" =
    Some {| protocol := "https:"; hostname := "github.com"; port := "";
            pathname := "/acme/skills"; origin := "https://github.com" |} ->
  length (candidateMarketplaceUrls newURL "https://github.com/acme/skills") = 4%nat.
Proof. intros H. unfold candidateMarketplaceUrls. rewrite H. vm_compute. reflexivity. Qed.

(** ** Probing *)

Section ProbingFacts.

Variable newURL : string -> option URL.
Variable World : Type.
Variable authenticatedFetch : string -> World -> FetchOutcome * World.

Local Abbreviation probe := (probeCandidates World authenticatedFetch).
Local Abbreviation resolve := (resolveMarketplaceUrl newURL World authenticatedFetch).


(** What one turn of the loop does, by the outcome of its request. *)
Lemma probeCandidates_cons inputUrl candidate rest warnings n :
  probe inputUrl (candidate :: rest) warnings n =
  let '(o, n') := request World authenticatedFetch candidate n in
  if outcome_ok o then
    ({| documentUrl := Some candidate; res_warnings := []; res_errors := [] |}, n')
  else probe inputUrl rest (warnings ++ [candidateWarning candidate o]) n'.
Proof.
  simpl. destruct (request _ _ candidate n) as [o n'].
  destruct o as [status text | message]; simpl; [|reflexivity].
  destruct (response_ok status); reflexivity.
Qed.

Lemma request_exchanges url n :
  exchanges (request World authenticatedFetch url n).2 =
  exchanges n ++ [(url, (request World authenticatedFetch url n).1)].
Proof.
  unfold request. destruct (authenticatedFetch url (world n)); reflexivity.
Qed.

(** The loop, for any list of candidates and any warnings gathered so
    far. The requests it adds are [tried]. *)
Lemma probeCandidates_spec inputUrl candidates : forall warnings n,
  exists tried,
    exchanges (probe inputUrl candidates warnings n).2 = exchanges n ++ tried /\
    match documentUrl (probe inputUrl candidates warnings n).1 with
    | Some found =>
        exists failed o rest,
          candidates = failed.*1 ++ found :: rest /\
          tried = failed ++ [(found, o)] /\
          outcome_ok o = true /\
          Forall failedExchange failed /\
          res_warnings (probe inputUrl candidates warnings n).1 = [] /\
          res_errors (probe inputUrl candidates warnings n).1 = []
    | None =>
        tried.*1 = candidates /\
        Forall failedExchange tried /\
        res_warnings (probe inputUrl candidates warnings n).1 =
          warnings ++ List.map (fun e => candidateWarning e.1 e.2) tried /\
        res_errors (probe inputUrl candidates warnings n).1 = [unresolvedError inputUrl]
    end.
Proof.
  induction candidates as [|candidate rest IH]; intros warnings n.
  - exists []. simpl. rewrite !app_nil_r. auto.
  - rewrite probeCandidates_cons.
    pose proof (request_exchanges candidate n) as Hx.
    destruct (request World authenticatedFetch candidate n) as [o n'] eqn:Hreq.
    simpl in Hx.
    destruct (outcome_ok o) eqn:Hok.
    + exists [(candidate, o)]. simpl. split; [exact Hx|].
      exists [], o, rest. simpl. repeat split; auto.
    + destruct (IH (warnings ++ [candidateWarning candidate o]) n')
        as (tried & Hlog & Hres).
      exists ((candidate, o) :: tried). split.
      { rewrite Hlog, Hx, <- app_assoc. reflexivity. }
      destruct (documentUrl (probe inputUrl rest _ n').1) as [found|].
      * destruct Hres as (failed & o' & rest' & Hc & Ht & Ho & Hf & Hw & He).
        exists ((candidate, o) :: failed), o', rest'. simpl.
        split; [rewrite Hc; reflexivity|]. split; [rewrite Ht; reflexivity|].
        repeat split; auto.
      * destruct Hres as (Hc & Hf & Hw & He). simpl.
        split; [simpl; f_equal; exact Hc|]. split; [constructor; auto|].
        split; [rewrite Hw, <- app_assoc; reflexivity|]. exact He.
Qed.

Lemma candidateWarning_mentions candidate o :
  Str.occursIn candidate (candidateWarning candidate o).
Proof.
  destruct o as [status text | message]; simpl.
  - exists ("Marketplace candidate failed (" +:+ pretty status +:+ "): "), "".
    rewrite append_nil_r, !append_assoc. reflexivity.
  - apply occursIn_infix.
Qed.

Lemma unresolvedError_mentions inputUrl :
  Str.occursIn inputUrl (unresolvedError inputUrl).
Proof. apply occursIn_infix. Qed.

Lemma warnings_mention_candidates (tried : list (string * FetchOutcome)) :
  Forall2 Str.occursIn tried.*1 (List.map (fun e => candidateWarning e.1 e.2) tried).
Proof.
  induction tried as [|[url o] tried IH]; simpl; constructor; auto.
  apply candidateWarning_mentions.
Qed.


(** [C2, as the code has it] For every input, every network and every
    state of it, [resolveMarketplaceUrl] returns a result (no exception
    leaves it, whatever the requests do). The requests it makes are the
    candidates in their order, up to and including the first one answered
    with a 2xx status, and that candidate is the document URL; the result
    then has no warning and no error, the failures before it are not
    reported. When no candidate is answered with a 2xx status every
    candidate has been requested once, in order, the result has no
    document URL, one warning for each candidate, mentioning it, and
    exactly one error, which mentions the input URL. *)
Theorem resolveMarketplaceUrl_outcome (inputUrl : string) (n : Net World) :
  exists (r : Resolution) (n' : Net World) (tried : list (string * FetchOutcome)),
    resolve inputUrl n = (r, n') /\
    exchanges n' = exchanges n ++ tried /\
    match documentUrl r with
    | Some found =>
        exists failed o rest,
          candidateMarketplaceUrls newURL inputUrl = failed.*1 ++ found :: rest /\
          tried = failed ++ [(found, o)] /\
          outcome_ok o = true /\
          Forall failedExchange failed /\
          res_warnings r = [] /\
          res_errors r = []
    | None =>
        tried.*1 = candidateMarketplaceUrls newURL inputUrl /\
        Forall failedExchange tried /\
        length (res_warnings r) = length (candidateMarketplaceUrls newURL inputUrl) /\
        Forall2 Str.occursIn (candidateMarketplaceUrls newURL inputUrl) (res_warnings r) /\
        exists e, res_errors r = [e] /\ Str.occursIn inputUrl e
    end.
Proof.
  unfold resolveMarketplaceUrl.
  destruct (probeCandidates_spec inputUrl (candidateMarketplaceUrls newURL inputUrl) [] n)
    as (tried & Hlog & Hres).
  destruct (probe inputUrl (candidateMarketplaceUrls newURL inputUrl) [] n) as [r n'].
  simpl in *. exists r, n', tried. split; [reflexivity|]. split; [exact Hlog|].
  destruct (documentUrl r) as [found|]; [exact Hres|].
  destruct Hres as (Hc & Hf & Hw & He). simpl in Hw.
  split; [exact Hc|]. split; [exact Hf|]. rewrite Hw, <- Hc. split.
  - rewrite length_map, length_fmap. reflexivity.
  - split; [apply warnings_mention_candidates|].
    exists (unresolvedError inputUrl). split; [exact He|].
    apply unresolvedError_mentions.
Qed.

End ProbingFacts.


Example resolve_second_candidate :
  resolveMarketplaceUrl Url.parse unit onlyMasterAnswers "https://github.com/acme/skills"
    {| world := tt; exchanges := [] |} =
  ({| documentUrl :=
        Some "https://raw.githubusercontent.com/acme/skills/master/.claude-plugin/marketplace.json";
      res_warnings := [];
      res_errors := [] |},
   {| world := tt;
      exchanges :=
        [("https://raw.githubusercontent.com/acme/skills/main/.claude-plugin/marketplace.json",
          Responded 404 "Not Found");
         ("https://raw.githubusercontent.com/acme/skills/master/.claude-plugin/marketplace.json",
          Responded 200 "OK")] |}).
Proof. vm_compute. reflexivity. Qed.

(** [C2, as stated] does not hold: in that network the candidate on [main]
    fails first, the one on [master] answers, and the result carries no
    warning at all. *)
Lemma resolveMarketplaceUrl_drops_earlier_failures :
  ~ reportsEarlierFailures Url.parse unit onlyMasterAnswers
      "https://github.com/acme/skills" {| world := tt; exchanges := [] |}.
Proof.
  unfold reportsEarlierFailures. rewrite resolve_second_candidate. simpl.
  intros H.
  destruct (H "https://raw.githubusercontent.com/acme/skills/main/.claude-plugin/marketplace.json"
              (Responded 404 "Not Found")) as (w & Hin & _).
  - left.
  - reflexivity.
  - inversion Hin.
Qed.

(** ** Manifest normaliser *)


Section NormaliserFacts.

Context {host : Host}.
Variables (srcUrl manifestUrl : string).
Variable repoContext : option RepoContext.

Local Abbreviation norm :=
  (fun entry => normalizePlugin entry srcUrl manifestUrl repoContext).

(** [normalizePlugin] yields a plugin for a plugin entry and nothing
    else; the plugin keeps the entry as [raw]. *)
Lemma normalizePlugin_valid entry :
  isPluginEntry entry = true ->
  exists p, plugin (norm entry) = Some p /\ warning (norm entry) = None /\
            JObject (raw p) = entry /\ sourceUrl p = srcUrl.
Proof.
  destruct entry as [| | | |items|record]; simpl; try discriminate.
  unfold normalizePlugin. simpl.
  destruct (asString (getProp "id" record) ?? asString (getProp "slug" record)
              ?? asString (getProp "name" record)) as [i|]; [|discriminate].
  intros _. eexists. repeat split; reflexivity.
Qed.

(** For any other entry it yields a warning that is not empty and
    mentions the source URL. *)
Lemma normalizePlugin_invalid entry :
  isPluginEntry entry = false ->
  exists w, plugin (norm entry) = None /\ warning (norm entry) = Some w /\
            Str.truthy w = true /\ Str.occursIn srcUrl w.
Proof.
  assert (Hwarn : forall pre, exists w,
             Some (pre +:+ srcUrl +:+ ".") = Some w /\
             Str.truthy w = true /\ Str.occursIn srcUrl w).
  { intros pre. eexists. split; [reflexivity|]. split; [|apply occursIn_infix].
    unfold Str.truthy. destruct pre; [destruct srcUrl|]; reflexivity. }
  destruct entry as [| | | |items|record]; simpl;
    try (intros _; edestruct Hwarn as (w & Hw & Ht & Hm);
         exists w; split; [reflexivity|]; split; [exact Hw|]; split; assumption).
  unfold normalizePlugin. simpl.
  destruct (asString (getProp "id" record) ?? asString (getProp "slug" record)
              ?? asString (getProp "name" record)) as [i|]; [discriminate|].
  intros _. edestruct Hwarn as (w & Hw & Ht & Hm).
  exists w. split; [reflexivity|]. split; [exact Hw|]. split; assumption.
Qed.

(** The loop appends to [plugins] the plugin entries, in their order, and
    to [warnings] one warning for each other entry. *)
Lemma normalizeEntries_spec entries : forall ps ws,
  exists ps' ws',
    normalizeEntries entries srcUrl manifestUrl repoContext ps ws
      = (ps ++ ps', ws ++ ws') /\
    ps' = omap (fun e => plugin (norm e)) entries /\
    List.map (fun p => JObject (raw p)) ps' = List.filter isPluginEntry entries /\
    Forall (fun p => sourceUrl p = srcUrl) ps' /\
    length ws' = length (List.filter (fun e => negb (isPluginEntry e)) entries) /\
    Forall (Str.occursIn srcUrl) ws'.
Proof.
  induction entries as [|entry rest IH]; intros ps ws.
  - exists [], []. rewrite !app_nil_r. repeat split; constructor.
  - simpl normalizeEntries. destruct (isPluginEntry entry) eqn:Hv.
    + destruct (normalizePlugin_valid entry Hv) as (p & Hp & Hw & Hraw & Hsrc).
      rewrite Hp, Hw.
      destruct (IH (ps ++ [p]) ws) as (ps' & ws' & Hrun & Hps & Hraws & Hsrcs & Hlen & Hmen).
      exists (p :: ps'), ws'.
      split; [rewrite Hrun, <- app_assoc; reflexivity|].
      split; [cbn [omap list_omap]; rewrite Hp, Hps; reflexivity|].
      split; [cbn [List.map List.filter]; rewrite Hv, Hraw, Hraws; reflexivity|].
      split; [constructor; assumption|].
      split; [cbn [List.filter]; rewrite Hv; exact Hlen | exact Hmen].
    + destruct (normalizePlugin_invalid entry Hv) as (w & Hp & Hw & Ht & Hm).
      rewrite Hp, Hw, Ht.
      destruct (IH ps (ws ++ [w])) as (ps' & ws' & Hrun & Hps & Hraws & Hsrcs & Hlen & Hmen).
      exists ps', (w :: ws').
      split; [rewrite Hrun, <- app_assoc; reflexivity|].
      split; [cbn [omap list_omap]; rewrite Hp, Hps; reflexivity|].
      split; [cbn [List.filter]; rewrite Hv; exact Hraws|].
      split; [assumption|].
      split; [cbn [List.filter]; rewrite Hv; simpl; rewrite Hlen; reflexivity|].
      constructor; assumption.
Qed.

End NormaliserFacts.

(** [C3, as the code has it] For every decoded document, every source URL
    and every repository context, [normalizeMarketplaceDocument] returns a
    result (it has no failing path) in which: the plugins are the entries of
    the extracted list that [normalizePlugin] turns into a plugin, which are
    the objects with a non-empty [id], [slug] or [name], in their order and
    as many;
    the errors are empty; every warning mentions the source URL; when the
    extracted list is not empty there is one warning for each entry that is
    not a plugin entry; and when it is empty -- the document has no list, or
    an empty one -- there is no plugin and the single warning that no plugin
    entries were found. *)
Theorem normalizeMarketplaceDocument_counts {host : Host} (document : unknown)
    (srcUrl : string) (manifestUrl : option string) (rc : option RepoContext) :
  let entries := getPluginList document in
  let r := normalizeMarketplaceDocument document srcUrl manifestUrl rc in
  plugins r =
    omap (fun e => plugin (normalizePlugin e srcUrl (default srcUrl manifestUrl) rc))
         entries /\
  List.map (fun p => JObject (raw p)) (plugins r) = List.filter isPluginEntry entries /\
  length (plugins r) = length (List.filter isPluginEntry entries) /\
  Forall (fun p => sourceUrl p = srcUrl) (plugins r) /\
  Forall (Str.occursIn srcUrl) (warnings r) /\
  errors r = [] /\
  match entries with
  | [] =>
      plugins r = [] /\
      warnings r = ["No plugin entries found in " +:+ srcUrl +:+ "."]
  | _ :: _ =>
      length (warnings r) =
      length (List.filter (fun e => negb (isPluginEntry e)) entries)
  end.
Proof.
  intros entries r. subst r. unfold normalizeMarketplaceDocument. fold entries.
  set (ws0 := if (length entries =? 0)%nat then _ else _).
  destruct (normalizeEntries_spec srcUrl (default srcUrl manifestUrl) rc entries [] ws0)
    as (ps' & ws' & Hrun & Hps & Hraws & Hsrcs & Hlen & Hmen).
  rewrite Hrun. simpl.
  split; [exact Hps|].
  split; [exact Hraws|].
  split; [rewrite <- Hraws, length_map; reflexivity|].
  split; [exact Hsrcs|].
  split.
  { apply Forall_app. split; [|exact Hmen].
    subst ws0. destruct (length entries =? 0)%nat; repeat constructor.
    apply occursIn_infix. }
  split; [reflexivity|].
  subst ws0. destruct entries as [|e rest].
  - simpl in Hps, Hlen. destruct ws'; [|discriminate]. subst ps'. split; reflexivity.
  - simpl (length (e :: rest) =? 0)%nat. simpl app. exact Hlen.
Qed.

(** [C3, as stated] does not hold for a manifest whose plugin list is there
    and empty: it has no invalid entry and still gets one warning. *)
Lemma normalizeMarketplaceDocument_empty_list_warns :
  ~ warnsOncePerInvalidEntry (host := asciiHost)
      (Some (JObject [("plugins", JArray [])]))
      "https://marketplace.example/marketplace.json".
Proof. unfold warnsOncePerInvalidEntry. vm_compute. discriminate. Qed.

(** The manifest of the repository's own test: one plugin, no warning. *)
Example normalizeMarketplaceDocument_test_suite :
  let r := normalizeMarketplaceDocument (host := asciiHost)
             (Some (JObject [("plugins", JArray [JObject [
                ("id", JString "alpha");
                ("name", JString "Alpha Plugin");
                ("version", JString "1.2.3");
                ("description", JString "Test plugin");
                ("downloadUrl", JString "https://example.com/alpha.tgz");
                ("skills", JArray [JObject [("name", JString "summarize")]]);
                ("agents", JArray [JString "triage-agent"])]])]))
             "https://marketplace.example/marketplace.json" None None in
  length (errors r) = 0%nat /\ length (warnings r) = 0%nat /\
  List.map id (plugins r) = ["alpha"] /\ List.map name (plugins r) = ["Alpha Plugin"] /\
  List.map (fun p => List.map group_name (groups p)) (plugins r) = [["Skills"; "Agents"]] /\
  List.map (fun p => List.map (fun g => List.map item_name (group_items g)) (groups p))
           (plugins r) = [[["summarize"]; ["triage-agent"]]].
Proof. vm_compute. repeat split. Qed.

(** ** Aggregator *)

(** *** First occurrence per key *)

Section KeepFirstFacts.
Context {V : Type} (keyOf : V -> string).


Lemma Map_has_keys (k : string) (m : list (string * V)) :
  Map_has k m = bool_decide (k ∈ m.*1).
Proof.
  induction m as [|[k' v] m IH]; [reflexivity|].
  change (Map_has k ((k', v) :: m)) with (String.eqb k' k || Map_has k m).
  rewrite IH, fmap_cons. cbn [fst].
  destruct (String.eqb_spec k' k) as [->|Hne]; cbn [orb].
  - symmetry. apply bool_decide_eq_true_2. left.
  - apply bool_decide_ext. rewrite elem_of_cons. intuition congruence.
Qed.

Lemma fold_setIfAbsent (xs : list V) : forall m : list (string * V),
  fold_left (fun m x => Map_setIfAbsent (keyOf x) x m) xs m =
  m ++ List.map (fun x => (keyOf x, x)) (firstsFrom keyOf m.*1 xs).
Proof.
  induction xs as [|x rest IH]; intros m; simpl.
  - rewrite app_nil_r. reflexivity.
  - unfold Map_setIfAbsent at 2. rewrite Map_has_keys.
    destruct (bool_decide (keyOf x ∈ m.*1)); rewrite IH; [reflexivity|].
    rewrite fmap_app, <- app_assoc. reflexivity.
Qed.

Lemma keepFirstBy_firstsFrom (xs : list V) :
  keepFirstBy keyOf xs = firstsFrom keyOf [] xs.
Proof.
  unfold keepFirstBy, Map_values. rewrite fold_setIfAbsent. simpl.
  induction (firstsFrom keyOf [] xs) as [|y ys IH]; [reflexivity|].
  cbn. f_equal. exact IH.
Qed.

(** Every survivor stands in the list with no value of its key, and no
    key of [seen], before it. *)
Lemma firstsFrom_first (xs : list V) : forall seen,
  Forall (fun x => ~ (keyOf x ∈ seen) /\
                   exists before after,
                     xs = before ++ x :: after /\
                     Forall (fun y => keyOf y <> keyOf x) before)
         (firstsFrom keyOf seen xs).
Proof.
  induction xs as [|x rest IH]; intros seen; simpl; [constructor|].
  case_bool_decide as Hseen.
  - eapply Forall_impl; [apply IH|]. simpl.
    intros y (Hy & before & after & -> & Hb). split; [exact Hy|].
    exists (x :: before), after. split; [reflexivity|].
    constructor; [|exact Hb]. intros Heq. rewrite Heq in Hseen. contradiction.
  - constructor.
    + split; [exact Hseen|]. exists [], rest. split; [reflexivity|constructor].
    + eapply Forall_impl; [apply IH|]. simpl.
      intros y (Hy & before & after & -> & Hb).
      rewrite elem_of_app, list_elem_of_singleton in Hy.
      split; [tauto|].
      exists (x :: before), after. split; [reflexivity|].
      constructor; [|exact Hb]. intros Heq. apply Hy. right. congruence.
Qed.

Lemma firstsFrom_NoDup (xs : list V) : forall seen,
  NoDup (List.map keyOf (firstsFrom keyOf seen xs)).
Proof.
  induction xs as [|x rest IH]; intros seen; simpl; [constructor|].
  case_bool_decide as Hseen; [apply IH|].
  simpl. constructor; [|apply IH].
  intros Hin. apply list_elem_of_In, in_map_iff in Hin.
  destruct Hin as (y & Hk & Hy).
  pose proof (firstsFrom_first rest (seen ++ [keyOf x])) as Hf.
  rewrite Forall_forall in Hf. destruct (Hf y) as [Hnot _].
  { apply list_elem_of_In. exact Hy. }
  apply Hnot. rewrite elem_of_app, list_elem_of_singleton. right. exact Hk.
Qed.

(** Every key of the list that is not in [seen] has a survivor. *)
Lemma firstsFrom_covers (xs : list V) : forall seen,
  Forall (fun x => keyOf x ∈ seen \/
                   exists y, y ∈ firstsFrom keyOf seen xs /\ keyOf y = keyOf x) xs.
Proof.
  induction xs as [|x rest IH]; intros seen; simpl; [constructor|].
  case_bool_decide as Hseen.
  - constructor; [left; exact Hseen | apply IH].
  - constructor; [right; exists x; split; [left|reflexivity]|].
    eapply Forall_impl; [apply (IH (seen ++ [keyOf x]))|]. simpl.
    intros y [Hy | (z & Hz & Hk)].
    + rewrite elem_of_app, list_elem_of_singleton in Hy. destruct Hy as [Hy | Hy].
      * left. exact Hy.
      * right. exists x. split; [left | congruence].
    + right. exists z. split; [right; exact Hz | exact Hk].
Qed.

Lemma firstsFrom_sublist (xs : list V) : forall seen,
  sublist (firstsFrom keyOf seen xs) xs.
Proof.
  induction xs as [|x rest IH]; intros seen; simpl; [constructor|].
  case_bool_decide; [apply sublist_cons | apply sublist_skip]; apply IH.
Qed.

End KeepFirstFacts.

(** *** Sorting by name *)

Lemma compare_le_trans (a b c : string) :
  String.compare a b <> Gt -> String.compare b c <> Gt -> String.compare a c <> Gt.
Proof.
  intros Hab Hbc.
  destruct (String.compare a b) eqn:Eab; [| |congruence].
  - apply String.compare_eq_iff in Eab. subst b. exact Hbc.
  - destruct (String.compare b c) eqn:Ebc; [| |congruence].
    + apply String.compare_eq_iff in Ebc. subst c. rewrite Eab. discriminate.
    + apply OrderedTypeEx.String_as_OT.cmp_lt in Eab, Ebc.
      pose proof (OrderedTypeEx.String_as_OT.lt_trans _ _ _ Eab Ebc) as Hac.
      apply OrderedTypeEx.String_as_OT.cmp_lt in Hac.
      unfold OrderedTypeEx.String_as_OT.cmp in Hac. rewrite Hac. discriminate.
Qed.

Section AggregatorFacts.

Variable collationKey : string -> string.

Local Abbreviation le := (fun a b => nameLe collationKey a b = true).

Lemma nameLe_spec (a b : MarketplacePlugin) :
  nameLe collationKey a b = true <-> localeCompare collationKey (name a) (name b) <> Gt.
Proof.
  unfold nameLe. destruct (localeCompare collationKey (name a) (name b));
    split; intros; congruence.
Qed.

Lemma nameLe_total (a b : MarketplacePlugin) :
  nameLe collationKey a b = false -> nameLe collationKey b a = true.
Proof.
  unfold nameLe, localeCompare. rewrite (String.compare_antisym (collationKey (name b))).
  destruct (String.compare (collationKey (name a)) (collationKey (name b)));
    simpl; congruence.
Qed.

Lemma nameLe_trans (a b c : MarketplacePlugin) :
  nameLe collationKey a b = true -> nameLe collationKey b c = true ->
  nameLe collationKey a c = true.
Proof.
  rewrite !nameLe_spec. unfold localeCompare. apply compare_le_trans.
Qed.

Lemma insertSorted_Permutation p sorted :
  Permutation (insertSorted collationKey p sorted) (p :: sorted).
Proof.
  induction sorted as [|q rest IH]; simpl; [reflexivity|].
  destruct (nameLe collationKey p q); [reflexivity|].
  rewrite IH. apply perm_swap.
Qed.

Lemma insertSorted_StronglySorted p sorted :
  StronglySorted le sorted -> StronglySorted le (insertSorted collationKey p sorted).
Proof.
  induction sorted as [|q rest IH]; intros Hs; simpl.
  - repeat constructor.
  - apply StronglySorted_inv in Hs. destruct Hs as [Hrest Hq].
    destruct (nameLe collationKey p q) eqn:Hpq.
    + constructor; [constructor; assumption|].
      constructor; [exact Hpq|].
      eapply Forall_impl; [exact Hq|]. simpl. intros r Hqr.
      eapply nameLe_trans; eassumption.
    + constructor; [apply IH; exact Hrest|].
      rewrite (insertSorted_Permutation p rest).
      constructor; [apply nameLe_total; exact Hpq | exact Hq].
Qed.

Lemma sortByName_Permutation ps : Permutation (sortByName collationKey ps) ps.
Proof.
  induction ps as [|p ps IH]; simpl; [reflexivity|].
  rewrite insertSorted_Permutation, IH. reflexivity.
Qed.

Lemma sortByName_StronglySorted ps : StronglySorted le (sortByName collationKey ps).
Proof.
  induction ps as [|p ps IH]; simpl; [constructor|].
  apply insertSorted_StronglySorted. exact IH.
Qed.

(** The sort is stable: plugins whose names compare equal to that of [p]
    or after it, and that stood behind [p], stay behind it. *)
Lemma insertSorted_head p sorted :
  Forall (fun q => nameLe collationKey p q = true) sorted ->
  insertSorted collationKey p sorted = p :: sorted.
Proof.
  destruct sorted as [|q rest]; [reflexivity|].
  intros H. apply Forall_inv in H. simpl. rewrite H. reflexivity.
Qed.

(** *** The loop over the settled results *)


Lemma collect_concat (results : list SettledResult) :
  collect results =
  {| plugins := concat (List.map pluginsOf results);
     warnings := concat (List.map warningsOf results);
     errors := concat (List.map errorsOf results) |}.
Proof.
  unfold collect.
  assert (H : forall acc,
    fold_left
      (fun aggregate result =>
         match result with
         | fulfilled value =>
             {| plugins := plugins aggregate ++ plugins value;
                warnings := warnings aggregate ++ warnings value;
                errors := errors aggregate ++ errors value |}
         | rejected reason =>
             {| plugins := plugins aggregate;
                warnings := warnings aggregate;
                errors := errors aggregate ++ ["Marketplace fetch failed: " +:+ reason] |}
         end) results acc =
    {| plugins := plugins acc ++ concat (List.map pluginsOf results);
       warnings := warnings acc ++ concat (List.map warningsOf results);
       errors := errors acc ++ concat (List.map errorsOf results) |}).
  { induction results as [|[value|reason] rest IH]; intros [ps ws es]; simpl.
    - rewrite !app_nil_r. reflexivity.
    - rewrite IH. simpl. rewrite <- !app_assoc. reflexivity.
    - rewrite IH. simpl. rewrite <- !app_assoc. reflexivity. }
  apply H.
Qed.


Lemma identity_dedupKey p q : identity p = identity q -> dedupKey p = dedupKey q.
Proof. unfold identity, dedupKey. intros [= -> ->]. reflexivity. Qed.

End AggregatorFacts.

Lemma NoDup_map_finer {A B C : Type} (f : A -> B) (g : A -> C) (l : list A) :
  (forall x y, g x = g y -> f x = f y) ->
  NoDup (List.map f l) -> NoDup (List.map g l).
Proof.
  intros Hfg. induction l as [|x l IH]; simpl; intros Hnd; [constructor|].
  apply NoDup_cons in Hnd. destruct Hnd as [Hx Hl].
  constructor; [|apply IH; exact Hl].
  intros Hin. apply Hx.
  apply list_elem_of_In, in_map_iff in Hin. destruct Hin as (y & Hy & Hyl).
  apply list_elem_of_In, in_map_iff. exists y. split; [|exact Hyl].
  apply Hfg. exact Hy.
Qed.

Lemma StronglySorted_mono {A : Type} (R R' : A -> A -> Prop) (l : list A) :
  (forall a b, R a b -> R' a b) -> StronglySorted R l -> StronglySorted R' l.
Proof.
  intros HR. induction 1 as [|a l Hl IH Ha]; constructor; [exact IH|].
  eapply Forall_impl; [exact Ha|]. simpl. auto.
Qed.

(** [C4] For every list of settled per-marketplace results and every
    collation, [fetchAllMarketplaces] returns a result (merging has no
    failing path, and adds no error or warning to those of the results)
    whose plugins are, up to order, the first occurrences of each
    composite key -- the [id], then [::], then the [sourceUrl] -- in the
    concatenation of the plugin lists. So the result holds at most one
    plugin for each composite key, and for each pair of [id] and
    [sourceUrl]; each plugin of the result is the first of its composite
    key, and so the first of its pair, in the concatenation; every
    composite key of the concatenation is represented, and so is every pair whose composite key no other pair
    of the concatenation shares; and the whole is sorted in ascending
    order of [name] under [localeCompare]. *)
Theorem fetchAllMarketplaces_merge (collationKey : string -> string)
    (results : list SettledResult) :
  let all := concat (List.map pluginsOf results) in
  let r := fetchAllMarketplaces collationKey results in
  let compositeKey := fun p : MarketplacePlugin => id p +:+ "::" +:+ sourceUrl p in
  Permutation (plugins r) (firstsFrom compositeKey [] all) /\
  sublist (firstsFrom compositeKey [] all) all /\
  NoDup (List.map compositeKey (plugins r)) /\
  NoDup (List.map identity (plugins r)) /\
  Forall (fun p => exists before after,
                     all = before ++ p :: after /\
                     Forall (fun q => compositeKey q <> compositeKey p) before)
         (plugins r) /\
  Forall (fun p => exists before after,
                     all = before ++ p :: after /\
                     Forall (fun q => identity q <> identity p) before)
         (plugins r) /\
  Forall (fun q => exists p, p ∈ plugins r /\ compositeKey p = compositeKey q) all /\
  Forall (fun q => (forall q', q' ∈ all -> compositeKey q' = compositeKey q ->
                               identity q' = identity q) ->
                   exists p, p ∈ plugins r /\ identity p = identity q) all /\
  StronglySorted (fun a b => localeCompare collationKey (name a) (name b) <> Gt)
                 (plugins r) /\
  warnings r = concat (List.map warningsOf results) /\
  errors r = concat (List.map errorsOf results).
Proof.
  intros all r compositeKey. subst r. unfold fetchAllMarketplaces.
  rewrite collect_concat. cbn [plugins warnings errors]. fold all.
  change dedupKey with compositeKey.
  pose proof (sortByName_Permutation collationKey (keepFirstBy compositeKey all)) as Hperm.
  rewrite keepFirstBy_firstsFrom in *.
  assert (Hsub : sublist (firstsFrom compositeKey [] all) all)
    by apply firstsFrom_sublist.
  assert (Hcover : Forall (fun q => exists p,
                      p ∈ sortByName collationKey (firstsFrom compositeKey [] all) /\
                      compositeKey p = compositeKey q) all).
  { eapply Forall_impl; [apply (firstsFrom_covers compositeKey all [])|]. simpl.
    intros q [Hq | (p & Hp & Hk)]; [inversion Hq|].
    exists p. split; [|exact Hk]. rewrite Hperm. exact Hp. }
  split; [exact Hperm|]. split; [exact Hsub|].
  split; [rewrite Hperm; apply firstsFrom_NoDup|].
  split.
  { apply (NoDup_map_finer compositeKey identity); [apply identity_dedupKey|].
    rewrite Hperm. apply firstsFrom_NoDup. }
  split.
  { rewrite Hperm. eapply Forall_impl; [apply firstsFrom_first|]. simpl.
    intros p (_ & before & after & Hall & Hb). exists before, after.
    split; [exact Hall | exact Hb]. }
  split.
  { rewrite Hperm. eapply Forall_impl; [apply firstsFrom_first|]. simpl.
    intros p (_ & before & after & Hall & Hb). exists before, after.
    split; [exact Hall|]. eapply Forall_impl; [exact Hb|]. simpl.
    intros q Hq Hid. apply Hq. apply (identity_dedupKey q p Hid). }
  split; [exact Hcover|].
  split.
  { rewrite Forall_forall in Hcover. apply Forall_forall. intros q Hq Hsame.
    destruct (Hcover q Hq) as (p & Hp & Hk). exists p. split; [exact Hp|].
    apply Hsame; [|exact Hk].
    rewrite Hperm in Hp. eapply elem_of_sublist; [exact Hp | exact Hsub]. }
  split; [|split; reflexivity].
  eapply StronglySorted_mono; [|apply sortByName_StronglySorted].
  intros a b. apply nameLe_spec.
Qed.


(** [C10] The dedup key is the concatenation of [id], [::] and
    [sourceUrl], so two plugins that differ in both can have the same key:
    [a::b] from [c] and [a] from [b::c] do, and whatever the collation
    [fetchAllMarketplaces] keeps the first and drops the second without an
    error or a warning. *)
Theorem dedupKey_collision_drops_plugin (collationKey : string -> string) :
  identity pluginAB_C <> identity pluginA_BC /\
  dedupKey pluginAB_C = dedupKey pluginA_BC /\
  dedupKey pluginAB_C = "a::b::c" /\
  fetchAllMarketplaces collationKey
    [fulfilled {| plugins := [pluginAB_C]; warnings := []; errors := [] |};
     fulfilled {| plugins := [pluginA_BC]; warnings := []; errors := [] |}] =
  {| plugins := [pluginAB_C]; warnings := []; errors := [] |}.
Proof.
  split; [discriminate|]. split; [reflexivity|]. split; [reflexivity|].
  reflexivity.
Qed.

(** ** Cache layer *)

Section CacheFacts.

Variables Data Err : Type.
Implicit Types (c : MarketplaceCache Data) (e : CacheEntry Data) (s : System Data).

(** *** [get] *)

Lemma get_absent c key now :
  memoryCache c !! key = None -> get key now c = (None, c).
Proof. intros H. unfold get. rewrite H. reflexivity. Qed.

Lemma get_live c key e now :
  memoryCache c !! key = Some e ->
  age now e <= staleTTL (config c) ->
  get key now c =
  (Some {| cached_data := data e;
           isFresh := bool_decide (age now e <= freshTTL (config c)) |}, c).
Proof.
  intros H Hage. unfold get. rewrite H.
  rewrite bool_decide_eq_false_2; [reflexivity | lia].
Qed.

Lemma get_expired c key e now :
  memoryCache c !! key = Some e ->
  staleTTL (config c) < age now e ->
  get key now c = (None, persistToStorage (withMemory (delete key (memoryCache c)) c)).
Proof.
  intros H Hage. unfold get. rewrite H.
  rewrite bool_decide_eq_true_2; [reflexivity | lia].
Qed.

(** [C5] [get] of a key without an entry returns [undefined], at any
    time and in any cache. For every entry of the cache, stamped [T],
    under a configuration with [freshTTL = F < S = staleTTL]: [get] at
    [T + F - 1], and at any time up to [T + F], returns the entry's data
    with [isFresh] true; [get] at any time strictly between [T + F] and
    [T + S], and at [T + S] itself, returns it with [isFresh] false;
    [get] at [T + S + 1], and at any later time, returns [undefined],
    removes the entry from the map and persists the map without it. All
    but the last leave the cache as it is. *)
Theorem get_by_age c :
  (forall other now, memoryCache c !! other = None -> get other now c = (None, c)) /\
  (forall key e,
     memoryCache c !! key = Some e ->
     freshTTL (config c) < staleTTL (config c) ->
     get key (timestamp e + freshTTL (config c) - 1) c =
       (Some {| cached_data := data e; isFresh := true |}, c) /\
     (forall t, t <= timestamp e + freshTTL (config c) ->
                get key t c = (Some {| cached_data := data e; isFresh := true |}, c)) /\
     (forall t, timestamp e + freshTTL (config c) < t < timestamp e + staleTTL (config c) ->
                get key t c = (Some {| cached_data := data e; isFresh := false |}, c)) /\
     (forall t, timestamp e + freshTTL (config c) < t <= timestamp e + staleTTL (config c) ->
                get key t c = (Some {| cached_data := data e; isFresh := false |}, c)) /\
     (get key (timestamp e + staleTTL (config c) + 1) c).1 = None /\
     memoryCache (get key (timestamp e + staleTTL (config c) + 1) c).2
       = delete key (memoryCache c) /\
     memoryCache (get key (timestamp e + staleTTL (config c) + 1) c).2 !! key = None /\
     globalState (get key (timestamp e + staleTTL (config c) + 1) c).2
       = Some (ownProperties (delete key (memoryCache c))) /\
     (forall t, timestamp e + staleTTL (config c) < t ->
                (get key t c).1 = None /\
                memoryCache (get key t c).2 = delete key (memoryCache c))).
Proof.
  split; [intros other now Hother; apply get_absent, Hother|].
  intros key e Hkey HFS.
  assert (Hfresh : forall t, t <= timestamp e + freshTTL (config c) ->
            get key t c = (Some {| cached_data := data e; isFresh := true |}, c)).
  { intros t Ht. rewrite (get_live c key e _ Hkey); [|unfold age; lia].
    rewrite bool_decide_eq_true_2; [reflexivity | unfold age; lia]. }
  assert (Hstale : forall t,
            timestamp e + freshTTL (config c) < t <= timestamp e + staleTTL (config c) ->
            get key t c = (Some {| cached_data := data e; isFresh := false |}, c)).
  { intros t Ht. rewrite (get_live c key e _ Hkey); [|unfold age; lia].
    rewrite bool_decide_eq_false_2; [reflexivity | unfold age; lia]. }
  assert (Hgone : forall t, timestamp e + staleTTL (config c) < t ->
            get key t c =
            (None, persistToStorage (withMemory (delete key (memoryCache c)) c))).
  { intros t Ht. apply (get_expired c key e _ Hkey). unfold age. lia. }
  split; [apply Hfresh; lia|]. split; [exact Hfresh|].
  split; [intros t Ht; apply Hstale; lia|]. split; [exact Hstale|].
  rewrite (Hgone (timestamp e + staleTTL (config c) + 1)) by lia.
  simpl. rewrite lookup_delete_eq.
  repeat split; rewrite (Hgone t) by assumption; reflexivity.
Qed.

(** [set] stores the entry [get_by_age] is about. *)
Lemma set_lookup c key d tag now :
  memoryCache (set key d tag now c) !! key =
  Some {| data := d; timestamp := now; etag := tag |}.
Proof. simpl. apply lookup_insert_eq. Qed.

(** *** Persisting and reloading *)

Lemma loadFromStorage_lookup c now key :
  memoryCache c = ∅ ->
  memoryCache (loadFromStorage now c) !! key =
  match globalState c with
  | Some stored =>
      match stored !! key with
      | Some e => if bool_decide (age now e <= staleTTL (config c)) then Some e else None
      | None => None
      end
  | None => None
  end.
Proof.
  intros Hempty. unfold loadFromStorage.
  destruct (globalState c) as [stored|]; simpl; [|rewrite Hempty; apply lookup_empty].
  rewrite Hempty, (right_id_L ∅ (∪)), map_lookup_filter.
  destruct (stored !! key) as [e|]; simpl; [|reflexivity].
  case_bool_decide as Hage.
  - rewrite option_guard_True; [reflexivity | exact Hage].
  - rewrite option_guard_False; [reflexivity | exact Hage].
Qed.

(** Persisting and reloading, for every cache and every time [now]:
    constructing a cache over the persisted state with the same
    configuration gives a map that holds exactly the entries that are
    own properties of the persisted object and not older than [staleTTL]
    at [now]. [get] at [now] answers every key but [__proto__] from the
    reloaded cache as from the original one; the reloaded cache has no
    entry for [__proto__]. *)
Lemma persist_reload c (now : Z) :
  let reloaded :=
    newCache (globalState (persistToStorage c))
             {| freshTTL_opt := Some (freshTTL (config c));
                staleTTL_opt := Some (staleTTL (config c)) |} now in
  config reloaded = config c /\
  memoryCache reloaded =
    filter (fun kv => age now kv.2 <= staleTTL (config c))
           (ownProperties (memoryCache c)) /\
  (forall key, key <> "__proto__" ->
     memoryCache reloaded !! key =
     match memoryCache c !! key with
     | Some e => if bool_decide (age now e <= staleTTL (config c)) then Some e else None
     | None => None
     end) /\
  (forall key, key <> "__proto__" -> (get key now reloaded).1 = (get key now c).1) /\
  get "__proto__" now reloaded = (None, reloaded).
Proof.
  intros reloaded.
  assert (Hcfg : config reloaded = config c) by (destruct c as [m p [F S] g]; reflexivity).
  assert (Hmem : memoryCache reloaded =
                 filter (fun kv => age now kv.2 <= staleTTL (config c))
                        (ownProperties (memoryCache c))).
  { subst reloaded. unfold newCache, loadFromStorage. simpl.
    apply (right_id_L ∅ (∪)). }
  assert (Hlook : forall key, key <> "__proto__" ->
     memoryCache reloaded !! key =
     match memoryCache c !! key with
     | Some e => if bool_decide (age now e <= staleTTL (config c)) then Some e else None
     | None => None
     end).
  { intros key Hkey. rewrite Hmem, map_lookup_filter. unfold ownProperties.
    rewrite lookup_delete_ne by congruence.
    destruct (memoryCache c !! key) as [e|]; simpl; [|reflexivity].
    case_bool_decide as Hage.
    - rewrite option_guard_True; [reflexivity | exact Hage].
    - rewrite option_guard_False; [reflexivity | exact Hage]. }
  split; [exact Hcfg|]. split; [exact Hmem|]. split; [exact Hlook|]. split.
  - intros key Hne. unfold get at 1. rewrite (Hlook key Hne), Hcfg.
    destruct (memoryCache c !! key) as [e|] eqn:Hkey.
    + case_bool_decide as Hage.
      * rewrite bool_decide_eq_false_2 by lia.
        rewrite (get_live c key e now Hkey Hage). reflexivity.
      * rewrite (get_expired c key e now Hkey); [reflexivity | lia].
    + rewrite (get_absent c key now Hkey). reflexivity.
  - apply get_absent. rewrite Hmem, map_lookup_filter. unfold ownProperties.
    rewrite lookup_delete_eq. reflexivity.
Qed.

End CacheFacts.

Section RefreshFacts.

Variables Data Err : Type.
Implicit Types (c : MarketplaceCache Data) (e : CacheEntry Data) (s : System Data).

(** *** [getWithRefresh] *)

Lemma refreshInBackground_refreshing c key :
  isRefreshing key (refreshInBackground key c).2 = true.
Proof.
  unfold refreshInBackground.
  destruct (bool_decide (key ∈ pendingRefreshes c)) eqn:Hp; simpl.
  - exact Hp.
  - apply bool_decide_eq_true_2. simpl. set_solver.
Qed.

Lemma refreshInBackground_started c key :
  (refreshInBackground key c).1 = negb (isRefreshing key c).
Proof.
  unfold refreshInBackground, isRefreshing.
  destruct (bool_decide (key ∈ pendingRefreshes c)); reflexivity.
Qed.

Lemma refreshInBackground_memory c key :
  memoryCache (refreshInBackground key c).2 = memoryCache c /\
  globalState (refreshInBackground key c).2 = globalState c /\
  config (refreshInBackground key c).2 = config c.
Proof.
  unfold refreshInBackground.
  destruct (bool_decide (key ∈ pendingRefreshes c)); repeat split.
Qed.

(** [C6] For every key with an entry that is not older than [staleTTL],
    when no forced refresh is asked for: if the entry is not older than
    [freshTTL], [getWithRefresh] returns without waiting, with the
    entry's data, [fromCache] true and [refreshing] false, it does not
    call the fetcher and leaves the cache as it is; otherwise it returns
    without waiting, with the entry's data, [fromCache] true and
    [refreshing] true, having called [refreshInBackground] for the key:
    a refresh of the key is under way afterwards, the fetcher was called
    once if none was before and not at all if one was, and the map is
    untouched. *)
Theorem getWithRefresh_cached c (key : string) e (force : option bool) (now : Z) :
  memoryCache c !! key = Some e ->
  age now e <= staleTTL (config c) ->
  default false force = false ->
  let started := (getWithRefresh key force now c).1 in
  let c' := (getWithRefresh key force now c).2 in
  if bool_decide (age now e <= freshTTL (config c)) then
    progress started =
      Returned {| result_data := data e; fromCache := true; refreshing := false |} /\
    fetcherCalls started = 0%nat /\
    startedBackground started = false /\
    c' = c
  else
    progress started =
      Returned {| result_data := data e; fromCache := true; refreshing := true |} /\
    c' = (refreshInBackground key c).2 /\
    isRefreshing key c' = true /\
    startedBackground started = negb (isRefreshing key c) /\
    fetcherCalls started = (if isRefreshing key c then 0%nat else 1%nat) /\
    memoryCache c' = memoryCache c.
Proof.
  intros Hkey Hage Hforce. unfold getWithRefresh.
  rewrite (get_live Data c key e now Hkey Hage), Hforce.
  case_bool_decide as Hfresh; cbn [isFresh cached_data].
  - repeat split.
  - pose proof (refreshInBackground_refreshing c key) as Hr.
    pose proof (refreshInBackground_started c key) as Hs.
    pose proof (refreshInBackground_memory c key) as (Hm & _ & _).
    destruct (refreshInBackground key c) as [started c'] eqn:Hbg.
    cbn [fst snd progress fetcherCalls startedBackground] in *.
    subst started. destruct (isRefreshing key c); repeat split; assumption.
Qed.

(** [getWithRefresh] waits for the fetcher exactly when [get] found
    nothing or a refresh was forced; it has then called the fetcher
    once, started no background refresh, and kept what [get] found. *)
Lemma getWithRefresh_awaits c key force now cached :
  progress (getWithRefresh key force now c).1 = AwaitingFetch cached ->
  cached = (get key now c).1 /\
  (cached = None \/ force = Some true) /\
  fetcherCalls (getWithRefresh key force now c).1 = 1%nat /\
  startedBackground (getWithRefresh key force now c).1 = false /\
  (getWithRefresh key force now c).2 = (get key now c).2.
Proof.
  unfold getWithRefresh. destruct (get key now c) as [[hit|] c1]; simpl.
  - destruct force as [[|]|]; simpl.
    + intros [= <-]. repeat split. right. reflexivity.
    + destruct (isFresh hit); [discriminate|].
      destruct (refreshInBackground key c1); discriminate.
    + destruct (isFresh hit); [discriminate|].
      destruct (refreshInBackground key c1); discriminate.
  - intros [= <-]. repeat split. left. reflexivity.
Qed.

(** [C7] Whenever [getWithRefresh] waits for the fetcher -- [get] found
    nothing, or a refresh was forced -- and the fetcher rejects: if [get]
    had found an entry, the call resolves to that entry's data with
    [fromCache] true and [refreshing] false; if it had found none, the
    call rejects with the fetcher's error; in both cases the
    continuation leaves the cache, as it is when the fetcher settles,
    exactly as it is. Before it waited, the call had left the entry of
    the key as it was when [get] found it, and there was none when [get]
    found none (an entry older than [staleTTL] is removed by [get] and
    counts as not there). *)
Theorem getWithRefresh_fetch_failure c (key : string) (force : option bool) (now : Z)
    (cached : option (Cached Data)) (error : Err) (later : Z) c1 :
  progress (getWithRefresh key force now c).1 = AwaitingFetch cached ->
  (cached = None \/ force = Some true) /\
  cached = (get key now c).1 /\
  memoryCache (getWithRefresh key force now c).2 !! key =
    match cached with
    | Some _ => memoryCache c !! key
    | None => None
    end /\
  (getWithRefresh_settled key cached (Rejected error) later c1).2 = c1 /\
  (getWithRefresh_settled key cached (Rejected error) later c1).1 =
    match cached with
    | Some hit =>
        Fulfilled {| result_data := cached_data hit;
                     fromCache := true;
                     refreshing := false |}
    | None => Rejected error
    end.
Proof.
  intros Hawait.
  destruct (getWithRefresh_awaits c key force now cached Hawait)
    as (Hc & Hwhy & _ & _ & Hc').
  split; [exact Hwhy|]. split; [exact Hc|].
  split.
  { rewrite Hc', Hc. unfold get.
    destruct (memoryCache c !! key) as [e|] eqn:Hkey; [|exact Hkey].
    destruct (bool_decide (age now e > staleTTL (config c))); simpl.
    - apply lookup_delete_eq.
    - exact Hkey. }
  unfold getWithRefresh_settled. simpl. destruct cached; split; reflexivity.
Qed.

(** When the fetcher fulfils, the continuation stores the data and the
    call resolves to it with [fromCache] false. *)
Lemma getWithRefresh_fetch_success c1 key cached (d : Data) later :
  getWithRefresh_settled (Err := Err) key cached (Fulfilled d) later c1 =
  (Fulfilled {| result_data := d; fromCache := false; refreshing := false |},
   set key d None later c1).
Proof. reflexivity. Qed.

End RefreshFacts.

(** *** Background refreshes *)

Section BackgroundFacts.

Variables Data Err : Type.
Implicit Types (c : MarketplaceCache Data) (s : System Data).

Lemma filter_removeOne_ne (key key' : string) (l : list string) :
  key <> key' ->
  List.filter (String.eqb key) (removeOne key' l) = List.filter (String.eqb key) l.
Proof.
  intros Hne. induction l as [|k l IH]; [reflexivity|].
  cbn [removeOne]. destruct (String.eqb_spec k key') as [->|Hk].
  - cbn [List.filter]. destruct (String.eqb_spec key key'); [contradiction|reflexivity].
  - cbn [List.filter]. rewrite IH. reflexivity.
Qed.

Lemma filter_removeOne_eq (key : string) (l : list string) :
  key ∈ l ->
  S (length (List.filter (String.eqb key) (removeOne key l))) =
  length (List.filter (String.eqb key) l).
Proof.
  induction l as [|k l IH]; intros Hin; [inversion Hin|].
  cbn [removeOne]. destruct (String.eqb_spec k key) as [->|Hk].
  - cbn [List.filter]. rewrite String.eqb_refl. reflexivity.
  - cbn [List.filter]. destruct (String.eqb_spec key k) as [->|_]; [contradiction|].
    apply IH. apply elem_of_cons in Hin. destruct Hin as [->|Hin]; [contradiction|exact Hin].
Qed.

Lemma inFlight_split s key :
  inFlight key s =
  (length (List.filter (String.eqb key) (fetching s)) +
   length (List.filter (String.eqb key) (finishing s)))%nat.
Proof. unfold inFlight. rewrite List.filter_app, length_app. reflexivity. Qed.


Lemma get_pending c key now :
  pendingRefreshes (get key now c).2 = pendingRefreshes c.
Proof.
  unfold get. destruct (memoryCache c !! key) as [e|]; [|reflexivity].
  destruct (bool_decide _); reflexivity.
Qed.

Lemma fetchAndCache_settled_pending c key (outcome : Settled Err Data) now :
  pendingRefreshes (fetchAndCache_settled key outcome now c).2 = pendingRefreshes c.
Proof. destruct outcome; reflexivity. Qed.

Lemma getWithRefresh_settled_pending c key cached (outcome : Settled Err Data) now :
  pendingRefreshes (getWithRefresh_settled key cached outcome now c).2 = pendingRefreshes c.
Proof. destruct outcome, cached; reflexivity. Qed.


Lemma refreshInBackground_starts c key :
  startsAtMostOne key (refreshInBackground key c).1 c (refreshInBackground key c).2.
Proof.
  unfold startsAtMostOne, refreshInBackground, isRefreshing.
  destruct (bool_decide (key ∈ pendingRefreshes c)); simpl; [left|right]; auto.
Qed.

Lemma getWithRefresh_starts c key force now :
  startsAtMostOne key (startedBackground (getWithRefresh key force now c).1)
                  c (getWithRefresh key force now c).2.
Proof.
  unfold getWithRefresh.
  pose proof (get_pending c key now) as Hp.
  destruct (get key now c) as [[hit|] c1] eqn:Hget; simpl in *;
    [|left; auto].
  destruct (default false force); [left; auto|].
  destruct (isFresh hit); [left; auto|].
  pose proof (refreshInBackground_starts c1 key) as Hs.
  destruct (refreshInBackground key c1) as [started c2]. simpl in *.
  unfold startsAtMostOne, isRefreshing in *. rewrite Hp in Hs. exact Hs.
Qed.

Lemma launch_preserves s key started c' :
  markersMatch s ->
  startsAtMostOne key started (cache s) c' ->
  markersMatch {| cache := c'; fetching := launch key started s; finishing := finishing s |}.
Proof.
  intros Hinv [[-> Hp] | (-> & Hnot & Hp)] k; specialize (Hinv k);
    unfold isRefreshing in *; rewrite inFlight_split in *; simpl; rewrite Hp.
  - exact Hinv.
  - destruct (String.eqb_spec k key) as [->|Hne].
    + rewrite Hnot in Hinv. rewrite bool_decide_eq_true_2 by set_solver.
      simpl. lia.
    + rewrite (bool_decide_ext _ (k ∈ pendingRefreshes (cache s))) by set_solver.
      exact Hinv.
Qed.

Lemma withCache_preserves s c' :
  markersMatch s ->
  pendingRefreshes c' = pendingRefreshes (cache s) ->
  markersMatch (withCache c' s).
Proof.
  intros Hinv Hp k. specialize (Hinv k).
  unfold isRefreshing, inFlight in *. simpl. rewrite Hp. exact Hinv.
Qed.

Lemma step_preserves s s' :
  markersMatch s -> step Err s s' -> markersMatch s'.
Proof.
  intros Hinv Hstep.
  destruct Hstep as [key now s | key d tag now s | key s | s | key force now s
                    | key cached outcome now s | key s
                    | key outcome now s Hin | key s Hin].
  - apply withCache_preserves; [exact Hinv | apply get_pending].
  - apply withCache_preserves; [exact Hinv | reflexivity].
  - apply withCache_preserves; [exact Hinv | reflexivity].
  - apply withCache_preserves; [exact Hinv | reflexivity].
  - apply launch_preserves; [exact Hinv | apply getWithRefresh_starts].
  - apply withCache_preserves; [exact Hinv | apply getWithRefresh_settled_pending].
  - apply launch_preserves; [exact Hinv | apply refreshInBackground_starts].
  - intros k. specialize (Hinv k). unfold isRefreshing in *.
    rewrite inFlight_split in *. cbn [cache fetching finishing].
    rewrite fetchAndCache_settled_pending. cbn [List.filter].
    destruct (String.eqb_spec k key) as [->|Hne].
    + pose proof (filter_removeOne_eq key (fetching s) Hin) as Hrm. simpl. lia.
    + rewrite (filter_removeOne_ne k key) by exact Hne. exact Hinv.
  - intros k. specialize (Hinv k). unfold isRefreshing in *.
    rewrite inFlight_split in *. cbn [cache fetching finishing refreshFinally
      withPending pendingRefreshes].
    destruct (String.eqb_spec k key) as [->|Hne].
    + pose proof (filter_removeOne_eq key (finishing s) Hin) as Hrm.
      rewrite bool_decide_eq_false_2 by set_solver.
      destruct (bool_decide (key ∈ pendingRefreshes (cache s))); lia.
    + rewrite (filter_removeOne_ne k key) by exact Hne.
      rewrite (bool_decide_ext _ (k ∈ pendingRefreshes (cache s))) by set_solver.
      exact Hinv.
Qed.

Lemma fresh_markersMatch (stored : Memento Data) (cfg : PartialConfig) (t0 : Z) :
  markersMatch (fresh (newCache stored cfg t0)).
Proof.
  intros k. unfold newCache, loadFromStorage, isRefreshing. simpl.
  destruct stored; reflexivity.
Qed.

Lemma reachable_markersMatch init s :
  markersMatch init -> reachable Err init s -> markersMatch s.
Proof.
  intros Hinit Hreach. induction Hreach as [|s s' _ IH Hstep]; [exact Hinit|].
  eapply step_preserves; eassumption.
Qed.

Lemma refreshFinally_clears c key :
  isRefreshing key (refreshFinally key c) = false /\
  (refreshInBackground key (refreshFinally key c)).1 = true /\
  memoryCache (refreshFinally key c) = memoryCache c.
Proof.
  assert (H : isRefreshing key (refreshFinally key c) = false).
  { unfold isRefreshing, refreshFinally. simpl.
    apply bool_decide_eq_false_2. set_solver. }
  split; [exact H|]. split; [|reflexivity].
  rewrite refreshInBackground_started, H. reflexivity.
Qed.


(** [C8] In every state the cache can reach from its construction, by
    calls of its methods and by fetchers settling with any outcome, and
    for every key: at most one background refresh of the key is under
    way, and the marker of the key is there exactly when one is;
    [refreshInBackground] under the marker calls no fetcher and changes
    nothing; without the marker it starts a refresh. A refresh under way
    completes in two steps whatever its fetcher settles to -- fulfilled
    or rejected -- after which no refresh of the key is under way, the
    marker is gone and [refreshInBackground] starts a new one. The
    promise of a refresh fulfils also when the fetcher rejects, and a
    rejection changes nothing in the cache. *)
Theorem background_refresh_deduplicated (stored : Memento Data) (cfg : PartialConfig)
    (t0 : Z) s (key : string) :
  reachable Err (fresh (newCache stored cfg t0)) s ->
  (inFlight key s <= 1)%nat /\
  inFlight key s = (if isRefreshing key (cache s) then 1%nat else 0%nat) /\
  (if isRefreshing key (cache s)
   then refreshInBackground key (cache s) = (false, cache s)
   else (refreshInBackground key (cache s)).1 = true) /\
  (forall outcome : Settled Err Data, refreshPromise outcome = Fulfilled tt) /\
  (forall (error : Err) now,
     (fetchAndCache_settled key (Rejected error) now (cache s)).2 = cache s) /\
  (forall (outcome : Settled Err Data) now,
     key ∈ fetching s ->
     let s1 := afterFetched key outcome now s in
     let s2 := afterFinally key s1 in
     step Err s s1 /\ step Err s1 s2 /\
     inFlight key s2 = 0%nat /\
     isRefreshing key (cache s2) = false /\
     (refreshInBackground key (cache s2)).1 = true).
Proof.
  intros Hreach.
  pose proof (reachable_markersMatch _ _ (fresh_markersMatch stored cfg t0) Hreach)
    as Hinv.
  split; [rewrite (Hinv key); destruct (isRefreshing key (cache s)); lia|].
  split; [apply Hinv|].
  split.
  { pose proof (refreshInBackground_started Data (cache s) key) as Hs.
    unfold refreshInBackground, isRefreshing in *.
    destruct (bool_decide (key ∈ pendingRefreshes (cache s))); [reflexivity|exact Hs]. }
  split; [intros [d|error]; reflexivity|].
  split; [reflexivity|].
  intros outcome now Hin s1 s2.
  assert (Hstep1 : step Err s s1) by (apply step_fetched; exact Hin).
  assert (Hstep2 : step Err s1 s2) by (apply step_finally; left).
  split; [exact Hstep1|]. split; [exact Hstep2|].
  pose proof (step_preserves _ _ (step_preserves _ _ Hinv Hstep1) Hstep2 key) as Hinv2.
  destruct (refreshFinally_clears (cache s1) key) as (Hclear & Hnew & _).
  change (cache s2) with (refreshFinally key (cache s1)) in *.
  rewrite Hclear in Hinv2. auto.
Qed.

End BackgroundFacts.

(** ** The cache on a concrete run *)


Lemma get_by_age_witness :
  (freshTTL (config demoCache) < staleTTL (config demoCache) /\
   memoryCache demoCache !! "k" = Some demoEntry /\
   1010 < 1050 < 1100 /\
   memoryCache demoCache !! "j" = None) /\
  get "k" 1009 demoCache = (Some {| cached_data := 7%nat; isFresh := true |}, demoCache) /\
  get "k" 1050 demoCache = (Some {| cached_data := 7%nat; isFresh := false |}, demoCache) /\
  (get "k" 1101 demoCache).1 = None /\
  memoryCache (get "k" 1101 demoCache).2 = delete "k" (memoryCache demoCache) /\
  memoryCache (get "k" 1101 demoCache).2 !! "k" = None /\
  globalState (get "k" 1101 demoCache).2
    = Some (ownProperties (delete "k" (memoryCache demoCache))) /\
  get "j" 1050 demoCache = (None, demoCache).
Proof.
  assert (H1 : freshTTL (config demoCache) < staleTTL (config demoCache))
    by (vm_compute; reflexivity).
  assert (H2 : memoryCache demoCache !! "k" = Some demoEntry)
    by (vm_compute; reflexivity).
  assert (H3 : timestamp demoEntry + freshTTL (config demoCache) < 1050
               < timestamp demoEntry + staleTTL (config demoCache))
    by (split; vm_compute; reflexivity).
  assert (H4 : memoryCache demoCache !! "j" = None)
    by (vm_compute; reflexivity).
  split; [exact (conj H1 (conj H2 (conj H3 H4)))|].
  destruct (get_by_age nat demoCache) as [Habsent Hentry].
  destruct (Hentry "k" demoEntry H2 H1) as (A & _ & B & _ & C & D & E & F & _).
  exact (conj A (conj (B 1050 H3) (conj C (conj D (conj E (conj F
           (Habsent "j" 1050 H4))))))).
Defined.

(** [C9] A cache in which [__proto__] is set to 7 and [k] to 8 at time
    1000, persisted and reloaded at time 1000 with the same
    configuration: before, [get] answers both keys with their data;
    after, the map read back has the entry of [k] and none for
    [__proto__], and [get] of [__proto__] returns [undefined]. The two
    entries have the same age, 0, so it is not [staleTTL] that drops
    one. *)
Lemma persist_reload_drops_proto_entry :
  let c := set "k" 8%nat None 1000 (set "__proto__" 7%nat None 1000 demoEmpty) in
  let reloaded := newCache (globalState (persistToStorage c)) demoConfig 1000 in
  config reloaded = config c /\
  (get "__proto__" 1000 c).1 = Some {| cached_data := 7%nat; isFresh := true |} /\
  (get "k" 1000 c).1 = Some {| cached_data := 8%nat; isFresh := true |} /\
  (get "k" 1000 reloaded).1 = Some {| cached_data := 8%nat; isFresh := true |} /\
  memoryCache reloaded !! "__proto__" = None /\
  (get "__proto__" 1000 reloaded).1 = None /\
  globalState c = Some (delete "__proto__" (memoryCache c)).
Proof. vm_compute. repeat split. Qed.

Lemma getWithRefresh_cached_witness :
  (progress (getWithRefresh "k" None 1005 demoCache).1 =
     Returned {| result_data := 7%nat; fromCache := true; refreshing := false |} /\
   fetcherCalls (getWithRefresh "k" None 1005 demoCache).1 = 0%nat /\
   startedBackground (getWithRefresh "k" None 1005 demoCache).1 = false /\
   (getWithRefresh "k" None 1005 demoCache).2 = demoCache) /\
  (progress (getWithRefresh "k" (Some false) 1050 demoCache).1 =
     Returned {| result_data := 7%nat; fromCache := true; refreshing := true |} /\
   (getWithRefresh "k" (Some false) 1050 demoCache).2 = (refreshInBackground "k" demoCache).2 /\
   isRefreshing "k" (getWithRefresh "k" (Some false) 1050 demoCache).2 = true /\
   startedBackground (getWithRefresh "k" (Some false) 1050 demoCache).1 = true /\
   fetcherCalls (getWithRefresh "k" (Some false) 1050 demoCache).1 = 1%nat /\
   memoryCache (getWithRefresh "k" (Some false) 1050 demoCache).2 = memoryCache demoCache).
Proof.
  assert (H1 : memoryCache demoCache !! "k" = Some demoEntry)
    by (vm_compute; reflexivity).
  assert (H2 : age 1005 demoEntry <= staleTTL (config demoCache))
    by (vm_compute; discriminate).
  assert (H3 : age 1050 demoEntry <= staleTTL (config demoCache))
    by (vm_compute; discriminate).
  split.
  - exact (getWithRefresh_cached nat demoCache "k" demoEntry None 1005 H1 H2 eq_refl).
  - exact (getWithRefresh_cached nat demoCache "k" demoEntry (Some false) 1050 H1 H3 eq_refl).
Defined.

Lemma getWithRefresh_fetch_failure_witness :
  (* a forced refresh over a cached entry: the entry is served *)
  (progress (getWithRefresh "k" (Some true) 1005 demoCache).1 =
     AwaitingFetch (Some {| cached_data := 7%nat; isFresh := true |}) /\
   (getWithRefresh_settled "k" (Some {| cached_data := 7%nat; isFresh := true |})
      (Rejected "network down") 1100 demoCache).2 = demoCache /\
   (getWithRefresh_settled "k" (Some {| cached_data := 7%nat; isFresh := true |})
      (Rejected "network down") 1100 demoCache).1 =
     Fulfilled {| result_data := 7%nat; fromCache := true; refreshing := false |}) /\
  (* no entry: the error is passed on *)
  (progress (getWithRefresh "j" None 1005 demoCache).1 = AwaitingFetch None /\
   (getWithRefresh_settled "j" None (Rejected "network down") 1100 demoCache).2 = demoCache /\
   (getWithRefresh_settled "j" (None : option (Cached nat))
      (Rejected "network down") 1100 demoCache).1 = Rejected "network down").
Proof.
  assert (H1 : progress (getWithRefresh "k" (Some true) 1005 demoCache).1 =
               AwaitingFetch (Some {| cached_data := 7%nat; isFresh := true |}))
    by (vm_compute; reflexivity).
  assert (H2 : progress (getWithRefresh "j" None 1005 demoCache).1 = AwaitingFetch None)
    by (vm_compute; reflexivity).
  split.
  - split; [exact H1|].
    exact (proj2 (proj2 (proj2 (getWithRefresh_fetch_failure nat string demoCache "k"
                           (Some true) 1005 _ "network down" 1100 demoCache H1)))).
  - split; [exact H2|].
    exact (proj2 (proj2 (proj2 (getWithRefresh_fetch_failure nat string demoCache "j"
                           None 1005 _ "network down" 1100 demoCache H2)))).
Defined.

Lemma background_refresh_deduplicated_witness :
  reachable string (fresh demoEmpty) demoRefreshing /\
  (inFlight "k" demoRefreshing <= 1)%nat /\
  inFlight "k" demoRefreshing = 1%nat /\
  refreshInBackground "k" (cache demoRefreshing) = (false, cache demoRefreshing) /\
  (forall outcome : Settled string nat, refreshPromise outcome = Fulfilled tt) /\
  (forall (error : string) now,
     (fetchAndCache_settled "k" (Rejected error) now (cache demoRefreshing)).2
     = cache demoRefreshing) /\
  (forall (outcome : Settled string nat) now,
     "k" ∈ fetching demoRefreshing ->
     let s1 := afterFetched "k" outcome now demoRefreshing in
     let s2 := afterFinally "k" s1 in
     step string demoRefreshing s1 /\ step string s1 s2 /\
     inFlight "k" s2 = 0%nat /\
     isRefreshing "k" (cache s2) = false /\
     (refreshInBackground "k" (cache s2)).1 = true).
Proof.
  assert (H : reachable string (fresh demoEmpty) demoRefreshing).
  { eapply reachable_step; [apply reachable_init|].
    exact (step_refreshInBackground nat string "k" (fresh demoEmpty)). }
  split; [exact H|].
  exact (background_refresh_deduplicated nat string None demoConfig 0 demoRefreshing "k" H).
Defined.

(** * Further properties *)

(** ** Reading, writing and clearing the cache *)

Section MoreCacheFacts.

Variables Data Err : Type.
Implicit Types (c : MarketplaceCache Data) (e : CacheEntry Data) (s : System Data).

Lemma get_after_set c (key : string) (d : Data) (tag : option string) (now later : Z) :
  get key later (set key d tag now c) =
  if bool_decide (later - now > staleTTL (config c))
  then (None, clear key c)
  else (Some {| cached_data := d;
                isFresh := bool_decide (later - now <= freshTTL (config c)) |},
        set key d tag now c).
Proof.
  unfold get. rewrite set_lookup. unfold age. cbn [timestamp data].
  change (config (set key d tag now c)) with (config c).
  destruct (bool_decide (later - now > staleTTL (config c))); [|reflexivity].
  unfold clear, set, persistToStorage, withMemory. simpl.
  rewrite delete_insert_eq. reflexivity.
Qed.

(** [X1] Reading a key back after [set]: what [get] answers depends only
    on the time elapsed since the [set]. Up to [freshTTL] it is the data,
    fresh; up to [staleTTL] the data, stale; later it is [undefined] and
    the read leaves the cache as [clear] of the key would have. *)
Theorem set_then_get c (key : string) (d : Data) (tag : option string) (now later : Z) :
  get key later (set key d tag now c) =
  if bool_decide (later - now > staleTTL (config c))
  then (None, clear key c)
  else (Some {| cached_data := d;
                isFresh := bool_decide (later - now <= freshTTL (config c)) |},
        set key d tag now c).
Proof. apply get_after_set. Qed.

(** [X2] [set] of one key does not change what [get] answers for another. *)
Theorem set_other_key c (key other : string) (d : Data) (tag : option string)
    (now later : Z) :
  key <> other ->
  memoryCache (set key d tag now c) !! other = memoryCache c !! other /\
  (get other later (set key d tag now c)).1 = (get other later c).1.
Proof.
  intros Hne.
  assert (Hl : memoryCache (set key d tag now c) !! other = memoryCache c !! other).
  { simpl. apply lookup_insert_ne. exact Hne. }
  split; [exact Hl|].
  unfold get. rewrite Hl. cbn [config set persistToStorage withMemory].
  destruct (memoryCache c !! other) as [e|]; [|reflexivity].
  destruct (bool_decide (age later e > staleTTL (config c))); reflexivity.
Qed.

(** [X3] [get] never serves an entry older than [staleTTL]: what it
    returns is the data of an entry of the map that is not older, flagged
    fresh exactly when it is not older than [freshTTL], and the cache is
    left as it was; and when it returns [undefined] the map has no entry
    for the key afterwards. *)
Theorem get_sound c (key : string) (now : Z) :
  match (get key now c).1 with
  | Some hit =>
      exists e,
        memoryCache c !! key = Some e /\
        cached_data hit = data e /\
        age now e <= staleTTL (config c) /\
        (isFresh hit = true <-> age now e <= freshTTL (config c)) /\
        (get key now c).2 = c
  | None => memoryCache (get key now c).2 !! key = None
  end.
Proof.
  unfold get. destruct (memoryCache c !! key) as [e|] eqn:Hkey; [|exact Hkey].
  case_bool_decide as Hage; simpl.
  - apply lookup_delete_eq.
  - exists e. repeat split; try reflexivity; try lia.
    + intros H. apply bool_decide_eq_true_1 in H. exact H.
    + intros H. apply bool_decide_eq_true_2. exact H.
Qed.

(** [X4] Reading twice at the same time is reading once: the second [get]
    answers as the first and changes nothing more. *)
Theorem get_idempotent c (key : string) (now : Z) :
  get key now (get key now c).2 = get key now c.
Proof.
  unfold get at 2 3. destruct (memoryCache c !! key) as [e|] eqn:Hkey.
  - case_bool_decide as Hage; cbn [fst snd].
    + unfold get. cbn [memoryCache persistToStorage withMemory].
      rewrite lookup_delete_eq. reflexivity.
    + unfold get. rewrite Hkey. rewrite bool_decide_eq_false_2 by exact Hage.
      reflexivity.
  - cbn [snd]. apply get_absent. exact Hkey.
Qed.

(** [X5] After [clear] of a key [get] of it returns [undefined], other
    keys keep their entries, and clearing again changes nothing; after
    [clearAll] the map and the persisted snapshot are empty and [get]
    returns [undefined] for every key. *)
Theorem clear_then_get c (key : string) (now : Z) :
  get key now (clear key c) = (None, clear key c) /\
  (forall other, key <> other ->
                 memoryCache (clear key c) !! other = memoryCache c !! other) /\
  clear key (clear key c) = clear key c /\
  memoryCache (clearAll c) = ∅ /\
  globalState (clearAll c) = Some ∅ /\
  (forall any, get any now (clearAll c) = (None, clearAll c)).
Proof.
  split; [apply get_absent; simpl; apply lookup_delete_eq|].
  split; [intros other Hne; simpl; apply lookup_delete_ne; exact Hne|].
  split.
  { unfold clear. cbn [memoryCache persistToStorage withMemory pendingRefreshes config].
    rewrite delete_delete_eq. reflexivity. }
  split; [reflexivity|]. split; [reflexivity|].
  intros any. apply get_absent. simpl. apply lookup_empty.
Qed.

(** *** The persisted snapshot *)










(** [X7] When a forced fetch and a background refresh of the same key are
    both under way, the one whose fetcher settles last decides the entry:
    the cache is then as if only that one had stored its data. *)
Theorem last_settled_fetch_wins c (key : string) (cached : option (Cached Data))
    (d1 d2 : Data) (t1 t2 : Z) :
  (fetchAndCache_settled (Err := Err) key (Fulfilled d2) t2
     (getWithRefresh_settled (Err := Err) key cached (Fulfilled d1) t1 c).2).2
    = set key d2 None t2 c /\
  (getWithRefresh_settled (Err := Err) key cached (Fulfilled d1) t1
     (fetchAndCache_settled (Err := Err) key (Fulfilled d2) t2 c).2).2
    = set key d1 None t1 c.
Proof.
  split; unfold getWithRefresh_settled, fetchAndCache_settled, set; simpl;
    rewrite insert_insert_eq; reflexivity.
Qed.

(** [X8] After a synchronous fetch has fulfilled and stored its data, a
    call without forced refresh that comes within [freshTTL] (and
    [staleTTL]) of it returns that data from the cache, without waiting
    and without calling the fetcher. *)
Theorem read_after_fetch c (key : string) (cached : option (Cached Data)) (d : Data)
    (force : option bool) (now later : Z) :
  later - now <= freshTTL (config c) ->
  later - now <= staleTTL (config c) ->
  default false force = false ->
  let c1 := (getWithRefresh_settled (Err := Err) key cached (Fulfilled d) now c).2 in
  getWithRefresh key force later c1 =
  ({| progress := Returned {| result_data := d; fromCache := true; refreshing := false |};
      fetcherCalls := 0;
      startedBackground := false |}, c1).
Proof.
  intros Hf Hs Hforce c1. subst c1. rewrite getWithRefresh_fetch_success. cbn [snd].
  unfold getWithRefresh. rewrite get_after_set.
  rewrite bool_decide_eq_false_2 by lia.
  rewrite Hforce. cbn [isFresh cached_data].
  rewrite bool_decide_eq_true_2 by exact Hf. reflexivity.
Qed.

End MoreCacheFacts.

(** ** Cache keys *)

Lemma compareUnits_eq (a : list N) : forall b, compareUnits a b = Eq -> a = b.
Proof.
  induction a as [|x a IH]; intros [|y b]; simpl; try discriminate; [reflexivity|].
  destruct (x ?= y)%N eqn:E; try discriminate.
  intros H. apply N.compare_eq_iff in E. subst y. f_equal. apply IH, H.
Qed.

Lemma compareUnits_refl (a : list N) : compareUnits a a = Eq.
Proof. induction a as [|x a IH]; simpl; [reflexivity|]. rewrite N.compare_refl. exact IH. Qed.

Lemma compareUnits_antisym (a : list N) : forall b,
  compareUnits b a = CompOpp (compareUnits a b).
Proof.
  induction a as [|x a IH]; intros [|y b]; simpl; try reflexivity.
  rewrite (N.compare_antisym x y). destruct (x ?= y)%N; simpl; [apply IH | reflexivity..].
Qed.

Lemma compareUnits_trans (a : list N) : forall b c,
  compareUnits a b = Lt -> compareUnits b c = Lt -> compareUnits a c = Lt.
Proof.
  induction a as [|x a IH]; intros [|y b] [|z c]; simpl; try discriminate; try reflexivity.
  destruct (x ?= y)%N eqn:Exy; try discriminate;
    destruct (y ?= z)%N eqn:Eyz; try discriminate.
  - apply N.compare_eq_iff in Exy, Eyz. subst. rewrite N.compare_refl. apply IH.
  - apply N.compare_eq_iff in Exy. subst. rewrite Eyz. reflexivity.
  - apply N.compare_eq_iff in Eyz. subst. rewrite Exy. reflexivity.
  - intros _ _. rewrite N.compare_lt_iff in Exy, Eyz.
    assert (H : (x < z)%N) by lia. rewrite <- N.compare_lt_iff in H. rewrite H. reflexivity.
Qed.

Lemma compareStrings_eq (a b : string) : compareStrings a b = Eq -> a = b.
Proof.
  unfold compareStrings.
  destruct (compareUnits _ _); try discriminate. apply String.compare_eq_iff.
Qed.

Lemma compareStrings_antisym (a b : string) :
  compareStrings b a = CompOpp (compareStrings a b).
Proof.
  unfold compareStrings.
  rewrite (compareUnits_antisym (codeUnits (Str.chars a)) (codeUnits (Str.chars b))).
  destruct (compareUnits (codeUnits (Str.chars a)) (codeUnits (Str.chars b)));
    simpl; [apply String.compare_antisym | reflexivity..].
Qed.

Lemma codeUnitLe_antisym (a b : string) : codeUnitLe a b -> codeUnitLe b a -> a = b.
Proof.
  unfold codeUnitLe. intros H1 H2.
  destruct (compareStrings a b) eqn:E.
  - apply compareStrings_eq. exact E.
  - rewrite compareStrings_antisym, E in H2. contradiction H2. reflexivity.
  - contradiction H1. reflexivity.
Qed.

Lemma codeUnitLe_trans (a b c : string) : codeUnitLe a b -> codeUnitLe b c -> codeUnitLe a c.
Proof.
  unfold codeUnitLe, compareStrings. intros Hab Hbc.
  destruct (compareUnits (codeUnits (Str.chars a)) (codeUnits (Str.chars b))) eqn:Eab;
    [| |congruence];
    destruct (compareUnits (codeUnits (Str.chars b)) (codeUnits (Str.chars c))) eqn:Ebc;
    try congruence.
  - apply compareUnits_eq in Eab, Ebc. rewrite Eab, Ebc, compareUnits_refl.
    eapply compare_le_trans; eassumption.
  - apply compareUnits_eq in Eab. rewrite Eab, Ebc. discriminate.
  - apply compareUnits_eq in Ebc. rewrite <- Ebc, Eab. discriminate.
  - rewrite (compareUnits_trans _ _ _ Eab Ebc). discriminate.
Qed.

Lemma Array_insert_Permutation (x : string) (sorted : list string) :
  Permutation (Array_insert x sorted) (x :: sorted).
Proof.
  induction sorted as [|y rest IH]; simpl; [reflexivity|].
  destruct (compareStrings x y); try reflexivity.
  rewrite IH. apply perm_swap.
Qed.

Lemma Array_insert_sorted (x : string) (sorted : list string) :
  StronglySorted codeUnitLe sorted -> StronglySorted codeUnitLe (Array_insert x sorted).
Proof.
  induction sorted as [|y rest IH]; intros Hs; simpl.
  - repeat constructor.
  - apply StronglySorted_inv in Hs. destruct Hs as [Hrest Hy].
    assert (Hsorted : StronglySorted codeUnitLe (y :: rest)) by (constructor; assumption).
    assert (Hle : compareStrings x y <> Gt ->
                  StronglySorted codeUnitLe (x :: y :: rest)).
    { intros Hxy. constructor; [exact Hsorted|]. constructor; [exact Hxy|].
      eapply Forall_impl; [exact Hy|]. simpl. intros z Hz.
      apply (codeUnitLe_trans x y z); assumption. }
    destruct (compareStrings x y) eqn:E.
    + apply Hle. discriminate.
    + apply Hle. discriminate.
    + constructor; [apply IH; exact Hrest|].
      rewrite (Array_insert_Permutation x rest). constructor; [|exact Hy].
      unfold codeUnitLe. rewrite (compareStrings_antisym x y), E. discriminate.
Qed.

Lemma Array_sort_Permutation (xs : list string) : Permutation (Array_sort xs) xs.
Proof.
  induction xs as [|x xs IH]; simpl; [reflexivity|].
  rewrite Array_insert_Permutation, IH. reflexivity.
Qed.

Lemma Array_sort_sorted (xs : list string) : StronglySorted codeUnitLe (Array_sort xs).
Proof.
  induction xs as [|x xs IH]; simpl; [constructor|].
  apply Array_insert_sorted. exact IH.
Qed.

Lemma sorted_Permutation_eq (l1 : list string) : forall l2,
  StronglySorted codeUnitLe l1 -> StronglySorted codeUnitLe l2 ->
  Permutation l1 l2 -> l1 = l2.
Proof.
  induction l1 as [|a t1 IH]; intros l2 H1 H2 Hp.
  - apply Permutation_nil in Hp. congruence.
  - destruct l2 as [|b t2]; [apply Permutation_sym, Permutation_nil in Hp; discriminate|].
    apply StronglySorted_inv in H1. destruct H1 as [Ht1 Ha].
    apply StronglySorted_inv in H2. destruct H2 as [Ht2 Hb].
    assert (Hab : a = b).
    { assert (Hin1 : a ∈ b :: t2) by (rewrite <- Hp; left).
      assert (Hin2 : b ∈ a :: t1) by (rewrite Hp; left).
      apply elem_of_cons in Hin1. destruct Hin1 as [->|Hin1]; [reflexivity|].
      apply elem_of_cons in Hin2. destruct Hin2 as [->|Hin2]; [reflexivity|].
      rewrite Forall_forall in Ha, Hb.
      apply codeUnitLe_antisym; [apply Ha | apply Hb]; assumption. }
    subst b. f_equal. apply IH; [assumption..|].
    eapply Permutation_cons_inv. exact Hp.
Qed.

(** [X9] [CacheKeys.allMarketplaces] leaves the caller's array sorted in
    ascending order of UTF-16 code units, with the same URLs as before,
    and builds the key from the sorted array. So the key does not depend
    on the order in which the URLs are given: two arrays with the same
    URLs in any order get the same key and are left the same. *)
Theorem allMarketplaces_order_independent (urls urls' : list string) :
  Permutation urls urls' ->
  CacheKeys.allMarketplaces urls = CacheKeys.allMarketplaces urls' /\
  Permutation (CacheKeys.allMarketplaces urls).2 urls /\
  StronglySorted codeUnitLe (CacheKeys.allMarketplaces urls).2 /\
  (CacheKeys.allMarketplaces urls).1
    = "marketplaces:" +:+ Str.join "|" (CacheKeys.allMarketplaces urls).2.
Proof.
  intros Hp. unfold CacheKeys.allMarketplaces. cbn [fst snd].
  assert (H : Array_sort urls = Array_sort urls').
  { apply sorted_Permutation_eq; [apply Array_sort_sorted..|].
    rewrite !Array_sort_Permutation. exact Hp. }
  rewrite H. split; [reflexivity|]. rewrite <- H.
  split; [apply Array_sort_Permutation|]. split; [apply Array_sort_sorted | reflexivity].
Qed.

(** [X10] Keys of different kinds never coincide, whatever they are built
    from, and the key of a single marketplace determines its URL. *)
Theorem cache_key_kinds_disjoint (url url' : string) (urls : list string)
    (o r b p o' r' b' p' : string) :
  CacheKeys.marketplace url <> (CacheKeys.allMarketplaces urls).1 /\
  CacheKeys.marketplace url <> CacheKeys.repoDirectory o r b p /\
  CacheKeys.marketplace url <> CacheKeys.pluginConfig o r b p /\
  (CacheKeys.allMarketplaces urls).1 <> CacheKeys.repoDirectory o r b p /\
  (CacheKeys.allMarketplaces urls).1 <> CacheKeys.pluginConfig o r b p /\
  CacheKeys.repoDirectory o r b p <> CacheKeys.pluginConfig o' r' b' p' /\
  (CacheKeys.marketplace url = CacheKeys.marketplace url' -> url = url').
Proof.
  unfold CacheKeys.marketplace, CacheKeys.allMarketplaces, CacheKeys.repoDirectory,
    CacheKeys.pluginConfig. cbn [fst].
  repeat split; try (intros H; discriminate H).
  intros H. injection H as H. exact H.
Qed.


(** ** Characters and pieces of strings *)

Lemma chars_append (a b : string) : Str.chars (a +:+ b) = Str.chars a ++ Str.chars b.
Proof.
  induction a as [|x a IH]; [reflexivity|].
  change (x :: Str.chars (a +:+ b) = x :: (Str.chars a ++ Str.chars b)).
  rewrite IH. reflexivity.
Qed.

Lemma ofChars_chars (s : string) : Str.ofChars (Str.chars s) = s.
Proof. apply string_of_list_ascii_of_string. Qed.

Lemma chars_ofChars (cs : list ascii) : Str.chars (Str.ofChars cs) = cs.
Proof. apply list_ascii_of_string_of_list_ascii. Qed.

Lemma ofChars_app (a b : list ascii) :
  Str.ofChars (a ++ b) = Str.ofChars a +:+ Str.ofChars b.
Proof.
  rewrite <- (ofChars_chars (Str.ofChars a +:+ Str.ofChars b)).
  rewrite chars_append, !chars_ofChars. reflexivity.
Qed.

Lemma startsWithChars_app (p r : list ascii) : Str.startsWithChars p (p ++ r) = true.
Proof.
  induction p as [|c p IH]; [reflexivity|].
  simpl. rewrite Ascii.eqb_refl. exact IH.
Qed.

Lemma startsWithChars_more (p cs r : list ascii) :
  Str.startsWithChars p cs = true -> Str.startsWithChars p (cs ++ r) = true.
Proof.
  revert cs. induction p as [|c p IH]; intros cs; [reflexivity|].
  destruct cs as [|d cs]; simpl; [discriminate|].
  destruct (Ascii.eqb c d); simpl; [apply IH | discriminate].
Qed.

Lemma startsWith_append (p r : string) : Str.startsWith p (p +:+ r) = true.
Proof. unfold Str.startsWith. rewrite chars_append. apply startsWithChars_app. Qed.

Lemma startsWith_more (p s t : string) :
  Str.startsWith p s = true -> Str.startsWith p (s +:+ t) = true.
Proof. unfold Str.startsWith. rewrite chars_append. apply startsWithChars_more. Qed.

(** [split] undoes [join] on segments without the separator. *)
Lemma splitChars_segment (sep : ascii) (seg : list ascii) : forall cur rest,
  Forall (fun c => c <> sep) seg ->
  Str.splitChars sep cur (seg ++ sep :: rest) =
  Str.ofChars (rev cur ++ seg) :: Str.splitChars sep [] rest.
Proof.
  induction seg as [|c seg IH]; intros cur rest Hseg; simpl.
  - rewrite Ascii.eqb_refl, app_nil_r. reflexivity.
  - apply Forall_cons in Hseg. destruct Hseg as [Hc Hseg].
    destruct (Ascii.eqb_spec c sep) as [->|_]; [contradiction|].
    rewrite IH by exact Hseg. simpl. rewrite <- app_assoc. reflexivity.
Qed.

Lemma splitChars_last (sep : ascii) (seg : list ascii) : forall cur,
  Forall (fun c => c <> sep) seg ->
  Str.splitChars sep cur seg = [Str.ofChars (rev cur ++ seg)].
Proof.
  induction seg as [|c seg IH]; intros cur Hseg; simpl.
  - rewrite app_nil_r. reflexivity.
  - apply Forall_cons in Hseg. destruct Hseg as [Hc Hseg].
    destruct (Ascii.eqb_spec c sep) as [->|_]; [contradiction|].
    rewrite IH by exact Hseg. simpl. rewrite <- app_assoc. reflexivity.
Qed.

Lemma chars_join_cons (x y : string) (rest : list string) :
  Str.chars (Str.join "/" (x :: y :: rest)) =
  Str.chars x ++ "/"%char :: Str.chars (Str.join "/" (y :: rest)).
Proof.
  change (Str.join "/" (x :: y :: rest)) with (x +:+ "/" +:+ Str.join "/" (y :: rest)).
  rewrite !chars_append. reflexivity.
Qed.

Lemma split_join (segs : list string) :
  segs <> [] ->
  Forall isSegment segs ->
  Str.split "/" (Str.join "/" segs) = segs.
Proof.
  unfold Str.split. induction segs as [|x segs IH]; intros Hne Hsegs; [contradiction|].
  apply Forall_cons in Hsegs. destruct Hsegs as [[_ Hx] Hsegs].
  destruct segs as [|y segs].
  - simpl. rewrite splitChars_last by exact Hx. simpl. rewrite ofChars_chars. reflexivity.
  - rewrite chars_join_cons, splitChars_segment by exact Hx. simpl rev. simpl app.
    rewrite ofChars_chars. f_equal. apply IH; [discriminate | exact Hsegs].
Qed.

Lemma pathname_parts (segs : list string) :
  segs <> [] ->
  Forall isSegment segs ->
  List.filter Str.truthy (Str.split "/" ("/" +:+ Str.join "/" segs)) = segs.
Proof.
  intros Hne Hsegs. unfold Str.split. rewrite chars_append.
  change (Str.chars "/" ++ Str.chars (Str.join "/" segs))
    with ([] ++ "/"%char :: Str.chars (Str.join "/" segs)).
  rewrite splitChars_segment by constructor.
  fold (Str.split "/" (Str.join "/" segs)). rewrite split_join by assumption.
  simpl. clear Hne. induction Hsegs as [|x segs [Hx _] _ IH]; [reflexivity|].
  simpl. unfold Str.truthy at 1. destruct (String.eqb_spec x ""); [contradiction|].
  simpl. f_equal. exact IH.
Qed.

(** ** The candidate list *)

Lemma Set_add_ok (n : nat) (x : string) (s : list string) :
  NoDup s /\ (length s <= n)%nat ->
  NoDup (Set_add x s) /\ (length (Set_add x s) <= S n)%nat.
Proof.
  intros [Hnd Hlen]. unfold Set_add. case_bool_decide as Hin.
  - split; [exact Hnd | lia].
  - split.
    + apply NoDup_app. repeat split; [exact Hnd | | apply NoDup_singleton].
      intros y Hy Hy'. apply list_elem_of_singleton in Hy'. subst y. contradiction.
    + rewrite length_app. simpl. lia.
Qed.

Lemma Set_add_nonempty (x : string) (s : list string) : Set_add x s <> [].
Proof.
  unfold Set_add. case_bool_decide as Hin.
  - intros ->. inversion Hin.
  - destruct s; discriminate.
Qed.

Lemma Set_add_head (x y : string) (s : list string) :
  head (Set_add x (y :: s)) = Some y.
Proof. unfold Set_add. destruct (bool_decide _); reflexivity. Qed.

Lemma Set_add_Forall (P : string -> Prop) (x : string) (s : list string) :
  P x -> Forall P s -> Forall P (Set_add x s).
Proof.
  intros Hx Hs. unfold Set_add. destruct (bool_decide _); [exact Hs|].
  apply Forall_app. split; [exact Hs | repeat constructor; exact Hx].
Qed.

Lemma Set_add_fresh (x : string) (s : list string) :
  ~ (x ∈ s) -> Set_add x s = s ++ [x].
Proof. intros H. unfold Set_add. rewrite bool_decide_eq_false_2 by exact H. reflexivity. Qed.

Lemma candidates_ok (newURL : string -> option URL) (inputUrl : string) :
  NoDup (candidateMarketplaceUrls newURL inputUrl) /\
  (1 <= length (candidateMarketplaceUrls newURL inputUrl) <= 4)%nat.
Proof.
  assert (Hnil : forall n, NoDup (@nil string) /\ (length (@nil string) <= n)%nat)
    by (intros n; split; [constructor | simpl; lia]).
  assert (H : (NoDup (candidateMarketplaceUrls newURL inputUrl) /\
               (length (candidateMarketplaceUrls newURL inputUrl) <= 4)%nat) /\
              candidateMarketplaceUrls newURL inputUrl <> []).
  { unfold candidateMarketplaceUrls.
    repeat case_match; (split; [| apply Set_add_nonempty]);
      first [ apply (Set_add_ok 3), (Set_add_ok 2), (Set_add_ok 1), (Set_add_ok 0), Hnil
            | apply (Set_add_ok 3), (Set_add_ok 2), (Set_add_ok 1), Hnil
            | apply (Set_add_ok 3), (Set_add_ok 2), Hnil
            | apply (Set_add_ok 3), Hnil ]. }
  destruct H as [[Hnd Hlen] Hne]. split; [exact Hnd|].
  destruct (candidateMarketplaceUrls newURL inputUrl); [contradiction | simpl in *; lia].
Qed.

(** [X11] Whatever the input and whatever the parser makes of it, the
    resolver yields at least one and at most four candidates, and no
    candidate twice. *)
Theorem candidateMarketplaceUrls_bounds (newURL : string -> option URL)
    (inputUrl : string) :
  NoDup (candidateMarketplaceUrls newURL inputUrl) /\
  (1 <= length (candidateMarketplaceUrls newURL inputUrl) <= 4)%nat.
Proof. apply candidates_ok. Qed.

Lemma Set_add_nil (x : string) : Set_add x [] = [x].
Proof. reflexivity. Qed.

Lemma head_Set_add (x y : string) (s : list string) :
  head s = Some y -> head (Set_add x s) = Some y.
Proof.
  destruct s as [|z s]; [discriminate|]. simpl. intros [= ->]. apply Set_add_head.
Qed.

Lemma raw_prefix (a b : string) :
  Str.startsWith "https://raw.githubusercontent.com/"
    (("https://raw.githubusercontent.com/" +:+ a) +:+ b) = true.
Proof. apply startsWith_more, startsWith_append. Qed.

(** [X12] The resolver either probes the input itself first, or -- for a
    repository URL of the repository host -- probes raw-content URLs
    only. *)
Theorem candidates_input_first_or_raw_only (newURL : string -> option URL)
    (inputUrl : string) :
  head (candidateMarketplaceUrls newURL inputUrl) = Some inputUrl \/
  Forall (fun c => Str.startsWith "https://raw.githubusercontent.com/" c = true)
         (candidateMarketplaceUrls newURL inputUrl).
Proof.
  unfold candidateMarketplaceUrls. cbv zeta.
  repeat case_match;
    first [ left; rewrite Set_add_nil; repeat apply head_Set_add; reflexivity
          | right; repeat apply Set_add_Forall;
            first [apply raw_prefix | constructor] ].
Qed.

Ltac not_among :=
  let Hin := fresh "Hin" in
  intros Hin;
  repeat (apply elem_of_cons in Hin; destruct Hin as [Hin|Hin];
          [apply (inj (String.append _)) in Hin; discriminate Hin|]);
  inversion Hin.

Lemma conventions_distinct (raw : string) :
  Set_add (raw +:+ "/master/.github/plugin/marketplace.json")
    (Set_add (raw +:+ "/main/.github/plugin/marketplace.json")
      (Set_add (raw +:+ "/master/.claude-plugin/marketplace.json")
        (Set_add (raw +:+ "/main/.claude-plugin/marketplace.json") [])))
  = conventionCandidates raw.
Proof.
  rewrite Set_add_nil.
  rewrite (Set_add_fresh _ [_]) by not_among. simpl app.
  rewrite (Set_add_fresh _ [_; _]) by not_among. simpl app.
  rewrite (Set_add_fresh _ [_; _; _]) by not_among. reflexivity.
Qed.

Lemma github_candidates (newURL : string -> option URL) (inputUrl : string) (u : URL)
    (owner repo : string) (more : list string) :
  newURL inputUrl = Some u ->
  isRepositoryHostUrl u ->
  pathname u = "/" +:+ Str.join "/" (owner :: repo :: more) ->
  Forall isSegment (owner :: repo :: more) ->
  candidateMarketplaceUrls newURL inputUrl =
  let raw := "https://raw.githubusercontent.com/" +:+ owner +:+ "/" +:+ stripDotGit repo in
  match more with
  | p2 :: branch :: file :: files =>
      if String.eqb p2 "blob"
      then [raw +:+ "/" +:+ branch +:+ "/" +:+ Str.join "/" (file :: files)]
      else conventionCandidates raw
  | _ => conventionCandidates raw
  end.
Proof.
  intros Hparse [Hhttp Hhost] Hpath Hsegs. unfold candidateMarketplaceUrls.
  rewrite Hparse, Hhttp. cbn [negb].
  replace (String.eqb (Str.toLowerCase (hostname u)) "github.com"
           || String.eqb (Str.toLowerCase (hostname u)) "www.github.com") with true
    by (destruct Hhost as [-> | ->]; reflexivity).
  rewrite Hpath, pathname_parts by (assumption || discriminate).
  cbv zeta. rewrite conventions_distinct.
  destruct more as [|p2 [|branch [|file files]]]; reflexivity.
Qed.

(** [X13] For every http(s) URL of the repository host whose path is
    [/owner/repo] followed by further segments: when the third segment is
    [blob] and a branch and a file path follow, the only candidate is the
    raw-content URL of that file on that branch; in every other case the
    candidates are the four manifest locations of the repository, primary
    then secondary, each on [main] then [master]. A trailing [.git] of the
    repository name is dropped. *)
Theorem candidateMarketplaceUrls_repository_host (newURL : string -> option URL)
    (inputUrl : string) (u : URL) (owner repo : string) (more : list string) :
  newURL inputUrl = Some u ->
  isRepositoryHostUrl u ->
  pathname u = "/" +:+ Str.join "/" (owner :: repo :: more) ->
  Forall isSegment (owner :: repo :: more) ->
  candidateMarketplaceUrls newURL inputUrl =
  let raw := "https://raw.githubusercontent.com/" +:+ owner +:+ "/" +:+ stripDotGit repo in
  match more with
  | p2 :: branch :: file :: files =>
      if String.eqb p2 "blob"
      then [raw +:+ "/" +:+ branch +:+ "/" +:+ Str.join "/" (file :: files)]
      else conventionCandidates raw
  | _ => conventionCandidates raw
  end.
Proof. apply github_candidates. Qed.

(** [X14] Resolving an input makes at least one and at most four requests,
    and never requests the same URL twice. *)
Theorem resolveMarketplaceUrl_requests (newURL : string -> option URL) (World : Type)
    (authenticatedFetch : string -> World -> FetchOutcome * World)
    (inputUrl : string) (n : Net World) :
  exists tried,
    exchanges (resolveMarketplaceUrl newURL World authenticatedFetch inputUrl n).2
      = exchanges n ++ tried /\
    (1 <= length tried <= 4)%nat /\
    NoDup tried.*1.
Proof.
  unfold resolveMarketplaceUrl.
  destruct (candidates_ok newURL inputUrl) as [Hnd [Hlo Hhi]].
  destruct (probeCandidates_spec World authenticatedFetch inputUrl
              (candidateMarketplaceUrls newURL inputUrl) [] n) as (tried & Hlog & Hres).
  exists tried. split; [exact Hlog|].
  destruct (documentUrl _) as [found|].
  - destruct Hres as (failed & o & rest & Hc & Ht & _).
    rewrite Hc in Hnd, Hhi. subst tried.
    rewrite length_app, length_fmap in Hhi. simpl in Hhi.
    split; [rewrite length_app; simpl; lia|]. rewrite fmap_app. simpl.
    apply NoDup_app in Hnd. destruct Hnd as (Hf & Hdisj & Hrest).
    apply NoDup_app. repeat split; [exact Hf | | apply NoDup_singleton].
    intros x Hx Hx'. apply list_elem_of_singleton in Hx'. subst x.
    apply (Hdisj found Hx). left.
  - destruct Hres as (Hc & _). rewrite <- Hc in Hnd, Hlo, Hhi.
    rewrite length_fmap in *. split; [lia | exact Hnd].
Qed.

(** ** Repository context *)

Lemma takeWhile_segment (p : ascii -> bool) (seg : list ascii) (c : ascii)
    (rest : list ascii) :
  Forall (fun x => p x = true) seg -> p c = false ->
  Str.takeWhile p (seg ++ c :: rest) = seg /\
  Str.dropWhile p (seg ++ c :: rest) = c :: rest.
Proof.
  intros Hseg Hc. induction Hseg as [|x seg Hx _ IH]; simpl.
  - rewrite Hc. split; reflexivity.
  - rewrite Hx. destruct IH as [-> ->]. split; reflexivity.
Qed.

Lemma takeSegment_segment (seg : string) (rest : list ascii) :
  isSegment seg ->
  takeSegment (Str.chars seg ++ "/"%char :: rest) = Some (seg, rest).
Proof.
  intros [Hne Hfree]. unfold takeSegment.
  destruct (takeWhile_segment (fun c => negb (Ascii.eqb c "/")) (Str.chars seg) "/" rest)
    as [-> ->].
  - eapply Forall_impl; [exact Hfree|]. simpl. intros c Hc.
    destruct (Ascii.eqb_spec c "/"); [contradiction | reflexivity].
  - reflexivity.
  - destruct (Str.chars seg) as [|c cs] eqn:Hcs.
    + contradiction Hne. rewrite <- (ofChars_chars seg), Hcs. reflexivity.
    + rewrite <- Hcs, ofChars_chars. reflexivity.
Qed.

Lemma repoContext_of_raw (o r b rest : string) :
  isSegment o -> isSegment r -> isSegment b ->
  repoContextFromDocumentUrl
    ("https://raw.githubusercontent.com/" +:+ o +:+ "/" +:+ r +:+ "/" +:+ b +:+ "/" +:+ rest)
  = Some {| owner := o;
            repo := r;
            branch := b;
            rawBaseUrl := "https://raw.githubusercontent.com/" +:+ o +:+ "/" +:+ r
                          +:+ "/" +:+ b;
            blobBaseUrl := "https://github.com/" +:+ o +:+ "/" +:+ r +:+ "/blob/" +:+ b |}.
Proof.
  intros Ho Hr Hb. unfold repoContextFromDocumentUrl.
  rewrite !chars_append.
  change (Str.chars "/") with ["/"%char].
  set (prefix := Str.chars "https://raw.githubusercontent.com/").
  rewrite map_app.
  replace (Str.startsWithChars prefix (List.map Str.lowerChar prefix ++ _)) with true
    by (symmetry; apply (startsWithChars_app prefix)).
  rewrite drop_app_length. simpl app.
  rewrite (takeSegment_segment o) by exact Ho.
  rewrite (takeSegment_segment r) by exact Hr.
  rewrite (takeSegment_segment b) by exact Hb.
  reflexivity.
Qed.

(** [X15] A raw-content URL [.../owner/repo/branch/...] is read back into
    its owner, repository and branch, whatever follows the branch, and the
    two base URLs are built from them. *)
Theorem repoContextFromDocumentUrl_raw (o r b rest : string) :
  isSegment o -> isSegment r -> isSegment b ->
  repoContextFromDocumentUrl
    ("https://raw.githubusercontent.com/" +:+ o +:+ "/" +:+ r +:+ "/" +:+ b +:+ "/" +:+ rest)
  = Some {| owner := o;
            repo := r;
            branch := b;
            rawBaseUrl := "https://raw.githubusercontent.com/" +:+ o +:+ "/" +:+ r
                          +:+ "/" +:+ b;
            blobBaseUrl := "https://github.com/" +:+ o +:+ "/" +:+ r +:+ "/blob/" +:+ b |}.
Proof. apply repoContext_of_raw. Qed.

(** [X16] The resolver and the repository context fit: for a repository
    URL [/owner/repo] of the repository host whose repository name is
    more than a bare [.git] (something is left of it without [.git]),
    every candidate is read back into a context with that owner, that
    repository name without [.git] and the branch [main] or [master],
    whose raw base URL the candidate starts with. *)
Theorem repository_candidates_have_context (newURL : string -> option URL)
    (inputUrl : string) (u : URL) (o r : string) :
  newURL inputUrl = Some u ->
  isRepositoryHostUrl u ->
  pathname u = "/" +:+ Str.join "/" [o; r] ->
  isSegment o -> isSegment r -> isSegment (stripDotGit r) ->
  Forall (fun candidate =>
            exists ctx,
              repoContextFromDocumentUrl candidate = Some ctx /\
              owner ctx = o /\ repo ctx = stripDotGit r /\
              (branch ctx = "main" \/ branch ctx = "master") /\
              Str.startsWith (rawBaseUrl ctx) candidate = true)
         (candidateMarketplaceUrls newURL inputUrl).
Proof.
  intros Hparse Hhost Hpath Ho Hr Hr'.
  rewrite (github_candidates newURL inputUrl u o r [] Hparse Hhost Hpath)
    by (constructor; [exact Ho | constructor; [exact Hr | constructor]]).
  cbv zeta. unfold conventionCandidates.
  assert (Hmain : isSegment "main") by (split; [discriminate | repeat constructor; discriminate]).
  assert (Hmaster : isSegment "master")
    by (split; [discriminate | repeat constructor; discriminate]).
  assert (Hctx : forall b tail, isSegment b -> (b = "main" \/ b = "master") ->
            exists ctx,
              repoContextFromDocumentUrl
                (("https://raw.githubusercontent.com/" +:+ o +:+ "/" +:+ stripDotGit r)
                 +:+ "/" +:+ b +:+ "/" +:+ tail) = Some ctx /\
              owner ctx = o /\ repo ctx = stripDotGit r /\
              (branch ctx = "main" \/ branch ctx = "master") /\
              Str.startsWith (rawBaseUrl ctx)
                (("https://raw.githubusercontent.com/" +:+ o +:+ "/" +:+ stripDotGit r)
                 +:+ "/" +:+ b +:+ "/" +:+ tail) = true).
  { intros b tail Hb Hbranch. eexists. split.
    - rewrite !append_assoc. apply (repoContext_of_raw o (stripDotGit r) b tail); assumption.
    - cbn [owner repo branch rawBaseUrl]. repeat split; [exact Hbranch|].
      rewrite !append_assoc.
      replace ("https://raw.githubusercontent.com/" +:+ o +:+ "/" +:+ stripDotGit r
               +:+ "/" +:+ b +:+ "/" +:+ tail)
        with (("https://raw.githubusercontent.com/" +:+ o +:+ "/" +:+ stripDotGit r
               +:+ "/" +:+ b) +:+ "/" +:+ tail)
        by (rewrite !append_assoc; reflexivity).
      apply startsWith_append. }
  repeat constructor.
  - apply (Hctx "main" ".claude-plugin/marketplace.json" Hmain). left. reflexivity.
  - apply (Hctx "master" ".claude-plugin/marketplace.json" Hmaster). right. reflexivity.
  - apply (Hctx "main" ".github/plugin/marketplace.json" Hmain). left. reflexivity.
  - apply (Hctx "master" ".github/plugin/marketplace.json" Hmaster). right. reflexivity.
Qed.

(** ** Trimmed strings *)

Section Strip.

Variable p : ascii -> bool.

Lemma dropWhile_head (l : list ascii) (c : ascii) (r : list ascii) :
  Str.dropWhile p l = c :: r -> p c = false.
Proof.
  induction l as [|x l IH]; simpl; [discriminate|].
  destruct (p x) eqn:Hx; [exact IH|]. intros [= <- _]. exact Hx.
Qed.

Lemma dropWhile_split (l : list ascii) :
  exists dropped, l = dropped ++ Str.dropWhile p l.
Proof.
  induction l as [|x l [dropped IH]]; simpl; [exists []; reflexivity|].
  destruct (p x); [|exists []; reflexivity].
  exists (x :: dropped). simpl. f_equal. exact IH.
Qed.

Lemma dropWhile_idempotent (l : list ascii) :
  Str.dropWhile p (Str.dropWhile p l) = Str.dropWhile p l.
Proof.
  destruct (Str.dropWhile p l) as [|c r] eqn:Hd; [reflexivity|].
  apply dropWhile_head in Hd. simpl. rewrite Hd. reflexivity.
Qed.

Lemma strip_front (l : list ascii) :
  Str.dropWhile p (rev (Str.dropWhile p (rev (Str.dropWhile p l)))) =
  rev (Str.dropWhile p (rev (Str.dropWhile p l))).
Proof.
  set (m := Str.dropWhile p l).
  destruct (dropWhile_split (rev m)) as [dropped Hsplit].
  set (t := Str.dropWhile p (rev m)) in *.
  assert (Hm : m = rev t ++ rev dropped).
  { rewrite <- (rev_involutive m), Hsplit, rev_app_distr. reflexivity. }
  destruct (rev t) as [|c r] eqn:Hrt; [reflexivity|].
  simpl in Hm. subst m. apply dropWhile_head in Hm. simpl. rewrite Hm. reflexivity.
Qed.

Lemma strip_idempotent (l : list ascii) :
  rev (Str.dropWhile p (rev (Str.dropWhile p
    (rev (Str.dropWhile p (rev (Str.dropWhile p l))))))) =
  rev (Str.dropWhile p (rev (Str.dropWhile p l))).
Proof.
  rewrite strip_front, rev_involutive, strip_front. reflexivity.
Qed.

End Strip.

(** ** White space *)

Section Spaces.

Variable two : ascii -> ascii -> bool.
Variable three : ascii -> ascii -> ascii -> bool.

(** The cases of a text by the white space it starts with. *)
Ltac space_cases cs :=
  let a := fresh "a" in let b := fresh "b" in let c := fresh "c" in
  let r1 := fresh "r" in let r2 := fresh "r" in let r3 := fresh "r" in
  destruct cs as [|a r1]; simpl in *;
  [|destruct (Str.isSpace a); simpl in *;
    [|destruct r1 as [|b r2]; simpl in *;
      [|destruct (two a b); simpl in *;
        [|destruct r2 as [|c r3]; simpl in *;
          [|destruct (three a b c); simpl in *]]]]].

Lemma spaceWidth_length (cs : list ascii) :
  (Str.spaceWidth two three cs <= length cs)%nat.
Proof. space_cases cs; lia. Qed.

Lemma dropSpaces_fixed (cs : list ascii) :
  Str.spaceWidth two three cs = 0%nat -> Str.dropSpaces two three cs = cs.
Proof. intros H. space_cases cs; first [reflexivity | discriminate H]. Qed.

Lemma dropSpaces_step (cs : list ascii) :
  Str.spaceWidth two three cs <> 0%nat ->
  Str.dropSpaces two three cs
  = Str.dropSpaces two three (drop (Str.spaceWidth two three cs) cs).
Proof.
  intros H. space_cases cs; first [reflexivity | exfalso; apply H; reflexivity].
Qed.

(** Induction along the steps of [dropSpaces]. *)
Lemma dropSpaces_ind (P : list ascii -> list ascii -> Prop) :
  (forall cs, Str.spaceWidth two three cs = 0%nat -> P cs cs) ->
  (forall cs out, Str.spaceWidth two three cs <> 0%nat ->
                  P (drop (Str.spaceWidth two three cs) cs) out -> P cs out) ->
  forall cs, P cs (Str.dropSpaces two three cs).
Proof.
  intros Hstop Hstep cs.
  remember (length cs) as n eqn:Hn. revert cs Hn.
  induction n as [n IH] using lt_wf_ind. intros cs Hn.
  destruct (Nat.eq_dec (Str.spaceWidth two three cs) 0%nat) as [Hw|Hw].
  - rewrite (dropSpaces_fixed cs Hw). apply Hstop, Hw.
  - rewrite (dropSpaces_step cs Hw). apply Hstep; [exact Hw|].
    apply (IH (length (drop (Str.spaceWidth two three cs) cs))); [|reflexivity].
    rewrite length_drop. pose proof (spaceWidth_length cs). lia.
Qed.

Lemma dropSpaces_Forall (Q : ascii -> Prop) (cs : list ascii) :
  Forall Q cs -> Forall Q (Str.dropSpaces two three cs).
Proof.
  apply (dropSpaces_ind (fun cs out => Forall Q cs -> Forall Q out)).
  - auto.
  - intros l out _ IH H. apply IH, Forall_drop, H.
Qed.

Lemma dropSpaces_split (cs : list ascii) :
  exists dropped, cs = dropped ++ Str.dropSpaces two three cs.
Proof.
  apply (dropSpaces_ind (fun cs out => exists dropped, cs = dropped ++ out)).
  - intros l _. exists []. reflexivity.
  - intros l out _ [dropped IH].
    exists (take (Str.spaceWidth two three l) l ++ dropped).
    rewrite <- app_assoc, <- IH, take_drop. reflexivity.
Qed.

Lemma dropSpaces_clean (cs : list ascii) :
  Str.spaceWidth two three (Str.dropSpaces two three cs) = 0%nat.
Proof.
  apply (dropSpaces_ind (fun _ out => Str.spaceWidth two three out = 0%nat)); auto.
Qed.

Lemma dropSpaces_idempotent (cs : list ascii) :
  Str.dropSpaces two three (Str.dropSpaces two three cs) = Str.dropSpaces two three cs.
Proof. apply dropSpaces_fixed, dropSpaces_clean. Qed.

Lemma spaceWidth_app (cs more : list ascii) :
  Str.spaceWidth two three (cs ++ more) = 0%nat -> Str.spaceWidth two three cs = 0%nat.
Proof. intros H. space_cases cs; first [reflexivity | discriminate H]. Qed.

Lemma dropSpaces_all (cs : list ascii) :
  Forall (fun c => Str.isSpace c = true) cs -> Str.dropSpaces two three cs = [].
Proof.
  induction 1 as [|c cs Hc _ IH]; simpl; [reflexivity|]. rewrite Hc. exact IH.
Qed.

End Spaces.

Lemma trimEndChars_prefix (cs : list ascii) :
  exists dropped, cs = Str.trimEndChars cs ++ dropped.
Proof.
  unfold Str.trimEndChars.
  destruct (dropSpaces_split Str.isSpace2Rev Str.isSpace3Rev (rev cs)) as [dropped H].
  exists (rev dropped).
  rewrite <- rev_app_distr, <- H, rev_involutive. reflexivity.
Qed.

Lemma trimChars_idempotent (cs : list ascii) :
  Str.trimEndChars (Str.trimStartChars (Str.trimEndChars (Str.trimStartChars cs)))
  = Str.trimEndChars (Str.trimStartChars cs).
Proof.
  set (m := Str.trimStartChars cs).
  assert (Hfront : Str.trimStartChars (Str.trimEndChars m) = Str.trimEndChars m).
  { apply dropSpaces_fixed.
    destruct (trimEndChars_prefix m) as [dropped Hm].
    apply (spaceWidth_app _ _ _ dropped). rewrite <- Hm.
    apply dropSpaces_clean. }
  rewrite Hfront. unfold Str.trimEndChars. rewrite rev_involutive.
  rewrite dropSpaces_idempotent. reflexivity.
Qed.

Lemma trim_idempotent (s : string) : Str.trim (Str.trim s) = Str.trim s.
Proof.
  unfold Str.trim. rewrite chars_ofChars, trimChars_idempotent. reflexivity.
Qed.

Lemma asString_trimmed (value : unknown) (s : string) :
  asString value = Some s -> isTrimmed s.
Proof.
  destruct value as [[| | |raw| |]|]; simpl; try discriminate.
  destruct (Str.trim raw) as [|c t] eqn:Ht; simpl; [discriminate|].
  intros [= <-]. split; [discriminate|].
  rewrite <- Ht. apply trim_idempotent.
Qed.

Lemma orElse_asString (a b : option string) (s : string) :
  a ?? b = Some s -> a = Some s \/ b = Some s.
Proof. destruct a; simpl; intros H; [left | right]; exact H. Qed.

Section PluginFacts.

Context {host : Host}.

Lemma normalizePlugin_invariants (entry : JSON) (srcUrl manifestUrl : string)
    (rc : option RepoContext) (p : MarketplacePlugin) :
  plugin (normalizePlugin entry srcUrl manifestUrl rc) = Some p ->
  isTrimmed (id p) /\ isTrimmed (name p) /\
  (name p = id p \/ asString (getProp "name" (raw p)) = Some (name p)) /\
  (exists v, version p = Some v /\ isTrimmed v) /\
  sourceUrl p = srcUrl /\ marketplaceDocumentUrl p = manifestUrl /\
  entry = JObject (raw p) /\
  groups p = extractPluginGroups (raw p) rc.
Proof.
  unfold normalizePlugin. destruct entry as [| | | | |record]; simpl; try discriminate.
  destruct (asString (getProp "id" record) ?? asString (getProp "slug" record)
              ?? asString (getProp "name" record)) as [i|] eqn:Hid; [|discriminate].
  intros [= <-]. cbn [id name version sourceUrl marketplaceDocumentUrl raw groups].
  assert (Hi : isTrimmed i).
  { apply orElse_asString in Hid. destruct Hid as [Hid|Hid].
    - apply orElse_asString in Hid. destruct Hid as [Hid|Hid];
        eapply asString_trimmed; exact Hid.
    - eapply asString_trimmed; exact Hid. }
  split; [exact Hi|].
  split.
  { destruct (asString (getProp "name" record)) as [n|] eqn:Hn; simpl; [|exact Hi].
    eapply asString_trimmed; exact Hn. }
  split.
  { destruct (asString (getProp "name" record)) as [n|]; simpl; [right|left]; reflexivity. }
  split.
  { eexists. split; [reflexivity|].
    destruct (asString (getProp "version" record) ?? asString (getProp "latestVersion" record)
              ?? asString (getPropOpt "version" (asRecord (getProp "manifest" record))))
      as [v|] eqn:Hv; simpl.
    - apply orElse_asString in Hv. destruct Hv as [Hv|Hv].
      + apply orElse_asString in Hv. destruct Hv as [Hv|Hv];
          eapply asString_trimmed; exact Hv.
      + eapply asString_trimmed; exact Hv.
    - split; [discriminate | reflexivity]. }
  repeat split.
Qed.

(** The fields of a plugin, read off the entry it was made from. *)
Lemma normalizePlugin_fields (entry : JSON) (srcUrl manifestUrl : string)
    (rc : option RepoContext) (p : MarketplacePlugin) :
  plugin (normalizePlugin entry srcUrl manifestUrl rc) = Some p ->
  Some (id p) = asString (getProp "id" (raw p)) ?? asString (getProp "slug" (raw p))
                ?? asString (getProp "name" (raw p)) /\
  name p = default (id p) (asString (getProp "name" (raw p))) /\
  description p = asString (getProp "description" (raw p)) /\
  version p =
    Some (default "unknown"
            (asString (getProp "version" (raw p))
             ?? asString (getProp "latestVersion" (raw p))
             ?? asString (getPropOpt "version" (asRecord (getProp "manifest" (raw p)))))) /\
  downloadUrl p =
    asString (getProp "downloadUrl" (raw p)) ?? asString (getProp "url" (raw p))
    ?? asString (getPropOpt "url" (asRecord (getProp "package" (raw p)))).
Proof.
  unfold normalizePlugin. destruct entry as [| | | | |record]; simpl; try discriminate.
  destruct (asString (getProp "id" record) ?? asString (getProp "slug" record)
              ?? asString (getProp "name" record)) as [i|] eqn:Hid; [|discriminate].
  intros [= <-]. cbn [id name description version downloadUrl raw].
  rewrite Hid. repeat split.
Qed.

(** [X17] Every plugin of a normalised document is made from an entry of
    the extracted list, kept as [raw], and from it alone: its [id] is the
    first of the entry's [id], [slug] and [name] that is a string with
    something other than white space in it; its [name] is the entry's
    [name] when that is such a string and the [id] otherwise; its
    [description] and [downloadUrl] are read the same way, the latter
    from [downloadUrl], [url] or [package.url]; its [version] is the
    first of [version], [latestVersion] and [manifest.version], and
    ["unknown"] when none is given. [id], [name] and [version] are not
    empty and carry no surrounding white space. The plugin records the
    source URL and the document URL, and its groups are those extracted
    from the entry. *)
Theorem normalized_plugins_well_formed (document : unknown) (srcUrl : string)
    (manifestUrl : option string) (rc : option RepoContext) :
  Forall (fun p =>
            isTrimmed (id p) /\ isTrimmed (name p) /\
            Some (id p) = asString (getProp "id" (raw p))
                          ?? asString (getProp "slug" (raw p))
                          ?? asString (getProp "name" (raw p)) /\
            name p = default (id p) (asString (getProp "name" (raw p))) /\
            description p = asString (getProp "description" (raw p)) /\
            version p =
              Some (default "unknown"
                      (asString (getProp "version" (raw p))
                       ?? asString (getProp "latestVersion" (raw p))
                       ?? asString (getPropOpt "version"
                                      (asRecord (getProp "manifest" (raw p)))))) /\
            (exists v, version p = Some v /\ isTrimmed v) /\
            downloadUrl p =
              asString (getProp "downloadUrl" (raw p)) ?? asString (getProp "url" (raw p))
              ?? asString (getPropOpt "url" (asRecord (getProp "package" (raw p)))) /\
            sourceUrl p = srcUrl /\
            marketplaceDocumentUrl p = default srcUrl manifestUrl /\
            JObject (raw p) ∈ getPluginList document /\
            groups p = extractPluginGroups (raw p) rc)
         (plugins (normalizeMarketplaceDocument document srcUrl manifestUrl rc)).
Proof.
  unfold normalizeMarketplaceDocument.
  set (ws0 := if (length (getPluginList document) =? 0)%nat then _ else _).
  destruct (normalizeEntries_spec srcUrl (default srcUrl manifestUrl) rc
              (getPluginList document) [] ws0)
    as (ps' & ws' & Hrun & Hps & _).
  rewrite Hrun. simpl. subst ps'.
  apply Forall_forall. intros p Hp.
  apply list_elem_of_omap in Hp. destruct Hp as (entry & Hentry & Hplugin).
  destruct (normalizePlugin_invariants entry srcUrl (default srcUrl manifestUrl) rc p Hplugin)
    as (H1 & H2 & _ & H4 & H5 & H6 & H7 & H8).
  destruct (normalizePlugin_fields entry srcUrl (default srcUrl manifestUrl) rc p Hplugin)
    as (F1 & F2 & F3 & F4 & F5).
  split; [exact H1|]. split; [exact H2|]. split; [exact F1|]. split; [exact F2|].
  split; [exact F3|]. split; [exact F4|]. split; [exact H4|]. split; [exact F5|].
  split; [exact H5|]. split; [exact H6|]. split; [|exact H8].
  rewrite <- H7. exact Hentry.
Qed.

(** ** Groups and their items *)

Lemma firstsFrom_unchanged {V : Type} (keyOf : V -> string) (xs : list V) : forall seen,
  NoDup (List.map keyOf xs) ->
  Forall (fun x => ~ (keyOf x ∈ seen)) xs ->
  firstsFrom keyOf seen xs = xs.
Proof.
  induction xs as [|x xs IH]; intros seen Hnd Hseen; [reflexivity|].
  simpl in *. apply NoDup_cons in Hnd. destruct Hnd as [Hx Hnd].
  apply Forall_cons in Hseen. destruct Hseen as [Hxs Hseen].
  rewrite bool_decide_eq_false_2 by exact Hxs. f_equal.
  apply IH; [exact Hnd|].
  apply Forall_forall. intros y Hy Hin.
  apply elem_of_app in Hin. destruct Hin as [Hin|Hin].
  - rewrite Forall_forall in Hseen. exact (Hseen y Hy Hin).
  - apply list_elem_of_singleton in Hin. apply Hx.
    rewrite <- Hin. apply list_elem_of_In, in_map, list_elem_of_In. exact Hy.
Qed.

(** [X18] Merging two item lists of a group, whatever the host's
    [toLowerCase] makes of a name: no two items of the result have the
    same lower-cased name; the result keeps the order of the primary list
    followed by the secondary one; every item of either list has an item
    of its lower-cased name in the result; each item of the result is the
    first of its lower-cased name in that order; and merging the result
    again with nothing changes nothing. *)
Theorem mergeGroupItems_unique_names (primary secondary : list MarketplaceGroupItem) :
  let merged := mergeGroupItems primary secondary in
  NoDup (List.map itemKey merged) /\
  sublist merged (primary ++ secondary) /\
  Forall (fun item => exists kept, kept ∈ merged /\ itemKey kept = itemKey item)
         (primary ++ secondary) /\
  Forall (fun kept => exists before after,
                        primary ++ secondary = before ++ kept :: after /\
                        Forall (fun item => itemKey item <> itemKey kept) before)
         merged /\
  mergeGroupItems merged [] = merged.
Proof.
  intros merged. subst merged. unfold mergeGroupItems.
  change (fun item => toLowerCase (item_name item)) with itemKey.
  rewrite !keepFirstBy_firstsFrom, app_nil_r.
  split; [apply firstsFrom_NoDup|].
  split; [apply firstsFrom_sublist|].
  split.
  { eapply Forall_impl; [apply (firstsFrom_covers itemKey (primary ++ secondary) [])|].
    simpl. intros item [Hin | H]; [inversion Hin | exact H]. }
  split.
  { eapply Forall_impl; [apply (firstsFrom_first itemKey (primary ++ secondary) [])|].
    simpl. intros kept (_ & H). exact H. }
  apply firstsFrom_unchanged; [apply firstsFrom_NoDup|].
  apply Forall_forall. intros x _ Hin. inversion Hin.
Qed.

Lemma omap_sublist {A B : Type} (f : A -> option B) (g : B -> A) (l : list A) :
  (forall x y, f x = Some y -> g y = x) ->
  sublist (List.map g (omap f l)) l.
Proof.
  intros Hfg. induction l as [|x l IH]; simpl; [constructor|].
  destruct (f x) as [y|] eqn:Hy; simpl.
  - rewrite (Hfg x y Hy). apply sublist_skip. exact IH.
  - apply sublist_cons. exact IH.
Qed.

Lemma sublist_map {A B : Type} (f : A -> B) (l1 l2 : list A) :
  sublist l1 l2 -> sublist (List.map f l1) (List.map f l2).
Proof. induction 1; simpl; constructor; assumption. Qed.

Lemma extractPluginGroups_omap (record : UnknownRecord) (rc : option RepoContext) :
  extractPluginGroups record rc =
  omap (fun '(key, name) =>
          let items := collectGroupValues record key rc in
          if (0 <? length items)%nat
          then Some {| group_name := name; group_key := key; group_items := items |}
          else None) groupDefinitions.
Proof.
  unfold extractPluginGroups.
  set (step := fun (groups : list MarketplacePluginGroup) '(key, name) => _).
  set (pick := fun '(key, name) => _).
  assert (H : forall defs acc, fold_left step defs acc = acc ++ omap pick defs).
  { induction defs as [|[key name] defs IH]; intros acc; simpl.
    - rewrite app_nil_r. reflexivity.
    - rewrite IH.
      destruct (0 <? length (collectGroupValues record key rc))%nat; simpl;
        [rewrite <- app_assoc|]; reflexivity. }
  apply (H groupDefinitions []).
Qed.

(** [X19] The groups extracted from a plugin entry, whatever the host's
    [toLowerCase] makes of a name: every group has at least one item, its
    items are those collected for its key, with no two of the same
    lower-cased name; the groups come in the fixed order skills, agents,
    commands, tools, prompts, workflows, each at most once and under its
    display name, so there are never more than six. *)
Theorem extractPluginGroups_well_formed (record : UnknownRecord) (rc : option RepoContext) :
  let groups := extractPluginGroups record rc in
  Forall (fun g => group_items g <> [] /\
                   group_items g = collectGroupValues record (group_key g) rc /\
                   NoDup (List.map itemKey (group_items g))) groups /\
  sublist (List.map (fun g => (group_key g, group_name g)) groups) groupDefinitions /\
  NoDup (List.map group_key groups) /\
  (length groups <= 6)%nat.
Proof.
  intros groups. subst groups. rewrite extractPluginGroups_omap.
  set (f := fun '(key, name) => _).
  assert (Hsub : sublist (List.map (fun g => (group_key g, group_name g))
                            (omap f groupDefinitions)) groupDefinitions).
  { apply omap_sublist. intros [key name] g. subst f. simpl.
    destruct (0 <? length (collectGroupValues record key rc))%nat; [|discriminate].
    intros [= <-]. reflexivity. }
  split.
  { apply Forall_forall. intros g Hg. apply list_elem_of_omap in Hg.
    destruct Hg as ([key name] & _ & Hg). subst f. simpl in Hg.
    destruct (0 <? length (collectGroupValues record key rc))%nat eqn:Hlen; [|discriminate].
    injection Hg as <-. simpl. split.
    - intros Hnil. rewrite Hnil in Hlen. discriminate.
    - split; [reflexivity|]. unfold collectGroupValues, mergeGroupItems.
      change (fun item => toLowerCase (item_name item)) with itemKey.
      rewrite keepFirstBy_firstsFrom. apply firstsFrom_NoDup. }
  split; [exact Hsub|].
  split.
  { assert (Hkeys : sublist (List.map group_key (omap f groupDefinitions))
                      (List.map fst groupDefinitions)).
    { replace (List.map group_key (omap f groupDefinitions))
        with (List.map fst (List.map (fun g => (group_key g, group_name g))
                              (omap f groupDefinitions)))
        by (rewrite List.map_map; reflexivity).
      apply sublist_map. exact Hsub. }
    eapply sublist_NoDup; [|exact Hkeys].
    vm_compute. repeat (constructor; [intros Hin; repeat (apply elem_of_cons in Hin;
      destruct Hin as [Hin|Hin]; [discriminate Hin|]); inversion Hin|]). constructor. }
  apply sublist_length in Hsub. rewrite length_map in Hsub. exact Hsub.
Qed.

Ltac shape :=
  unfold itemShape; cbn [docUrl metadataUrl metadataFallbackUrls item_path];
  split; [split; intros [x Hx]; first [discriminate Hx | eexists; reflexivity]|];
  split; [intros Hx; first [discriminate Hx | reflexivity]|];
  split; [simpl; lia|];
  intros Hrc; first [discriminate Hrc | idtac].

Lemma buildItemFromPath_shape (pathValue groupKey : string) (rc : option RepoContext) :
  itemShape rc (buildItemFromPath pathValue groupKey rc).
Proof.
  unfold buildItemFromPath.
  set (cleaned := normalizeRelativePath pathValue).
  destruct rc as [ctx|].
  - destruct (isHttpUrl cleaned) eqn:Hhttp; [shape|].
    destruct (isMarkdownPath cleaned); [shape|].
    unfold descriptorDefaultsForGroup.
    destruct (String.eqb groupKey "skills"); [|destruct (String.eqb groupKey "agents")];
      shape.
  - destruct (isHttpUrl cleaned) eqn:Hhttp; shape.
    + split; [reflexivity|]. intros url [= <-]. split; [reflexivity | exact Hhttp].
    + split; [reflexivity|]. intros url Hu. discriminate Hu.
Qed.

Lemma bareItem_shape (rc : option RepoContext) (n : string) (d : option string) :
  itemShape rc {| item_name := n; item_path := None; metadataUrl := None;
                  metadataFallbackUrls := []; docUrl := None; item_description := d |}.
Proof.
  shape. split; [reflexivity|]. intros url Hu. discriminate Hu.
Qed.

Lemma buildGroupItem_shape (entry : unknown) (groupKey : string) (rc : option RepoContext)
    (item : MarketplaceGroupItem) :
  buildGroupItem entry groupKey rc = Some item -> itemShape rc item.
Proof.
  unfold buildGroupItem.
  destruct entry as [[| | |s|items|record]|]; simpl; try discriminate.
  - intros [= <-]. apply buildItemFromPath_shape.
  - destruct (asString (getProp "path" record) ?? asString (getProp "source" record)
              ?? asString (getProp "url" record)) as [pathValue|].
    + intros [= <-]. exact (buildItemFromPath_shape pathValue groupKey rc).
    + destruct (summaryFromRecord record) as [n|]; [|discriminate].
      intros [= <-]. apply bareItem_shape.
Qed.

Lemma toGroupItems_shape (value : unknown) (groupKey : string) (rc : option RepoContext) :
  Forall (itemShape rc) (toGroupItems value groupKey rc).
Proof.
  unfold toGroupItems.
  destruct value as [[| | |s|entries|record]|]; cbn [asRecord]; try constructor.
  - apply Forall_forall. intros item Hitem. apply list_elem_of_omap in Hitem.
    destruct Hitem as (entry & _ & Hitem).
    exact (buildGroupItem_shape (Some entry) groupKey rc item Hitem).
  - induction record as [|[key entryValue] record IH]; cbn [List.map];
      constructor; [|exact IH].
    destruct (buildGroupItem (Some entryValue) groupKey rc) as [item|] eqn:Hitem.
    + exact (buildGroupItem_shape (Some entryValue) groupKey rc item Hitem).
    + apply bareItem_shape.
Qed.

Lemma sublist_Forall {A : Type} (P : A -> Prop) (l1 l2 : list A) :
  sublist l1 l2 -> Forall P l2 -> Forall P l1.
Proof.
  intros Hsub. induction Hsub as [|x l1 l2 _ IH|x l1 l2 _ IH]; intros HF;
    [constructor | |].
  - apply Forall_cons in HF. destruct HF as [Hx HF]. constructor; auto.
  - apply Forall_cons in HF. destruct HF as [_ HF]. auto.
Qed.

(** [X20] Every item of every group extracted from a plugin entry has a
    link to read exactly when it has a descriptor to fetch, has fall-back
    URLs only beside a first URL and at most two of them, and -- when the
    marketplace has no repository context -- can only have its own path,
    an absolute http(s) URL, as descriptor: a relative path cannot be
    previewed without a repository. *)
Theorem extracted_items_shape (record : UnknownRecord) (rc : option RepoContext) :
  Forall (fun g => Forall (itemShape rc) (group_items g))
         (extractPluginGroups record rc).
Proof.
  rewrite extractPluginGroups_omap.
  apply Forall_forall. intros g Hg. apply list_elem_of_omap in Hg.
  destruct Hg as ([key name] & _ & Hg). simpl in Hg.
  destruct (0 <? length (collectGroupValues record key rc))%nat; [|discriminate].
  injection Hg as <-. simpl.
  unfold collectGroupValues, mergeGroupItems. rewrite keepFirstBy_firstsFrom.
  eapply sublist_Forall; [apply firstsFrom_sublist|].
  apply Forall_app. split; apply toGroupItems_shape.
Qed.

End PluginFacts.


(** ** Names of install directories *)

Lemma dropWhile_Forall (P : ascii -> Prop) (p : ascii -> bool) (l : list ascii) :
  Forall P l -> Forall P (Str.dropWhile p l).
Proof.
  induction 1 as [|x l Hx Hl IH]; simpl; [constructor|].
  destruct (p x); [exact IH | constructor; assumption].
Qed.

Lemma rev_Forall (P : ascii -> Prop) (l : list ascii) : Forall P l -> Forall P (rev l).
Proof.
  intros H. apply Forall_forall. intros x Hx.
  rewrite Forall_forall in H. apply H.
  apply list_elem_of_In. apply list_elem_of_In, in_rev in Hx. exact Hx.
Qed.

Lemma stripDashes_Forall (P : ascii -> Prop) (l : list ascii) :
  Forall P l -> Forall P (stripDashes l).
Proof.
  intros H. unfold stripDashes.
  apply rev_Forall, dropWhile_Forall, rev_Forall, dropWhile_Forall. exact H.
Qed.

Lemma replaceRuns_allowed (cs : list ascii) : forall inRun,
  Forall (fun c => isSegmentChar c = true) (replaceRuns inRun cs).
Proof.
  induction cs as [|c cs IH]; intros inRun; simpl; [constructor|].
  destruct (isSegmentChar c) eqn:Hc; [constructor; [exact Hc | apply IH]|].
  destruct inRun; [apply IH|]. constructor; [reflexivity | apply IH].
Qed.

Lemma replaceRuns_fixed (cs : list ascii) : forall inRun,
  Forall (fun c => isSegmentChar c = true) cs -> replaceRuns inRun cs = cs.
Proof.
  induction cs as [|c cs IH]; intros inRun H; [reflexivity|].
  apply Forall_cons in H. destruct H as [Hc H]. simpl. rewrite Hc. f_equal.
  apply IH. exact H.
Qed.

Lemma segmentChar_lower (c : ascii) : isSegmentChar c = true -> Str.lowerChar c = c.
Proof.
  destruct c as [[] [] [] [] [] [] [] []]; vm_compute; intros H;
    first [reflexivity | discriminate H].
Qed.

Lemma segmentChars_lower (cs : list ascii) :
  Forall (fun c => isSegmentChar c = true) cs -> List.map Str.lowerChar cs = cs.
Proof.
  induction 1 as [|c cs Hc _ IH]; simpl; [reflexivity|].
  rewrite (segmentChar_lower c Hc), IH. reflexivity.
Qed.

Lemma len_positive (s : string) : (0 <? Str.len s)%nat = true <-> s <> "".
Proof.
  destruct s as [|c s]; unfold Str.len; simpl; split; intros H.
  - discriminate H.
  - contradiction H. reflexivity.
  - discriminate.
  - reflexivity.
Qed.

Lemma sanitizePathSegment_safe (value : string) : isSafeSegment (sanitizePathSegment value).
Proof.
  unfold sanitizePathSegment.
  set (cs := replaceRuns false (Str.chars (Str.toLowerCase value))).
  destruct (0 <? Str.len (Str.ofChars (stripDashes cs)))%nat eqn:Hlen.
  - split; [apply len_positive; exact Hlen|].
    rewrite chars_ofChars. split.
    + apply stripDashes_Forall, replaceRuns_allowed.
    + apply (strip_idempotent isDash).
  - split; [discriminate|]. split; [|reflexivity].
    repeat constructor.
Qed.

Lemma sanitizePathSegment_fixed (s : string) :
  isSafeSegment s -> sanitizePathSegment s = s.
Proof.
  intros (Hne & Hchars & Hstrip). unfold sanitizePathSegment, Str.toLowerCase.
  rewrite (segmentChars_lower _ Hchars), ofChars_chars.
  rewrite (replaceRuns_fixed _ false Hchars), Hstrip, ofChars_chars.
  apply len_positive in Hne. rewrite Hne. reflexivity.
Qed.

(** [X21] The directory name made from any string is not empty, consists
    of lower-case letters, digits, dots, underscores and dashes only -- so
    it holds no path separator -- and neither begins nor ends with a dash.
    Making a name from such a name gives it back: a name that is already
    fit is kept as it is. *)
Theorem sanitizePathSegment_fit (value : string) :
  isSafeSegment (sanitizePathSegment value) /\
  Forall (fun c => c <> "/"%char /\ c <> "\"%char) (Str.chars (sanitizePathSegment value)) /\
  sanitizePathSegment (sanitizePathSegment value) = sanitizePathSegment value /\
  (forall s, isSafeSegment s -> sanitizePathSegment s = s).
Proof.
  pose proof (sanitizePathSegment_safe value) as Hsafe.
  split; [exact Hsafe|]. split.
  { destruct Hsafe as (_ & Hchars & _). eapply Forall_impl; [exact Hchars|]. simpl.
    intros c Hc. split; intros ->; discriminate Hc. }
  split; [apply sanitizePathSegment_fixed; exact Hsafe|].
  apply sanitizePathSegment_fixed.
Qed.

(** [X22] The directory names of a marketplace and of a plugin are fit in
    that sense, whatever the source URL -- also one that does not parse --
    and whatever the plugin's name and id. *)
Theorem install_names_fit (newURL : string -> option URL) (sourceUrl : string)
    (plugin : MarketplacePlugin) :
  isSafeSegment (getMarketplaceName newURL sourceUrl) /\
  isSafeSegment (getPluginName plugin).
Proof.
  split; [|apply sanitizePathSegment_safe].
  assert (Hdefault : isSafeSegment "marketplace").
  { split; [discriminate|]. split; [repeat constructor | reflexivity]. }
  assert (Hfirst : forall segments,
            isSafeSegment (default "marketplace" (firstNamingSegment segments))).
  { induction segments as [|segment rest IH]; simpl; [exact Hdefault|].
    destruct (negb _); [apply sanitizePathSegment_safe | exact IH]. }
  unfold getMarketplaceName.
  destruct (newURL sourceUrl) as [parsed|]; [|apply sanitizePathSegment_safe].
  destruct (includes "github.com" (hostname parsed)); [|apply Hfirst].
  destruct (List.filter Str.truthy (Str.split "/" (pathname parsed))) as [|a [|b rest]];
    first [apply sanitizePathSegment_safe | apply Hfirst].
Qed.


(** ** Descriptor summaries *)

Lemma trim_Forall (P : ascii -> Prop) (s : string) :
  Forall P (Str.chars s) -> Forall P (Str.chars (Str.trim s)).
Proof.
  intros H. unfold Str.trim, Str.trimEndChars, Str.trimStartChars.
  rewrite chars_ofChars.
  apply rev_Forall, dropSpaces_Forall, rev_Forall, dropSpaces_Forall, H.
Qed.

Lemma unquote_Forall (P : ascii -> Prop) (s : string) :
  Forall P (Str.chars s) -> Forall P (Str.chars (unquote s)).
Proof.
  intros H. unfold unquote. rewrite chars_ofChars.
  set (cs1 := match Str.chars s with
              | [] => Str.chars s
              | c :: rest => if isQuote c then rest else Str.chars s
              end).
  assert (H1 : Forall P cs1).
  { subst cs1. destruct (Str.chars s) as [|c rest]; [exact H|].
    destruct (isQuote c); [inversion H; assumption | exact H]. }
  clearbody cs1. destruct (rev cs1) as [|c rest] eqn:Hrev; [exact H1|].
  destruct (isQuote c); [|exact H1].
  apply rev_Forall. apply rev_Forall in H1. rewrite Hrev in H1.
  inversion H1; assumption.
Qed.

Lemma drop_Forall (P : ascii -> Prop) (k : nat) (l : list ascii) :
  Forall P l -> Forall P (drop k l).
Proof. intros H. apply Forall_drop. exact H. Qed.

Lemma matchField_Forall (P : ascii -> Prop) (key line value : string) :
  Forall P (Str.chars line) -> matchField key line = Some value ->
  Forall P (Str.chars value).
Proof.
  intros H. unfold matchField, Str.trimStartChars.
  destruct (Str.startsWithChars _ _); [|discriminate].
  assert (H1 := dropSpaces_Forall Str.isSpace2 Str.isSpace3 P _
                  (drop_Forall P (length (Str.chars key)) _ H)).
  destruct (Str.dropSpaces Str.isSpace2 Str.isSpace3 (drop _ (Str.chars line)))
    as [|colon afterColon]; [discriminate|].
  destruct (Ascii.eqb colon ":"); [|discriminate].
  inversion H1 as [|? ? _ H2]; subst.
  assert (H3 := dropSpaces_Forall Str.isSpace2 Str.isSpace3 P _ H2).
  destruct (Str.dropSpaces Str.isSpace2 Str.isSpace3 afterColon) as [|c captured].
  - set (width := Str.spaceWidth Str.isSpace2Rev Str.isSpace3Rev (rev afterColon)).
    destruct ((0 <? width)%nat && allDots (rev (take width (rev afterColon))));
      [|discriminate].
    intros [= <-]. rewrite chars_ofChars.
    apply rev_Forall, Forall_take, rev_Forall, H2.
  - destruct (allDots (c :: captured)); [|discriminate].
    intros [= <-]. rewrite <- (chars_ofChars (c :: captured)) in H3. exact H3.
Qed.

Lemma splitLinesChars_Forall (P : ascii -> Prop) (cs cur : list ascii) :
  Forall P cur -> Forall (fun c => c <> LF -> P c) cs ->
  Forall (fun line => Forall P (Str.chars line)) (splitLinesChars cur cs).
Proof.
  revert cur. induction cs as [|c rest IH]; intros cur Hcur Hcs; simpl.
  - constructor; [|constructor]. rewrite chars_ofChars. apply rev_Forall, Hcur.
  - inversion Hcs as [|? ? Hc Hrest]; subst.
    destruct (Ascii.eqb c LF) eqn:Hlf.
    + constructor; [|apply IH; [constructor | exact Hrest]].
      rewrite chars_ofChars. apply rev_Forall.
      destruct cur as [|x cur']; [constructor|].
      destruct (Ascii.eqb x CR); [inversion Hcur; assumption | exact Hcur].
    + apply IH; [|exact Hrest]. constructor; [|exact Hcur].
      apply Hc. intros ->. rewrite Ascii.eqb_refl in Hlf. discriminate.
Qed.

Lemma splitLines_Forall (P : ascii -> Prop) (markdown : string) :
  Forall P (Str.chars markdown) ->
  Forall (fun line => Forall P (Str.chars line)) (splitLines markdown).
Proof.
  intros H. apply splitLinesChars_Forall; [constructor|].
  eapply Forall_impl; [exact H|]. auto.
Qed.

Lemma splitLines_single (markdown : string) :
  Forall (fun line => Forall (fun c => c <> LF) (Str.chars line)) (splitLines markdown).
Proof.
  apply splitLinesChars_Forall; [constructor|].
  apply Forall_forall. auto.
Qed.

Lemma frontMatterSummary_Forall (P : ascii -> Prop) (lines : list string) (s : string) :
  Forall (fun line => Forall P (Str.chars line)) lines ->
  frontMatterSummary lines = Some s -> Forall P (Str.chars s).
Proof.
  induction 1 as [|raw rest Hraw Hrest IH]; simpl; [discriminate|].
  destruct (String.eqb (Str.trim raw) "---"); [discriminate|].
  apply trim_Forall in Hraw.
  destruct (matchField "description" (Str.trim raw)) as [value|] eqn:Hd.
  { intros [= <-]. eapply unquote_Forall, trim_Forall, matchField_Forall; eassumption. }
  destruct (matchField "summary" (Str.trim raw)) as [value|] eqn:Hs.
  { intros [= <-]. eapply unquote_Forall, trim_Forall, matchField_Forall; eassumption. }
  exact IH.
Qed.

Lemma fromFirstNonBlank_Forall (P : string -> Prop) (lines : list string) :
  Forall P lines -> Forall P (fromFirstNonBlank lines).
Proof.
  induction 1 as [|line rest Hline Hrest IH]; simpl; [constructor|].
  destruct (0 <? Str.len (Str.trim line))%nat; [constructor; assumption | exact IH].
Qed.

Lemma frontMatterOf_Forall (P : ascii -> Prop) (lines : list string) (s : string) :
  Forall (fun line => Forall P (Str.chars line)) lines ->
  frontMatterOf lines = Some s -> Forall P (Str.chars s).
Proof.
  intros H. apply fromFirstNonBlank_Forall in H. unfold frontMatterOf.
  destruct (fromFirstNonBlank lines) as [|first rest]; [discriminate|].
  destruct (String.eqb (Str.trim first) "---"); [|discriminate].
  inversion H; subst. apply frontMatterSummary_Forall. assumption.
Qed.

Lemma bodySummary_line (lines : list string) (inCodeBlock : bool) (s : string) :
  bodySummary inCodeBlock lines = Some s ->
  exists raw, raw ∈ lines /\ s = Str.trim raw /\ s <> "" /\
    Str.startsWith "#" s = false /\ Str.startsWith "```" s = false /\
    s <> "---" /\ s <> "***".
Proof.
  revert inCodeBlock. induction lines as [|raw rest IH]; intros flag; simpl; [discriminate|].
  assert (Hrest : forall f, bodySummary f rest = Some s ->
            exists raw0, raw0 ∈ raw :: rest /\ s = Str.trim raw0 /\ s <> "" /\
              Str.startsWith "#" s = false /\ Str.startsWith "```" s = false /\
              s <> "---" /\ s <> "***").
  { intros f Hf. destruct (IH f Hf) as (raw0 & Hin & Hrest). exists raw0.
    split; [right; exact Hin | exact Hrest]. }
  destruct (Str.startsWith "```" (Str.trim raw)) eqn:Hfence; [apply Hrest|].
  destruct flag; simpl; [apply Hrest|].
  destruct (Str.len (Str.trim raw) =? 0)%nat eqn:Hlen; simpl; [apply Hrest|].
  destruct (Str.startsWith "#" (Str.trim raw)) eqn:Hhash; simpl; [apply Hrest|].
  destruct (String.eqb (Str.trim raw) "---") eqn:Hrule; simpl; [apply Hrest|].
  destruct (String.eqb (Str.trim raw) "***") eqn:Hstars; simpl; [apply Hrest|].
  intros [= <-]. exists raw. split; [left|].
  repeat split; try assumption.
  - intros E. rewrite E in Hlen. discriminate.
  - intros E. rewrite E in Hrule. discriminate.
  - intros E. rewrite E in Hstars. discriminate.
Qed.

Lemma dropWhile_all (p : ascii -> bool) (l : list ascii) :
  Forall (fun c => p c = true) l -> Str.dropWhile p l = [].
Proof.
  induction 1 as [|x l Hx Hl IH]; simpl; [reflexivity|]. rewrite Hx. exact IH.
Qed.

Lemma trim_blank (s : string) :
  Forall (fun c => Str.isSpace c = true) (Str.chars s) -> Str.trim s = "".
Proof.
  intros H. unfold Str.trim, Str.trimStartChars.
  rewrite (dropSpaces_all _ _ _ H). reflexivity.
Qed.

Lemma bodySummary_blank (lines : list string) (inCodeBlock : bool) :
  Forall (fun line => Str.trim line = "") lines -> bodySummary inCodeBlock lines = None.
Proof.
  intros H. revert inCodeBlock.
  induction H as [|line rest Hline Hrest IH]; intros flag; simpl; [reflexivity|].
  rewrite Hline. change (Str.startsWith "```" "") with false.
  change (Str.len "" =? 0)%nat with true.
  rewrite orb_true_r. simpl. apply IH.
Qed.

Lemma fromFirstNonBlank_blank (lines : list string) :
  Forall (fun line => Str.trim line = "") lines -> fromFirstNonBlank lines = [].
Proof.
  induction 1 as [|line rest Hline Hrest IH]; simpl; [reflexivity|].
  rewrite Hline. exact IH.
Qed.

Lemma extractDescriptorSummary_blank (markdown : string) :
  Forall (fun c => Str.isSpace c = true) (Str.chars markdown) ->
  extractDescriptorSummary markdown = None.
Proof.
  intros H. apply splitLines_Forall in H.
  assert (Hblank : Forall (fun line => Str.trim line = "") (splitLines markdown)).
  { eapply Forall_impl; [exact H|]. intros line. apply trim_blank. }
  unfold extractDescriptorSummary, frontMatterOf.
  rewrite (fromFirstNonBlank_blank _ Hblank). apply bodySummary_blank, Hblank.
Qed.

Lemma extractDescriptorSummary_single (markdown s : string) :
  extractDescriptorSummary markdown = Some s ->
  Forall (fun c => c <> LF) (Str.chars s).
Proof.
  unfold extractDescriptorSummary.
  destruct (frontMatterOf (splitLines markdown)) as [summary|] eqn:Hfront.
  - intros [= <-]. eapply frontMatterOf_Forall; [apply splitLines_single | exact Hfront].
  - intros Hbody. destruct (bodySummary_line _ _ _ Hbody) as (raw & Hin & -> & _).
    apply trim_Forall. assert (H := splitLines_single markdown).
    rewrite Forall_forall in H. apply H, Hin.
Qed.

(** [X23] A summary that [extractDescriptorSummary] finds is a single
    line: it holds no line feed, and a document made only of spaces, tabs
    and line breaks (the white space of one byte) has none. When the document opens with no front matter that names a
    description, the summary is a line of the document with the white
    space around it removed, and that line is not empty, not a heading,
    not a code fence and not a rule. *)
Theorem extractDescriptorSummary_line (markdown s : string) :
  extractDescriptorSummary markdown = Some s ->
  Forall (fun c => c <> LF) (Str.chars s) /\
  ~ Forall (fun c => Str.isSpace c = true) (Str.chars markdown) /\
  (frontMatterOf (splitLines markdown) = None ->
   isTrimmed s /\
   Str.startsWith "#" s = false /\ Str.startsWith "```" s = false /\
   s <> "---" /\ s <> "***" /\
   exists line, line ∈ splitLines markdown /\ s = Str.trim line).
Proof.
  intros Hs. split; [exact (extractDescriptorSummary_single _ _ Hs)|]. split.
  - intros Hblank. rewrite (extractDescriptorSummary_blank _ Hblank) in Hs. discriminate.
  - intros Hfront. unfold extractDescriptorSummary in Hs. rewrite Hfront in Hs.
    destruct (bodySummary_line _ _ _ Hs) as (raw & Hin & Heq & Hne & Hhash & Hfence & Hr & Hst).
    repeat split; try assumption.
    + rewrite Heq. apply trim_idempotent.
    + exists raw. split; assumption.
Qed.

(** ** Reading an item's descriptor *)

Section FetchingProperties.

Variable newURL : string -> option URL.
Variable World : Type.
Variable authenticatedFetch : Request -> World -> HttpOutcome * World.

Local Abbreviation send := (send World authenticatedFetch).
Local Abbreviation contentFrom := (contentFrom World authenticatedFetch).
Local Abbreviation descriptionFrom := (descriptionFrom World authenticatedFetch).

Lemma send_exchanges (r : Request) (n : Net World) :
  exchanges (send r n).2 = exchanges n ++ [(req_url r, outcomeOf (send r n).1)].
Proof.
  unfold send. destruct (authenticatedFetch r (world n)) as [o w]. reflexivity.
Qed.

Lemma send_ok (r : Request) (n : Net World) (status : Z) (statusText : string)
    (body : Body) :
  (send r n).1 = Reply status statusText body -> response_ok status = true ->
  outcome_ok (outcomeOf (send r n).1) = true.
Proof. intros -> H. exact H. Qed.

Lemma contentFrom_spec (urls : list string) (n : Net World) :
  exists asked,
    exchanges (contentFrom urls n).2 = exchanges n ++ asked /\
    asked.*1 `prefix_of` urls /\
    (contentFrom urls n).2 = afterRequests authenticatedFetch asked.*1 n /\
    match content (contentFrom urls n).1, content_url (contentFrom urls n).1 with
    | Some text, Some url =>
        exists before o status statusText body,
          asked = before ++ [(url, o)] /\ outcome_ok o = true /\
          send (plain url) (afterRequests authenticatedFetch before.*1 n)
            = (Reply status statusText body, (contentFrom urls n).2) /\
          response_ok status = true /\
          body_text body = Fulfilled text
    | None, None => asked.*1 = urls
    | _, _ => False
    end.
Proof.
  revert n. induction urls as [|url rest IH]; intros n.
  - exists []. simpl. rewrite app_nil_r.
    split; [reflexivity|]. split; [apply prefix_nil|]. split; reflexivity.
  - simpl. unfold bind.
    destruct (send (plain url) n) as [o n'] eqn:Hsend.
    assert (Hn' : n' = (send (plain url) n).2) by (rewrite Hsend; reflexivity).
    assert (Ho : o = (send (plain url) n).1) by (rewrite Hsend; reflexivity).
    assert (Hnext : exists asked,
              exchanges (contentFrom rest n').2 = exchanges n ++ asked /\
    asked.*1 `prefix_of` (url :: rest) /\
    (contentFrom rest n').2 = afterRequests authenticatedFetch asked.*1 n /\
    match content (contentFrom rest n').1, content_url (contentFrom rest n').1 with
    | Some text, Some url =>
        exists before o status statusText body,
          asked = before ++ [(url, o)] /\ outcome_ok o = true /\
          send (plain url) (afterRequests authenticatedFetch before.*1 n)
            = (Reply status statusText body, (contentFrom rest n').2) /\
          response_ok status = true /\
          body_text body = Fulfilled text
    | None, None => asked.*1 = (url :: rest)
    | _, _ => False
    end).
    { destruct (IH n') as (asked & Hex & Hpre & Hnet & Hres).
      exists ((url, outcomeOf o) :: asked). split; [|split; [|split]].
      - rewrite Hex, Hn', send_exchanges, <- app_assoc, <- Ho. reflexivity.
      - simpl. apply prefix_cons, Hpre.
      - rewrite Hnet. simpl. rewrite Hsend. reflexivity.
      - destruct (content (contentFrom rest n').1), (content_url (contentFrom rest n').1);
          try exact Hres.
        + destruct Hres as (before & o0 & status & statusText & body & -> & Hok & Hs & Hr & Hb).
          exists ((url, outcomeOf o) :: before), o0, status, statusText, body.
          split; [reflexivity|]. split; [exact Hok|].
          split; [|split; assumption].
          simpl. rewrite Hsend. exact Hs.
        + simpl. f_equal. exact Hres. }
    destruct o as [status statusText body|message]; [|exact Hnext].
    destruct (response_ok status) eqn:Hok; [|exact Hnext].
    destruct (body_text body) as [text|e] eqn:Hbody; [|exact Hnext].
    exists [(url, Responded status statusText)]. simpl. split; [|split; [|split]].
    + rewrite Hn', send_exchanges, <- Ho. reflexivity.
    + apply prefix_cons, prefix_nil.
    + rewrite Hsend. reflexivity.
    + exists [], (Responded status statusText), status, statusText, body.
      split; [reflexivity|]. split; [exact Hok|].
      split; [exact Hsend|]. split; [exact Hok | exact Hbody].
Qed.

(** [X24] [fetchGroupItemContent] asks for the item's descriptor urls in
    their order, each with no options, and stops at the first that
    answers with a 2xx and a readable body: it returns that body as the
    content, together with the url it was answered for, which is the
    last request made; or it returns neither of the two, after every url
    has been asked. It requests nothing else, and leaves the network as
    those requests left it. *)
Theorem fetchGroupItemContent_first_readable (item : MarketplaceGroupItem)
    (n : Net World) :
  let r := fetchGroupItemContent World authenticatedFetch item n in
  exists asked,
    exchanges r.2 = exchanges n ++ asked /\
    asked.*1 `prefix_of` itemUrls item /\
    r.2 = afterRequests authenticatedFetch asked.*1 n /\
    match content r.1, content_url r.1 with
    | Some text, Some url =>
        exists before o status statusText body,
          asked = before ++ [(url, o)] /\ outcome_ok o = true /\
          send (plain url) (afterRequests authenticatedFetch before.*1 n)
            = (Reply status statusText body, r.2) /\
          response_ok status = true /\
          body_text body = Fulfilled text
    | None, None => asked.*1 = itemUrls item
    | _, _ => False
    end.
Proof. apply contentFrom_spec. Qed.

Lemma descriptionFrom_spec (urls : list string) (n : Net World) :
  exists asked,
    exchanges (descriptionFrom urls n).2 = exchanges n ++ asked /\
    asked.*1 `prefix_of` urls /\
    match (descriptionFrom urls n).1 with
    | Some summary =>
        summary <> "" /\ Forall (fun c => c <> LF) (Str.chars summary) /\
        exists before url o, asked = before ++ [(url, o)] /\ outcome_ok o = true
    | None => asked.*1 = urls
    end.
Proof.
  revert n. induction urls as [|url rest IH]; intros n.
  - exists []. simpl. rewrite app_nil_r.
    split; [reflexivity|]. split; [apply prefix_nil | reflexivity].
  - simpl. unfold bind.
    destruct (send (plain url) n) as [o n'] eqn:Hsend.
    assert (Hn' : n' = (send (plain url) n).2) by (rewrite Hsend; reflexivity).
    assert (Ho : o = (send (plain url) n).1) by (rewrite Hsend; reflexivity).
    assert (Hnext : exists asked,
              exchanges (descriptionFrom rest n').2 = exchanges n ++ asked /\
              asked.*1 `prefix_of` url :: rest /\
              match (descriptionFrom rest n').1 with
              | Some summary =>
                  summary <> "" /\ Forall (fun c => c <> LF) (Str.chars summary) /\
                  exists before url0 o0, asked = before ++ [(url0, o0)] /\ outcome_ok o0 = true
              | None => asked.*1 = url :: rest
              end).
    { destruct (IH n') as (asked & Hex & Hpre & Hres).
      exists ((url, outcomeOf o) :: asked). split; [|split].
      - rewrite Hex, Hn', send_exchanges, <- app_assoc, <- Ho. reflexivity.
      - simpl. apply prefix_cons, Hpre.
      - destruct ((descriptionFrom rest n').1) as [summary|].
        + destruct Hres as (Hne & Hlf & before & url0 & o0 & -> & Hok).
          split; [exact Hne|]. split; [exact Hlf|].
          exists ((url, outcomeOf o) :: before), url0, o0.
          split; [reflexivity | exact Hok].
        + simpl. f_equal. exact Hres. }
    destruct o as [status statusText body|message]; [|exact Hnext].
    destruct (response_ok status) eqn:Hok; [|exact Hnext].
    destruct (body_text body) as [text|e]; [|exact Hnext].
    destruct (extractDescriptorSummary text) as [summary|] eqn:Hsum; [|exact Hnext].
    destruct (Str.truthy summary) eqn:Htruthy; [|exact Hnext].
    exists [(url, Responded status statusText)]. simpl. split; [|split].
    + rewrite Hn', send_exchanges, <- Ho. reflexivity.
    + apply prefix_cons, prefix_nil.
    + split; [intros ->; discriminate|].
      split; [exact (extractDescriptorSummary_single _ _ Hsum)|].
      exists [], url, (Responded status statusText). split; [reflexivity | exact Hok].
Qed.

(** [X25] [fetchGroupItemDescription] asks for the item's descriptor
    urls in their order and returns the summary of the first that
    answers with a 2xx and a body holding one that is not empty; the
    summary it returns is never empty and is a single line. It returns
    nothing only after every url has been asked, and requests nothing
    else. *)
Theorem fetchGroupItemDescription_found (item : MarketplaceGroupItem) (n : Net World) :
  let r := fetchGroupItemDescription World authenticatedFetch item n in
  exists asked,
    exchanges r.2 = exchanges n ++ asked /\
    asked.*1 `prefix_of` itemUrls item /\
    match r.1 with
    | Some summary =>
        summary <> "" /\ Forall (fun c => c <> LF) (Str.chars summary) /\
        exists before url o, asked = before ++ [(url, o)] /\ outcome_ok o = true
    | None => asked.*1 = itemUrls item
    end.
Proof. apply descriptionFrom_spec. Qed.

End FetchingProperties.

(** ** Hydration and the fetch of one marketplace *)

Section HydrationProperties.

Context {host : Host}.
Variable newURL : string -> option URL.
Variable World : Type.
Variable authenticatedFetch : Request -> World -> HttpOutcome * World.

Local Abbreviation M := (M World).

Lemma grows_ret {A} (a : A) : grows (ret a : M A).
Proof. intros n. reflexivity. Qed.

Lemma grows_bind {A B} (m : M A) (k : A -> M B) :
  grows m -> (forall a, grows (k a)) -> grows (bind m k).
Proof.
  intros Hm Hk n. unfold bind. specialize (Hm n).
  destruct (m n) as [a n']. simpl in Hm.
  etransitivity; [exact Hm | apply Hk].
Qed.

Lemma grows_send (r : Request) : grows (send World authenticatedFetch r).
Proof.
  intros n. rewrite send_exchanges. apply prefix_app_r. reflexivity.
Qed.

Lemma grows_sourceConfigFrom (candidates : list string) :
  grows (sourceConfigFrom World authenticatedFetch candidates).
Proof.
  induction candidates as [|candidate rest IH]; simpl; [apply grows_ret|].
  apply grows_bind; [apply grows_send|]. intros [status statusText body|message]; [|exact IH].
  destruct (response_ok status); [|exact IH].
  destruct (body_json body) as [payload|e]; [|exact IH].
  destruct payload; first [exact IH | apply grows_ret].
Qed.

Lemma grows_expand (referencePath groupKey : string) (rc : RepoContext) :
  grows (expandGroupDirectoryReference World authenticatedFetch referencePath groupKey rc).
Proof.
  unfold expandGroupDirectoryReference.
  destruct (negb _); [apply grows_ret|].
  apply grows_bind; [|intros; apply grows_ret].
  unfold listRepoDirectory. apply grows_bind; [apply grows_send | intros; apply grows_ret].
Qed.

Lemma grows_itemsOfPath (resolvedPath groupKey : string) (rc : RepoContext) :
  grows (itemsOfPath World authenticatedFetch resolvedPath groupKey rc).
Proof.
  unfold itemsOfPath. apply grows_bind; [apply grows_expand | intros; apply grows_ret].
Qed.

Lemma grows_itemsOfConfigEntries (entries : list JSON) (groupKey : string)
    (rc : RepoContext) (sourceBasePath : string) (items : list MarketplaceGroupItem) :
  grows (itemsOfConfigEntries World authenticatedFetch entries groupKey rc
           sourceBasePath items).
Proof.
  revert items. induction entries as [|entry rest IH]; intros items; simpl;
    [apply grows_ret|].
  destruct entry; try apply IH.
  apply grows_bind; [apply grows_itemsOfPath | intros; apply IH].
Qed.

Lemma grows_resolveGroupItems (value : unknown) (groupKey : string) (rc : RepoContext)
    (sourceBasePath : string) :
  grows (resolveGroupItemsFromConfig World authenticatedFetch value groupKey rc
           sourceBasePath).
Proof.
  unfold resolveGroupItemsFromConfig.
  destruct value as [[| | | | |]|]; try apply grows_ret.
  - apply grows_itemsOfPath.
  - apply grows_itemsOfConfigEntries.
Qed.

(** The loop over the group definitions: what it pushes. *)
Lemma hydrateGroups_spec (sourceConfig manifest : option UnknownRecord)
    (sourceBasePath : string) (rc : RepoContext) (definitions : list (string * string)) :
  forall (hydratedGroups : list MarketplacePluginGroup) (n : Net World),
  let r := hydrateGroups World authenticatedFetch definitions sourceConfig manifest
             sourceBasePath rc hydratedGroups n in
  exchanges n `prefix_of` exchanges r.2 /\
  exists pushed,
    r.1 = hydratedGroups ++ pushed /\
    sublist (List.map (fun g => (group_key g, group_name g)) pushed) definitions /\
    Forall (fun g => group_items g <> []) pushed.
Proof.
  induction definitions as [|[key name] rest IH]; intros acc n; simpl.
  - split; [reflexivity|]. exists []. rewrite app_nil_r.
    split; [reflexivity|]. split; constructor.
  - assert (Hskip : forall n', exchanges n `prefix_of` exchanges n' ->
              let r := hydrateGroups World authenticatedFetch rest sourceConfig manifest
                         sourceBasePath rc acc n' in
              exchanges n `prefix_of` exchanges r.2 /\
              exists pushed,
                r.1 = acc ++ pushed /\
                sublist (List.map (fun g => (group_key g, group_name g)) pushed)
                  ((key, name) :: rest) /\
                Forall (fun g => group_items g <> []) pushed).
    { intros n' Hn'. destruct (IH acc n') as (Hlog & pushed & Hr & Hsub & Hitems).
      split; [etransitivity; eassumption|].
      exists pushed. split; [exact Hr|]. split; [apply sublist_cons, Hsub | exact Hitems]. }
    assert (Hpush : forall n' items, exchanges n `prefix_of` exchanges n' -> items <> [] ->
              let r := hydrateGroups World authenticatedFetch rest sourceConfig manifest
                         sourceBasePath rc
                         (acc ++ [{| group_name := name; group_key := key;
                                     group_items := items |}]) n' in
              exchanges n `prefix_of` exchanges r.2 /\
              exists pushed,
                r.1 = acc ++ pushed /\
                sublist (List.map (fun g => (group_key g, group_name g)) pushed)
                  ((key, name) :: rest) /\
                Forall (fun g => group_items g <> []) pushed).
    { intros n' items Hn' Hne.
      destruct (IH (acc ++ [{| group_name := name; group_key := key;
                               group_items := items |}]) n')
        as (Hlog & pushed & Hr & Hsub & Hitems).
      split; [etransitivity; eassumption|].
      exists ({| group_name := name; group_key := key; group_items := items |} :: pushed).
      split; [rewrite Hr, <- app_assoc; reflexivity|].
      split; [simpl; apply sublist_skip, Hsub|].
      constructor; [exact Hne | exact Hitems]. }
    destruct (coalesce (getPropOpt key sourceConfig) (getPropOpt key manifest))
      as [value|] eqn:Hvalue.
    + unfold bind.
      pose proof (grows_resolveGroupItems (Some value) key rc sourceBasePath n) as Hg.
      destruct (resolveGroupItemsFromConfig World authenticatedFetch (Some value) key rc
                  sourceBasePath n) as [items n'].
      simpl in Hg. destruct items as [|item items]; simpl.
      * apply Hskip, Hg.
      * apply Hpush; [exact Hg | discriminate].
    + unfold bind.
      set (conventionPath := if Str.truthy sourceBasePath then _ else _).
      pose proof (grows_expand conventionPath key rc n) as Hg.
      destruct (expandGroupDirectoryReference World authenticatedFetch conventionPath key
                  rc n) as [discovered n'].
      simpl in Hg. destruct discovered as [[|item items]|].
      * apply Hskip, Hg.
      * apply Hpush; [exact Hg | discriminate].
      * apply Hskip, Hg.
Qed.

Lemma withGroups_same (plugin : MarketplacePlugin) :
  withGroups plugin (groups plugin) = plugin.
Proof. destruct plugin; reflexivity. Qed.

Lemma hydrate_spec (plugin : MarketplacePlugin) (repoContext : option RepoContext)
    (n : Net World) :
  let r := hydratePluginGroupsFromSource World authenticatedFetch plugin repoContext n in
  r.1 = withGroups plugin (groups r.1) /\
  exchanges n `prefix_of` exchanges r.2 /\
  (repoContext = None \/ groups plugin <> [] -> r = (plugin, n)) /\
  (groups r.1 = groups plugin \/
   groups plugin = [] /\ groups r.1 <> [] /\
   Forall (fun g => group_items g <> []) (groups r.1) /\
   sublist (List.map (fun g => (group_key g, group_name g)) (groups r.1)) groupDefinitions).
Proof.
  unfold hydratePluginGroupsFromSource.
  generalize groupDefinitions. intros definitions.
  destruct repoContext as [rc|].
  2:{ simpl. rewrite withGroups_same. split; [reflexivity|]. split; [reflexivity|].
      split; [reflexivity | left; reflexivity]. }
  destruct (0 <? length (groups plugin))%nat eqn:Hlen.
  { simpl. rewrite withGroups_same. split; [reflexivity|]. split; [reflexivity|].
    split; [reflexivity | left; reflexivity]. }
  assert (Hgroups : groups plugin = []).
  { destruct (groups plugin); [reflexivity | discriminate]. }
  clear Hlen. unfold bind.
  set (source := default "./" _).
  pose proof (grows_sourceConfigFrom (sourceConfigCandidates source rc) n) as Hg.
  unfold fetchPluginSourceConfig.
  destruct (sourceConfigFrom World authenticatedFetch (sourceConfigCandidates source rc) n)
    as [sourceConfig n1].
  simpl in Hg.
  set (manifest := match sourceConfig with Some config => _ | None => None end).
  destruct (hydrateGroups_spec sourceConfig manifest
              (stripTrailingSlashes (normalizeRelativePath source)) rc definitions [] n1)
    as (Hlog & pushed & Hr & Hsub & Hitems).
  destruct (hydrateGroups World authenticatedFetch definitions sourceConfig manifest
              (stripTrailingSlashes (normalizeRelativePath source)) rc [] n1)
    as [hydratedGroups n2].
  simpl in Hlog, Hr. subst hydratedGroups.
  assert (Hgrow : exchanges n `prefix_of` exchanges n2) by (etransitivity; eassumption).
  destruct pushed as [|g gs]; simpl.
  - rewrite withGroups_same. split; [reflexivity|].
    split; [exact Hgrow|]. split; [|left; reflexivity].
    intros [H|H]; [discriminate | contradiction].
  - split; [reflexivity|]. split; [exact Hgrow|]. split.
    + intros [H|H]; [discriminate | contradiction].
    + right. split; [exact Hgroups|]. split; [discriminate|]. split; assumption.
Qed.

(** [X26] Hydration changes nothing of a plugin but its groups, and only
    when the manifest gave it none and there is a repository context:
    a plugin that has groups, or any plugin without a context, comes
    back as it is and no request is made. Groups that hydration puts in
    place are never an empty list, each has at least one item, and they
    come in the fixed order of the six group definitions, each at most
    once and under its display name. The log of requests only grows. *)
Theorem hydration_replaces_missing_groups_only (plugin : MarketplacePlugin)
    (repoContext : option RepoContext) (n : Net World) :
  let r := hydratePluginGroupsFromSource World authenticatedFetch plugin repoContext n in
  r.1 = withGroups plugin (groups r.1) /\
  exchanges n `prefix_of` exchanges r.2 /\
  (repoContext = None \/ groups plugin <> [] -> r = (plugin, n)) /\
  (groups r.1 = groups plugin \/
   groups plugin = [] /\ groups r.1 <> [] /\
   Forall (fun g => group_items g <> []) (groups r.1) /\
   sublist (List.map (fun g => (group_key g, group_name g)) (groups r.1)) groupDefinitions).
Proof. apply hydrate_spec. Qed.

Lemma hydrateAll_spec (rc : RepoContext) (normalized : list MarketplacePlugin) :
  forall (hydratedPlugins : list MarketplacePlugin) (n : Net World),
  let r := hydrateAll World authenticatedFetch normalized rc hydratedPlugins n in
  exchanges n `prefix_of` exchanges r.2 /\
  exists pushed,
    r.1 = hydratedPlugins ++ pushed /\
    Forall2 (fun p p' => p' = withGroups p (groups p')) normalized pushed.
Proof.
  induction normalized as [|plugin rest IH]; intros acc n; cbn [hydrateAll].
  - split; [reflexivity|]. exists []. rewrite app_nil_r. split; [reflexivity | constructor].
  - unfold bind.
    destruct (hydrate_spec plugin (Some rc) n) as (Hsame & Hlog & _).
    destruct (hydratePluginGroupsFromSource World authenticatedFetch plugin (Some rc) n)
      as [hydrated n'].
    simpl in Hsame, Hlog.
    destruct (IH (acc ++ [hydrated]) n') as (Hlog' & pushed & Hr & Hall).
    split; [etransitivity; eassumption|].
    exists (hydrated :: pushed). split; [rewrite Hr, <- app_assoc; reflexivity|].
    constructor; assumption.
Qed.

Lemma normalized_origin (document : unknown) (srcUrl doc : string)
    (rc : option RepoContext) :
  Forall (fun p => sourceUrl p = srcUrl /\ marketplaceDocumentUrl p = doc /\
                   isTrimmed (id p) /\ isTrimmed (name p))
    (plugins (normalizeMarketplaceDocument document srcUrl (Some doc) rc)) /\
  errors (normalizeMarketplaceDocument document srcUrl (Some doc) rc) = [].
Proof.
  unfold normalizeMarketplaceDocument.
  set (ws0 := if (length (getPluginList document) =? 0)%nat then _ else _).
  destruct (normalizeEntries_spec srcUrl (default srcUrl (Some doc)) rc
              (getPluginList document) [] ws0)
    as (ps' & ws' & Hrun & Hps & _).
  rewrite Hrun. simpl. split; [|reflexivity]. subst ps'.
  apply Forall_forall. intros p Hp.
  apply list_elem_of_omap in Hp. destruct Hp as (entry & Hentry & Hplugin).
  destruct (normalizePlugin_invariants entry srcUrl doc rc p Hplugin)
    as (H1 & H2 & _ & _ & H5 & H6 & _).
  repeat split; try assumption; try apply H1; try apply H2.
Qed.

Lemma resolve_spec (src : string) (n : Net World) :
  let r := resolveMarketplaceUrl newURL World (probe World authenticatedFetch) src n in
  exchanges n `prefix_of` exchanges r.2 /\
  match documentUrl r.1 with
  | Some doc => doc ∈ candidateMarketplaceUrls newURL src /\ res_errors r.1 = []
  | None => res_errors r.1 = [unresolvedError src]
  end.
Proof.
  unfold resolveMarketplaceUrl.
  destruct (probeCandidates_spec World (probe World authenticatedFetch) src
              (candidateMarketplaceUrls newURL src) [] n) as (tried & Hlog & Hres).
  simpl. split; [rewrite Hlog; apply prefix_app_r; reflexivity|].
  destruct (documentUrl _) as [doc|].
  - destruct Hres as (failed & o & rest & Hc & _ & _ & _ & _ & He).
    split; [|exact He]. rewrite Hc. set_solver.
  - apply Hres.
Qed.

(** [X27] What [fetchMarketplace] returns. It reports at most one error,
    which says that the marketplace document could not be resolved from
    the input or that a candidate location could not be fetched, and
    whenever it reports one it returns no plugin. The plugins it returns
    all carry the input as their source and one and the same candidate
    location as their document, and each has an id and a name that are
    not empty and carry no surrounding white space. The log of requests
    only grows. *)
Theorem fetchMarketplace_result (src : string) (n : Net World) :
  let r := fetchMarketplace newURL World authenticatedFetch src n in
  exchanges n `prefix_of` exchanges r.2 /\
  (length (errors r.1) <= 1)%nat /\
  Forall (fun e => e = unresolvedError src \/
                   exists doc reason, doc ∈ candidateMarketplaceUrls newURL src /\
                     e = "Failed to fetch " +:+ doc +:+ ": " +:+ reason) (errors r.1) /\
  (plugins r.1 = [] \/
   errors r.1 = [] /\
   exists doc, doc ∈ candidateMarketplaceUrls newURL src /\
     Forall (fun p => sourceUrl p = src /\ marketplaceDocumentUrl p = doc /\
                      isTrimmed (id p) /\ isTrimmed (name p)) (plugins r.1)).
Proof.
  unfold fetchMarketplace, bind.
  destruct (resolve_spec src n) as (Hlog & Hres).
  destruct (resolveMarketplaceUrl newURL World (probe World authenticatedFetch) src n)
    as [resolution n1].
  simpl in Hlog, Hres.
  destruct (documentUrl resolution) as [doc|].
  2:{ simpl. rewrite Hres. split; [exact Hlog|]. split; [simpl; lia|].
      split; [|left; reflexivity]. constructor; [left; reflexivity | constructor]. }
  destruct Hres as (Hdoc & Herr).
  destruct (negb (Str.truthy doc)).
  { simpl. rewrite Herr. split; [exact Hlog|]. split; [simpl; lia|].
    split; [constructor | left; reflexivity]. }
  pose proof (grows_send (plain doc) n1) as Hsend.
  destruct (send World authenticatedFetch (plain doc) n1) as [o n2].
  simpl in Hsend.
  assert (Hlog2 : exchanges n `prefix_of` exchanges n2) by (etransitivity; eassumption).
  assert (Hfail : forall reason,
            let r := (fetchFailure doc reason resolution, n2) in
            exchanges n `prefix_of` exchanges r.2 /\
            (length (errors r.1) <= 1)%nat /\
            Forall (fun e => e = unresolvedError src \/
                     exists doc0 reason0, doc0 ∈ candidateMarketplaceUrls newURL src /\
                       e = "Failed to fetch " +:+ doc0 +:+ ": " +:+ reason0) (errors r.1) /\
            (plugins r.1 = [] \/
             errors r.1 = [] /\
             exists doc0, doc0 ∈ candidateMarketplaceUrls newURL src /\
               Forall (fun p => sourceUrl p = src /\ marketplaceDocumentUrl p = doc0 /\
                                isTrimmed (id p) /\ isTrimmed (name p)) (plugins r.1))).
  { intros reason. simpl. split; [exact Hlog2|]. split; [lia|].
    split; [|left; reflexivity].
    constructor; [|constructor]. right. exists doc, reason. split; [exact Hdoc | reflexivity]. }
  destruct o as [status statusText body|message]; [|apply Hfail].
  destruct (negb (response_ok status)); [apply Hfail|].
  destruct (body_json body) as [json|message]; [|apply Hfail].
  destruct (normalized_origin (Some json) src doc (repoContextFromDocumentUrl doc))
    as (Hplugins & Herrors).
  set (normalized := normalizeMarketplaceDocument (Some json) src (Some doc)
                       (repoContextFromDocumentUrl doc)) in *.
  assert (Hdone : forall hydrated (n3 : Net World),
            exchanges n2 `prefix_of` exchanges n3 ->
            Forall2 (fun p p' => p' = withGroups p (groups p')) (plugins normalized) hydrated ->
            let r := ({| plugins := hydrated;
                         warnings := res_warnings resolution ++ warnings normalized;
                         errors := errors normalized |}, n3) in
            exchanges n `prefix_of` exchanges r.2 /\
            (length (errors r.1) <= 1)%nat /\
            Forall (fun e => e = unresolvedError src \/
                     exists doc0 reason0, doc0 ∈ candidateMarketplaceUrls newURL src /\
                       e = "Failed to fetch " +:+ doc0 +:+ ": " +:+ reason0) (errors r.1) /\
            (plugins r.1 = [] \/
             errors r.1 = [] /\
             exists doc0, doc0 ∈ candidateMarketplaceUrls newURL src /\
               Forall (fun p => sourceUrl p = src /\ marketplaceDocumentUrl p = doc0 /\
                                isTrimmed (id p) /\ isTrimmed (name p)) (plugins r.1))).
  { intros hydrated n3 Hlog3 Hall. simpl. rewrite Herrors.
    split; [etransitivity; eassumption|]. split; [simpl; lia|].
    split; [constructor|]. right. split; [reflexivity|].
    exists doc. split; [exact Hdoc|].
    clear -Hall Hplugins. induction Hall as [|p p' ps ps' Hp Hps IH]; [constructor|].
    inversion Hplugins as [|? ? Hhead Htail]; subst.
    constructor; [|apply IH, Htail].
    rewrite Hp. simpl. exact Hhead. }
  assert (Hid : Forall2 (fun p p' => p' = withGroups p (groups p'))
                  (plugins normalized) (plugins normalized)).
  { clear. induction (plugins normalized) as [|p ps IH]; constructor;
      [symmetry; apply withGroups_same | exact IH]. }
  destruct (repoContextFromDocumentUrl doc) as [rc|].
  2:{ apply Hdone; [reflexivity | exact Hid]. }
  destruct (0 <? length (plugins normalized))%nat.
  2:{ apply Hdone; [reflexivity | exact Hid]. }
  destruct (hydrateAll_spec rc (plugins normalized) [] n2) as (Hlog3 & pushed & Hr & Hall).
  destruct (hydrateAll World authenticatedFetch (plugins normalized) rc [] n2)
    as [hydrated n3].
  simpl in Hlog3, Hr. subst hydrated. apply Hdone; assumption.
Qed.

End HydrationProperties.

(** ** Selecting plugins by key *)

Lemma createPluginKeyMap_fold (ps : list MarketplacePlugin) :
  forall (m : gmap string MarketplacePlugin),
  let r := fold_left (fun m plugin => <[pluginKey plugin := plugin]> m) ps m in
  (forall k, k ∉ List.map pluginKey ps -> r !! k = m !! k) /\
  (NoDup (List.map pluginKey ps) -> forall p, p ∈ ps -> r !! pluginKey p = Some p) /\
  (forall k p, r !! k = Some p -> m !! k = Some p \/ p ∈ ps /\ pluginKey p = k).
Proof.
  induction ps as [|q ps IH]; intros m; simpl.
  - split; [reflexivity|]. split; [intros _ p Hp; inversion Hp | auto].
  - destruct (IH (<[pluginKey q := q]> m)) as (Hout & Hin & Hback).
    split; [|split].
    + intros k Hk. rewrite Hout by set_solver.
      apply lookup_insert_ne. set_solver.
    + intros Hnd p Hp. apply NoDup_cons in Hnd. destruct Hnd as [Hq Hnd].
      apply elem_of_cons in Hp. destruct Hp as [->|Hp]; [|apply Hin; assumption].
      rewrite Hout by exact Hq. apply lookup_insert_eq.
    + intros k p Hk. destruct (Hback k p Hk) as [Hm|[Hp Hkey]].
      * destruct (decide (pluginKey q = k)) as [Heq|Hne].
        -- rewrite <- Heq, lookup_insert_eq in Hm. injection Hm as <-.
           right. split; [left | exact Heq].
        -- rewrite lookup_insert_ne in Hm by exact Hne. left. exact Hm.
      * right. split; [right; exact Hp | exact Hkey].
Qed.

(** [X28] The key map built over the plugins that [fetchAllMarketplaces]
    returned selects every one of them: looking up the key of a plugin
    of the result gives that plugin, and whatever a key selects is a
    plugin of the result with that key. *)
Theorem plugin_keys_select_plugins (collationKey : string -> string)
    (results : list SettledResult) :
  let ps := plugins (fetchAllMarketplaces collationKey results) in
  (forall p, p ∈ ps -> createPluginKeyMap ps !! pluginKey p = Some p) /\
  (forall k p, createPluginKeyMap ps !! k = Some p -> p ∈ ps /\ pluginKey p = k).
Proof.
  intros ps. unfold createPluginKeyMap.
  destruct (createPluginKeyMap_fold ps ∅) as (_ & Hin & Hback).
  split.
  - apply Hin. subst ps. unfold fetchAllMarketplaces. cbn [plugins].
    rewrite (sortByName_Permutation collationKey), keepFirstBy_firstsFrom.
    apply (firstsFrom_NoDup dedupKey).
  - intros k p Hk. destruct (Hback k p Hk) as [Hm|H]; [|exact H].
    rewrite lookup_empty in Hm. discriminate.
Qed.

(** ** The configured marketplaces *)

Lemma Set_from_fold (xs : list string) :
  forall (s : list string), NoDup s ->
  NoDup (fold_left (fun s x => Set_add x s) xs s) /\
  (forall x, x ∈ fold_left (fun s x => Set_add x s) xs s <-> x ∈ s \/ x ∈ xs) /\
  (NoDup (s ++ xs) -> fold_left (fun s x => Set_add x s) xs s = s ++ xs).
Proof.
  induction xs as [|y xs IH]; intros s Hs; simpl.
  - split; [exact Hs|]. split; [set_solver | intros _; rewrite app_nil_r; reflexivity].
  - assert (Hadd : NoDup (Set_add y s)).
    { apply (Set_add_ok (length s)). split; [exact Hs | lia]. }
    destruct (IH (Set_add y s) Hadd) as (Hnd & Hmem & Hsame).
    split; [exact Hnd|]. split.
    + intros x. rewrite Hmem. unfold Set_add. case_bool_decide; set_solver.
    + intros Hall. assert (Hy : y ∉ s).
      { apply NoDup_app in Hall. destruct Hall as (_ & Hdisj & _).
        intros Hin. apply (Hdisj y Hin). left. }
      unfold Set_add in Hsame |- *. rewrite bool_decide_eq_false_2 in * by exact Hy.
      rewrite Hsame; rewrite <- app_assoc; [reflexivity | exact Hall].
Qed.

Lemma Set_from_spec (xs : list string) :
  NoDup (Set_from xs) /\ (forall x, x ∈ Set_from xs <-> x ∈ xs) /\
  (NoDup xs -> Set_from xs = xs).
Proof.
  destruct (Set_from_fold xs [] (NoDup_nil_2)) as (Hnd & Hmem & Hsame).
  split; [exact Hnd|]. split; [|exact Hsame].
  intros x. rewrite Hmem. set_solver.
Qed.

Lemma truthy_spec (s : string) : Str.truthy s = true <-> s <> "".
Proof.
  unfold Str.truthy. destruct (String.eqb_spec s ""); simpl; split; congruence.
Qed.

Lemma normalizeUrls_spec (urls : option (list string)) :
  NoDup (normalizeUrls urls) /\
  Forall isTrimmed (normalizeUrls urls) /\
  (forall u, u ∈ normalizeUrls urls <->
             u <> "" /\ exists raw, raw ∈ default [] urls /\ Str.trim raw = u).
Proof.
  destruct urls as [urls|]; simpl.
  2:{ split; [constructor|]. split; [constructor|].
      intros u. split; [intros H; inversion H | intros (_ & raw & H & _); inversion H]. }
  destruct (Set_from_spec (List.filter Str.truthy (List.map Str.trim urls)))
    as (Hnd & Hmem & _).
  assert (Hiff : forall u, u ∈ Set_from (List.filter Str.truthy (List.map Str.trim urls)) <->
                           u <> "" /\ exists raw, raw ∈ urls /\ Str.trim raw = u).
  { intros u. rewrite Hmem, list_elem_of_In, filter_In, truthy_spec, in_map_iff.
    split.
    - intros ((raw & <- & Hraw) & Hne). split; [exact Hne|]. exists raw.
      split; [apply list_elem_of_In, Hraw | reflexivity].
    - intros (Hne & raw & Hraw & <-). split; [|exact Hne]. exists raw.
      split; [reflexivity | apply list_elem_of_In, Hraw]. }
  split; [exact Hnd|]. split; [|exact Hiff].
  apply Forall_forall. intros u Hu. apply Hiff in Hu.
  destruct Hu as (Hne & raw & _ & <-). split; [exact Hne | apply trim_idempotent].
Qed.

Lemma normalizeUrls_fixed (xs : list string) :
  NoDup xs -> Forall isTrimmed xs -> normalizeUrls (Some xs) = xs.
Proof.
  intros Hnd Htrim. simpl.
  assert (Hsame : List.filter Str.truthy (List.map Str.trim xs) = xs).
  { clear Hnd. induction Htrim as [|x xs [Hne Hx] _ IH]; [reflexivity|].
    simpl. rewrite Hx. apply truthy_spec in Hne. rewrite Hne. f_equal. exact IH. }
  rewrite Hsame. apply Set_from_spec, Hnd.
Qed.

(** [X29] The marketplace URLs read from the settings hold no URL twice,
    and none that is empty or carries surrounding white space: they are
    exactly the configured strings with the white space around them
    removed, those that are blank left out. A list that is written
    through [normalizeUrls] is read back as it was written. *)
Theorem getMarketplaceUrls_normalised (inspection : option Inspection) :
  let urls := getMarketplaceUrls inspection in
  NoDup urls /\
  Forall isTrimmed urls /\
  (forall u, u ∈ urls <->
             u <> "" /\ exists raw, raw ∈ configuredValues inspection /\ Str.trim raw = u) /\
  (forall written, normalizeUrls (Some (normalizeUrls written)) = normalizeUrls written).
Proof.
  intros urls. subst urls. unfold getMarketplaceUrls.
  set (both := getMarketplaceUrlsForTarget inspection TargetGlobal
               ++ getMarketplaceUrlsForTarget inspection TargetWorkspace).
  destruct (Set_from_spec both) as (Hnd & Hmem & _).
  assert (Hboth : forall u, u ∈ both <->
            u <> "" /\ exists raw, raw ∈ configuredValues inspection /\ Str.trim raw = u).
  { intros u. subst both. destruct inspection as [[g w]|]; simpl.
    2:{ split; [intros H; inversion H | intros (_ & raw & H & _); inversion H]. }
    destruct (normalizeUrls_spec g) as (_ & _ & Hg).
    destruct (normalizeUrls_spec w) as (_ & _ & Hw).
    rewrite elem_of_app, Hg, Hw. split.
    - intros [(Hne & raw & Hraw & Hu)|(Hne & raw & Hraw & Hu)];
        (split; [exact Hne|]); exists raw; (split; [|exact Hu]); set_solver.
    - intros (Hne & raw & Hraw & Hu). apply elem_of_app in Hraw.
      destruct Hraw as [Hraw|Hraw]; [left | right];
        (split; [exact Hne|]); exists raw; auto. }
  split; [exact Hnd|]. split; [|split].
  - apply Forall_forall. intros u Hu. apply Hmem, Hboth in Hu.
    destruct Hu as (Hne & raw & _ & <-). split; [exact Hne | apply trim_idempotent].
  - intros u. rewrite Hmem. apply Hboth.
  - intros written. destruct (normalizeUrls_spec written) as (Hnd' & Htrim & _).
    apply normalizeUrls_fixed; assumption.
Qed.

(** ** HTML escaping *)

Local Abbreviation pass c r l :=
  (concat (List.map (fun x : ascii => if Ascii.eqb x c then Str.chars r else [x]) l)).

Lemma replaceAll_chars (c : ascii) (replacement s : string) :
  Str.chars (replaceAll c replacement s) = pass c replacement (Str.chars s).
Proof. unfold replaceAll. apply chars_ofChars. Qed.

Lemma pass_app (c : ascii) (replacement : string) (a b : list ascii) :
  pass c replacement (a ++ b) = pass c replacement a ++ pass c replacement b.
Proof. rewrite List.map_app, concat_app. reflexivity. Qed.

Lemma escapeHtml_pass (text : string) :
  Str.chars (escapeHtml text) =
  pass "'" "&#39;" (pass "034" "&quot;" (pass ">" "&gt;" (pass "<" "&lt;"
    (pass "&" "&amp;" (Str.chars text))))).
Proof. unfold escapeHtml. rewrite !replaceAll_chars. reflexivity. Qed.

Lemma escapeChar_pass (x : ascii) :
  pass "'" "&#39;" (pass "034" "&quot;" (pass ">" "&gt;" (pass "<" "&lt;"
    (pass "&" "&amp;" [x])))) = Str.chars (escapeChar x).
Proof. destruct x as [[] [] [] [] [] [] [] []]; reflexivity. Qed.

Lemma escapeChar_clean (x : ascii) :
  forallb (fun c => negb (isMarkupChar c)) (Str.chars (escapeChar x)) = true.
Proof. destruct x as [[] [] [] [] [] [] [] []]; reflexivity. Qed.

Lemma escapeChar_plain (x : ascii) :
  isMarkupChar x = false -> x <> "&"%char -> escapeChar x = String x "".
Proof.
  destruct x as [[] [] [] [] [] [] [] []]; intros Hm Ha;
    first [reflexivity | discriminate Hm | contradiction Ha; reflexivity].
Qed.

Lemma escapeHtml_chars (text : string) :
  Str.chars (escapeHtml text) =
  concat (List.map (fun x => Str.chars (escapeChar x)) (Str.chars text)).
Proof.
  rewrite escapeHtml_pass.
  induction (Str.chars text) as [|x l IH]; [reflexivity|].
  change (x :: l) with ([x] ++ l).
  rewrite !pass_app, IH, escapeChar_pass. reflexivity.
Qed.

(** [X30] [escapeHtml] replaces each character on its own: an ampersand,
    an angle bracket and a quote of either kind become their entity, and
    every other character stays, so that an entity written by one
    replacement is not touched by a later one. The escaped text holds no
    angle bracket and no quote, and a text without any of the five
    characters is returned as it is. *)
Theorem escapeHtml_escapes (text : string) :
  escapeHtml text =
    Str.ofChars (concat (List.map (fun x => Str.chars (escapeChar x)) (Str.chars text))) /\
  Forall (fun c => isMarkupChar c = false) (Str.chars (escapeHtml text)) /\
  (Forall (fun c => isMarkupChar c = false /\ c <> "&"%char) (Str.chars text) ->
   escapeHtml text = text).
Proof.
  assert (Hchars := escapeHtml_chars text).
  split; [rewrite <- Hchars; symmetry; apply ofChars_chars|]. split.
  - rewrite Hchars. apply Forall_concat, Forall_forall. intros l Hl.
    apply list_elem_of_In, in_map_iff in Hl. destruct Hl as (x & <- & _).
    assert (Hx := escapeChar_clean x). rewrite forallb_forall in Hx.
    apply Forall_forall. intros c Hc. apply list_elem_of_In, Hx in Hc.
    destruct (isMarkupChar c); [discriminate | reflexivity].
  - intros Hplain. rewrite <- (ofChars_chars (escapeHtml text)), Hchars.
    rewrite <- (ofChars_chars text) at 2. f_equal. clear Hchars.
    induction Hplain as [|x l [Hm Ha] _ IH]; [reflexivity|].
    simpl. rewrite (escapeChar_plain x Hm Ha), IH. reflexivity.
Qed.

(** ** The further properties at concrete inputs *)

Lemma set_other_key_witness :
  "k" <> "j" /\
  memoryCache (set "k" 8%nat None 1020 (set "j" 5%nat None 990 demoCache)) !! "j"
    = memoryCache (set "j" 5%nat None 990 demoCache) !! "j" /\
  (get "j" 1030 (set "k" 8%nat None 1020 (set "j" 5%nat None 990 demoCache))).1
    = (get "j" 1030 (set "j" 5%nat None 990 demoCache)).1.
Proof.
  assert (H : "k" <> "j") by discriminate.
  split; [exact H|].
  exact (set_other_key nat (set "j" 5%nat None 990 demoCache) "k" "j" 8%nat None
           1020 1030 H).
Defined.


Lemma read_after_fetch_witness :
  (1005 - 1000 <= freshTTL (config demoEmpty) /\
   1005 - 1000 <= staleTTL (config demoEmpty) /\
   default false (@None bool) = false) /\
  getWithRefresh "k" None 1005
    (getWithRefresh_settled (Err := unit) "k" None (Fulfilled 7%nat) 1000 demoEmpty).2 =
  ({| progress := Returned {| result_data := 7%nat; fromCache := true;
                              refreshing := false |};
      fetcherCalls := 0;
      startedBackground := false |},
   (getWithRefresh_settled (Err := unit) "k" None (Fulfilled 7%nat) 1000 demoEmpty).2).
Proof.
  assert (H1 : 1005 - 1000 <= freshTTL (config demoEmpty)) by (vm_compute; discriminate).
  assert (H2 : 1005 - 1000 <= staleTTL (config demoEmpty)) by (vm_compute; discriminate).
  assert (H3 : default false (@None bool) = false) by reflexivity.
  split; [exact (conj H1 (conj H2 H3))|].
  exact (read_after_fetch nat unit demoEmpty "k" None 7%nat None 1000 1005 H1 H2 H3).
Defined.

Lemma allMarketplaces_order_independent_witness :
  Permutation ["https://b.example"; "https://a.example"]
              ["https://a.example"; "https://b.example"] /\
  CacheKeys.allMarketplaces ["https://b.example"; "https://a.example"] =
  CacheKeys.allMarketplaces ["https://a.example"; "https://b.example"] /\
  (CacheKeys.allMarketplaces ["https://b.example"; "https://a.example"]).2
    = ["https://a.example"; "https://b.example"].
Proof.
  assert (H : Permutation ["https://b.example"; "https://a.example"]
                          ["https://a.example"; "https://b.example"])
    by apply perm_swap.
  split; [exact H|].
  split; [exact (proj1 (allMarketplaces_order_independent _ _ H)) | reflexivity].
Defined.

Lemma candidateMarketplaceUrls_repository_host_witness :
  (Url.parse "https://github.com/acme/skills.git" =
     Some {| protocol := "https:"; hostname := "github.com"; port := "";
             pathname := "/acme/skills.git"; origin := "https://github.com" |} /\
   Forall isSegment ["acme"; "skills.git"]) /\
  candidateMarketplaceUrls Url.parse "https://github.com/acme/skills.git" =
  conventionCandidates "https://raw.githubusercontent.com/acme/skills".
Proof.
  assert (H1 : Url.parse "https://github.com/acme/skills.git" =
                 Some {| protocol := "https:"; hostname := "github.com"; port := "";
                         pathname := "/acme/skills.git";
                         origin := "https://github.com" |})
    by (vm_compute; reflexivity).
  assert (H2 : isRepositoryHostUrl
                 {| protocol := "https:"; hostname := "github.com"; port := "";
                    pathname := "/acme/skills.git"; origin := "https://github.com" |})
    by (split; [reflexivity | left; reflexivity]).
  assert (H3 : Forall isSegment ["acme"; "skills.git"])
    by (repeat constructor; discriminate).
  split; [exact (conj H1 H3)|].
  exact (candidateMarketplaceUrls_repository_host Url.parse
           "https://github.com/acme/skills.git" _ "acme" "skills.git" []
           H1 H2 eq_refl H3).
Defined.

Lemma repoContextFromDocumentUrl_raw_witness :
  (isSegment "acme" /\ isSegment "skills" /\ isSegment "main") /\
  repoContextFromDocumentUrl
    "https://raw.githubusercontent.com/acme/skills/main/.claude-plugin/marketplace.json"
  = Some {| owner := "acme";
            repo := "skills";
            branch := "main";
            rawBaseUrl := "https://raw.githubusercontent.com/acme/skills/main";
            blobBaseUrl := "https://github.com/acme/skills/blob/main" |}.
Proof.
  assert (H1 : isSegment "acme") by (split; [discriminate | repeat constructor; discriminate]).
  assert (H2 : isSegment "skills") by (split; [discriminate | repeat constructor; discriminate]).
  assert (H3 : isSegment "main") by (split; [discriminate | repeat constructor; discriminate]).
  split; [exact (conj H1 (conj H2 H3))|].
  exact (repoContextFromDocumentUrl_raw "acme" "skills" "main"
           ".claude-plugin/marketplace.json" H1 H2 H3).
Defined.

Lemma repository_candidates_have_context_witness :
  (Url.parse "https://github.com/acme/skills.git" =
     Some {| protocol := "https:"; hostname := "github.com"; port := "";
             pathname := "/acme/skills.git"; origin := "https://github.com" |} /\
   isSegment "acme" /\ isSegment "skills.git" /\ isSegment (stripDotGit "skills.git")) /\
  Forall (fun candidate =>
            exists ctx,
              repoContextFromDocumentUrl candidate = Some ctx /\
              owner ctx = "acme" /\ repo ctx = stripDotGit "skills.git" /\
              (branch ctx = "main" \/ branch ctx = "master") /\
              Str.startsWith (rawBaseUrl ctx) candidate = true)
         (candidateMarketplaceUrls Url.parse "https://github.com/acme/skills.git").
Proof.
  assert (H1 : Url.parse "https://github.com/acme/skills.git" =
                 Some {| protocol := "https:"; hostname := "github.com"; port := "";
                         pathname := "/acme/skills.git";
                         origin := "https://github.com" |})
    by (vm_compute; reflexivity).
  assert (H2 : isRepositoryHostUrl
                 {| protocol := "https:"; hostname := "github.com"; port := "";
                    pathname := "/acme/skills.git"; origin := "https://github.com" |})
    by (split; [reflexivity | left; reflexivity]).
  assert (H3 : isSegment "acme") by (split; [discriminate | repeat constructor; discriminate]).
  assert (H4 : isSegment "skills.git")
    by (split; [discriminate | repeat constructor; discriminate]).
  assert (H5 : isSegment (stripDotGit "skills.git"))
    by (split; [discriminate | repeat constructor; discriminate]).
  split; [exact (conj H1 (conj H3 (conj H4 H5)))|].
  exact (repository_candidates_have_context Url.parse
           "https://github.com/acme/skills.git" _ "acme" "skills.git"
           H1 H2 eq_refl H3 H4 H5).
Defined.

Lemma extractDescriptorSummary_line_witness :
  extractDescriptorSummary ("# Title" +:+ String LF "Does things") = Some "Does things" /\
  Forall (fun c => c <> LF) (Str.chars "Does things") /\
  ~ Forall (fun c => Str.isSpace c = true)
      (Str.chars ("# Title" +:+ String LF "Does things")) /\
  (frontMatterOf (splitLines ("# Title" +:+ String LF "Does things")) = None ->
   isTrimmed "Does things" /\
   Str.startsWith "#" "Does things" = false /\
   Str.startsWith "```" "Does things" = false /\
   "Does things" <> "---" /\ "Does things" <> "***" /\
   exists line, line ∈ splitLines ("# Title" +:+ String LF "Does things") /\
                "Does things" = Str.trim line).
Proof.
  assert (H : extractDescriptorSummary ("# Title" +:+ String LF "Does things")
              = Some "Does things") by (vm_compute; reflexivity).
  split; [exact H|].
  exact (extractDescriptorSummary_line _ _ H).
Defined.
